(** * [scripts/rp_cli.py]: the crawler and the subcommands

    A shallow embedding of [LINK_RE], [_parse_links] and [crawl_directory],
    followed by the properties of the crawl: link filtering, entry and
    frontier construction, depth bound, failure isolation, ordering of the
    result and the behaviour of the worker pool.  Then the rest of the
    file: [extract_ids], [read_token], the subcommands for crawling, for
    setting a defect, for hashing a traceback and for querying a test item,
    with the functions they call.

    Python [str] values are lists of characters, of code points below 256;
    [int] values are [Z].  The network, the token file, [urljoin],
    [urlparse], the builtin [int], [json.dumps] and the SHA-256 digest are
    parameters of the sections that use them. *)

From Stdlib Require Import List Ascii String ZArith Bool Lia Permutation.
From Stdlib Require Import Sorted Arith.
Import ListNotations.

Local Open Scope list_scope.

(** ** Python strings *)

Module Py.

Definition str := list ascii.

(** A string literal of the source. *)
Definition lit (s : string) : str := list_ascii_of_string s.

(** The double quote, written by its code so that it can appear in HTML. *)
Definition dq : ascii := "034"%char.

Definition str_eqb (a b : str) : bool :=
if list_eq_dec ascii_dec a b then true else false.

(** [str.isspace] on one character, as [Py_UNICODE_ISSPACE] defines it for
    code points below 256: TAB..CR, FS..US, space, NEL and NBSP.  The same
    predicate is the class [\s] of [re] on a [str] pattern. *)
Definition isspace (c : ascii) : bool :=
let n := N_of_ascii c in
(((9 <=? n) && (n <=? 13)) || ((28 <=? n) && (n <=? 32))
 || (n =? 133) || (n =? 160))%N.

Fixpoint dropwhile (p : ascii -> bool) (s : str) : str :=
match s with
| [] => []
| c :: s' => if p c then dropwhile p s' else s
end.

(** [s.lstrip()], [s.rstrip()] and [s.strip()] without argument. *)
Definition lstrip (s : str) : str := dropwhile isspace s.
Definition rstrip (s : str) : str := rev (dropwhile isspace (rev s)).
Definition strip (s : str) : str := rstrip (lstrip s).

(** [s.rstrip(chars)]: drops every trailing character that occurs in
    [chars]. *)
Definition rstrip_chars (chars s : str) : str :=
rev (dropwhile (fun c => existsb (Ascii.eqb c) chars) (rev s)).

(** [s.startswith(p)]. *)
Fixpoint startswith (p s : str) : bool :=
match p, s with
| [], _ => true
| _ :: _, [] => false
| a :: p', b :: s' => Ascii.eqb a b && startswith p' s'
end.

(** [s.startswith((p1, p2, ...))] with a tuple of prefixes. *)
Definition startswith_any (ps : list str) (s : str) : bool :=
existsb (fun p => startswith p s) ps.

(** [s.endswith(p)]. *)
Definition endswith (p s : str) : bool := startswith (rev p) (rev s).

(** [sub in s]. *)
Fixpoint contains (sub s : str) : bool :=
startswith sub s ||
match s with
| [] => false
| _ :: s' => contains sub s'
end.

(** [x in seen] for the set of strings [seen]. *)
Definition mem (x : str) (seen : list str) : bool := existsb (str_eqb x) seen.

(** Comparison of two strings, code point by code point, as [<] and [<=]
    on [str]. *)
Fixpoint str_ltb (a b : str) : bool :=
match a, b with
| _, [] => false
| [], _ :: _ => true
| x :: a', y :: b' =>
    match Ascii.compare x y with
    | Lt => true
    | Eq => str_ltb a' b'
    | Gt => false
    end
end.

Definition str_leb (a b : str) : bool := negb (str_ltb b a).

End Py.

Import Py.

(** ** The fragment of [re] that [LINK_RE] uses *)

Module Re.

(** A pattern is a sequence of nodes; every quantifier of [LINK_RE] is a
    greedy repetition of a one-character class, and both groups enclose
    exactly one such repetition. *)
Inductive node : Type :=
| Lit (c : ascii)                  (* the character itself *)
| Plus (cls : ascii -> bool)       (* cls+ *)
| Star (cls : ascii -> bool)       (* cls* *)
| Group (cls : ascii -> bool).     (* (cls* ) *)

Definition pattern := list node.

(** The nodes of a literal piece of the pattern. *)
Definition lits (s : string) : pattern := map Lit (lit s).

(** [\s], [[^c]]. *)
Definition space : ascii -> bool := isspace.
Definition never (c : ascii) : ascii -> bool := fun x => negb (Ascii.eqb x c).

(** Greedy repetition with backtracking: the longest run of [cls] is tried
    first, then each shorter one, until the rest of the pattern [k]
    matches. *)
Fixpoint greedy {R : Type} (cls : ascii -> bool) (k : str -> option R)
  (s : str) : option R :=
match s with
| c :: s' =>
    if cls c then
      match greedy cls k s' with
      | Some r => Some r
      | None => k s
      end
    else k s
| [] => k []
end.

(** The same, remembering the text matched so far for the group. *)
Fixpoint greedy_group {R : Type} (cls : ascii -> bool)
  (k : str -> str -> option R) (got s : str) : option R :=
match s with
| c :: s' =>
    if cls c then
      match greedy_group cls k (got ++ [c]) s' with
      | Some r => Some r
      | None => k got s
      end
    else k got s
| [] => k got []
end.

(** [pattern.match(s)]: the groups of the first match in backtracking order
    that starts at the beginning of [s], and the text after the match. *)
Fixpoint rmatch (p : pattern) (s : str) : option (list str * str) :=
match p with
| [] => Some ([], s)
| Lit c :: p' =>
    match s with
    | x :: s' => if Ascii.eqb x c then rmatch p' s' else None
    | [] => None
    end
| Plus cls :: p' =>
    match s with
    | x :: s' => if cls x then greedy cls (rmatch p') s' else None
    | [] => None
    end
| Star cls :: p' => greedy cls (rmatch p') s
| Group cls :: p' =>
    greedy_group cls
      (fun got rest =>
         match rmatch p' rest with
         | Some (gs, rest') => Some (got :: gs, rest')
         | None => None
         end) [] s
end.

(** [pattern.finditer(s)]: the matches from left to right, not overlapping;
    the search resumes where the previous match ended, or one character
    further when there is no match (or an empty one) at the position. *)
Fixpoint finditer_from (fuel : nat) (p : pattern) (s : str) : list (list str) :=
match fuel with
| O => []
| S fuel' =>
    match rmatch p s with
    | Some (gs, rest) =>
        if (List.length rest <? List.length s)%nat then gs :: finditer_from fuel' p rest
        else gs :: match s with
                   | [] => []
                   | _ :: s' => finditer_from fuel' p s'
                   end
    | None =>
        match s with
        | [] => []
        | _ :: s' => finditer_from fuel' p s'
        end
    end
end.

Definition finditer (p : pattern) (s : str) : list (list str) :=
finditer_from (S (List.length s)) p s.

(** [match.group(n)] for [n >= 1]. *)
Definition group (n : nat) (m : list str) : str := nth (n - 1) m [].

End Re.

(** ** The source: [LINK_RE] and [_parse_links] *)

(** [LINK_RE], node by node: the text <a, one or more spaces, any run
    without >, the text href= and a double quote, a group holding any run
    without double quote, a double quote, any run without >, the character >,
    a group holding any run without <, the text </a>. *)
Definition LINK_RE : Re.pattern :=
Re.lits "<a" ++ [Re.Plus Re.space; Re.Star (Re.never ">"%char)] ++
Re.lits "href=" ++ [Re.Lit dq; Re.Group (Re.never dq); Re.Lit dq] ++
[Re.Star (Re.never ">"%char); Re.Lit ">"%char; Re.Group (Re.never "<"%char)] ++
Re.lits "</a>".

(** A link of a page: [(name, absolute_url, is_dir)]. *)
Definition link : Type := str * str * bool.

Section ParseLinks.

(** [urllib.parse.urljoin], the resolution of a reference against a base
    URL, is left abstract. *)
Variable urljoin : str -> str -> str.

(** One turn of the loop [for match in LINK_RE.finditer(html)], on the state
    [(seen, links)]. *)
Definition parse_links_step (base_url : str)
  (st : list str * list link) (m : list str) : list str * list link :=
let '(seen, links) := st in
let href := Re.group 1 m in
let name := strip (Re.group 2 m) in
if str_eqb href [] || str_eqb href (lit "../") then st
else if startswith_any [lit "?"; lit "#"; lit "/"] href then st
else if contains (lit "://") href then st
else if mem href seen then st
else
  let seen := href :: seen in
  let abs_url := urljoin base_url href in
  let is_dir := endswith (lit "/") href in
  (seen, links ++ [(rstrip_chars (lit "/") name, abs_url, is_dir)]).

Definition _parse_links (html base_url : str) : list link :=
snd (fold_left (parse_links_step base_url)
       (Re.finditer LINK_RE html) ([], [])).

End ParseLinks.

(** The conditions of [_parse_links] that look at the href alone. *)
Definition rejected (href : str) : bool :=
str_eqb href [] || str_eqb href (lit "../")
|| startswith_any [lit "?"; lit "#"; lit "/"] href
|| contains (lit "://") href.

(** *** The filter of [_parse_links] as the specification words it *)

(** An anchor is discarded when its href is empty or is the parent
    reference, begins with [?], [#] or [/], contains [://], or is the href
    of an earlier anchor of the page. *)
Definition discarded (earlier : list str) (href : str) : bool :=
str_eqb href [] || str_eqb href (lit "../")
|| startswith (lit "?") href || startswith (lit "#") href
|| startswith (lit "/") href
|| contains (lit "://") href
|| mem href earlier.

(** The anchors that are kept, in page order; [earlier] holds the hrefs of
    all the anchors met before, kept or not. *)
Fixpoint kept_anchors (earlier : list str) (anchors : list (list str))
  : list (list str) :=
match anchors with
| [] => []
| m :: rest =>
    let href := Re.group 1 m in
    if discarded earlier href then kept_anchors (href :: earlier) rest
    else m :: kept_anchors (href :: earlier) rest
end.

(** The link of a kept anchor: a directory exactly when the href ends with
    a slash, named by the anchor text trimmed of whitespace and then of
    trailing slashes, with the href resolved against the page URL. *)
Definition link_of (urljoin : str -> str -> str) (base_url : str)
  (m : list str) : link :=
(rstrip_chars (lit "/") (strip (Re.group 2 m)),
 urljoin base_url (Re.group 1 m),
 endswith (lit "/") (Re.group 1 m)).

(** An anchor as a directory listing prints it. *)
Definition anchor (href text : string) : str :=
lit "<a href=" ++ [dq] ++ lit href ++ [dq] ++ lit ">" ++ lit text ++ lit "</a>".

(** Resolution of a plain relative reference (no scheme, no dot segment, no
    query, no fragment) against a base that ends with a slash: the reference
    is appended.  The examples below only resolve such references. *)
Definition urljoin_plain (base href : str) : str := base ++ href.

(** ** The source: [crawl_directory] *)

(** An element of [current_level]: [(url, depth, prefix)]. *)
Definition item : Type := str * Z * str.

(** An element of [results]: [(kind, path, url)]. *)
Definition entry : Type := str * str * str.

Definition item_url (it : item) : str := fst (fst it).
Definition item_depth (it : item) : Z := snd (fst it).
Definition item_prefix (it : item) : str := snd it.

Definition entry_kind (e : entry) : str := fst (fst e).
Definition entry_path (e : entry) : str := snd (fst e).
Definition entry_url (e : entry) : str := snd e.

(** The exceptions that reach [crawl_directory].  [HTTPError] is a subclass
    of [URLError], which is a subclass of [OSError]; [UnicodeDecodeError] is
    a subclass of [ValueError]. *)
Inductive exn : Type :=
| URLError | HTTPError | OSError
| ValueError | UnicodeDecodeError | HTTPException.

(** The handler [except (urllib.error.URLError, OSError)]. *)
Definition fetch_error (e : exn) : bool :=
match e with
| URLError | HTTPError | OSError => true
| ValueError | UnicodeDecodeError | HTTPException => false
end.

(** What [future.result()] gives for one [_fetch_page(url)]. *)
Inductive fetch_result : Type :=
| Page (html : str)
| Raise (e : exn).

(** What a call of [crawl_directory] gives. *)
Inductive crawl_result : Type :=
| Returned (results : list entry)
| Raised (e : exn).

(** A call together with the calls [executor.submit(_fetch_page, url)] it
    made, in order. *)
Record run : Type := mkRun {
  outcome : crawl_result;
  submitted : list item
}.

(** [results.sort(key=lambda x: x[1])]: a stable sort on the path. *)
Fixpoint insert_by_path (e : entry) (l : list entry) : list entry :=
match l with
| [] => [e]
| x :: l' =>
    if str_ltb (entry_path x) (entry_path e) then x :: insert_by_path e l'
    else e :: l
end.

Fixpoint sort_by_path (l : list entry) : list entry :=
match l with
| [] => []
| e :: l' => insert_by_path e (sort_by_path l')
end.

Section Crawl.

Variable urljoin : str -> str -> str.

(** The network: the outcome of [_fetch_page] on each URL, for fetches
    that answer.  The page is what [resp.read().decode()] gives; the
    exception is the one that [Request], [urlopen], [read] or [decode]
    raised.  [urlopen] is called without timeout, so a fetch may also never
    answer; such a fetch has no counterpart here, and what is proved about
    the end of a call is proved of the calls whose fetches all answer. *)
Variable _fetch_page : str -> fetch_result.

(** The scheduler: [as_completed k futures] is the order in which the
    futures of level [k] are yielded.  Any permutation can occur. *)
Variable as_completed : nat -> list item -> list item.

(** The body of [for name, link_url, is_dir in _parse_links(html, url)], on
    the state [(results, next_level)]. *)
Definition record_link (depth : Z) (prefix : str)
  (st : list entry * list item) (l : link) : list entry * list item :=
let '(results, next_level) := st in
let '(name, link_url, is_dir) := l in
let path := prefix ++ name ++ (if is_dir then lit "/" else lit "") in
let results := results ++ [(if is_dir then lit "d" else lit "f", path, link_url)] in
if is_dir then
  (results, next_level ++ [(link_url, (depth + 1)%Z, prefix ++ name ++ lit "/")])
else (results, next_level).

(** The loop [for future in as_completed(future_map)] over the futures in
    the order they are yielded: an exception of the handled classes skips
    the item, any other one leaves the function. *)
Fixpoint collect (futures : list item) (st : list entry * list item)
  : exn + (list entry * list item) :=
match futures with
| [] => inr st
| (url, depth, prefix) :: rest =>
    match _fetch_page url with
    | Raise e => if fetch_error e then collect rest st else inl e
    | Page html =>
        collect rest
          (fold_left (record_link depth prefix) (_parse_links urljoin html url) st)
    end
end.

(** The items of a level that are submitted: [depth >= max_depth] skips. *)
Definition eligible (max_depth : Z) (it : item) : bool :=
negb (max_depth <=? item_depth it)%Z.

(** The loop [while current_level], turn [k]; [None] when [fuel] turns are
    not enough. *)
Fixpoint crawl_loop (fuel : nat) (max_depth : Z) (k : nat)
  (current_level : list item) (results : list entry) (log : list item)
  : option run :=
match fuel with
| O => None
| S fuel' =>
    match current_level with
    | [] => Some (mkRun (Returned (sort_by_path results)) log)
    | _ :: _ =>
        let future_map := filter (eligible max_depth) current_level in
        let log := log ++ future_map in
        match future_map with
        | [] => Some (mkRun (Returned (sort_by_path results)) log)
        | _ :: _ =>
            match collect (as_completed k future_map) (results, []) with
            | inl e => Some (mkRun (Raised e) log)
            | inr (results, next_level) =>
                crawl_loop fuel' max_depth (S k) next_level results log
            end
        end
    end
end.

(** [crawl_directory(root_url, max_depth, workers)].  The constructor
    [ThreadPoolExecutor(max_workers=workers)] raises [ValueError] when
    [workers <= 0]; every level is one deeper than the one before, so
    [max_depth] turns and one more are enough. *)
Definition crawl_directory (root_url : str) (max_depth workers : Z)
  : option run :=
let root_url :=
  if endswith (lit "/") root_url then root_url else root_url ++ lit "/" in
if (workers <=? 0)%Z then Some (mkRun (Raised ValueError) [])
else crawl_loop (S (Z.to_nat max_depth)) max_depth 0
       [(root_url, 0%Z, lit "")] [] [].

End Crawl.

(** The root URL as the crawl uses it, ending with a slash, and the item
    that the frontier starts with. *)
Definition root_of (root_url : str) : str :=
if endswith (lit "/") root_url then root_url else root_url ++ lit "/".

Definition root_item (root_url : str) : item := (root_of root_url, 0%Z, lit "").

(** *** Entries and frontier items as the specification words them *)

(** The entry recorded for a link found under [prefix]. *)
Definition entry_of (prefix : str) (l : link) : entry :=
let '(name, absolute_url, is_dir) := l in
(if is_dir then lit "d" else lit "f",
 prefix ++ name ++ (if is_dir then lit "/" else lit ""),
 absolute_url).

(** The frontier item of a directory link found at [depth] under
    [prefix]. *)
Definition frontier_of (depth : Z) (prefix : str) (l : link) : item :=
let '(name, absolute_url, _) := l in
(absolute_url, (depth + 1)%Z, prefix ++ name ++ lit "/").

Definition link_name (l : link) : str := fst (fst l).
Definition link_url (l : link) : str := snd (fst l).
Definition link_is_dir (l : link) : bool := snd l.

(** No character of the class [p] at the start, at the end of [s]. *)
Definition no_leading (p : ascii -> bool) (s : str) : Prop :=
forall c r, s = c :: r -> p c = false.

Definition no_trailing (p : ascii -> bool) (s : str) : Prop :=
forall r c, s = r ++ [c] -> p c = false.

Definition is_slash (c : ascii) : bool := Ascii.eqb c "/"%char.

(** *** Names that make paths unique *)

Definition slash_free (s : str) : Prop := ~ In "/"%char s.

(** A prefix is empty or ends with a slash. *)
Definition ends_slash (p : str) : Prop := p = [] \/ exists q, p = q ++ lit "/".

(** The prefix of an item that is [k] levels below the root. *)
Definition prefix_at (k : nat) (p : str) : Prop :=
count_occ ascii_dec p "/"%char = k /\ ends_slash p.

(** The names of the links of one page: without slash, not empty for a
    file, and no two links of the same kind with the same name. *)
Definition names_ok (links : list link) : Prop :=
(forall lk, In lk links ->
   slash_free (link_name lk) /\
   (link_is_dir lk = false -> link_name lk <> [])) /\
NoDup (map (fun lk => (link_name lk, link_is_dir lk)) links).

(** The path built for a name of the given kind under a prefix. *)
Definition path_of (prefix name : str) (is_dir : bool) : str :=
prefix ++ name ++ (if is_dir then lit "/" else lit "").

(** A path made at level [k]: a name without slash, not empty for a file,
    under the prefix of an item of that level. *)
Definition made_at (k : nat) (path : str) : Prop :=
exists p n d,
  path = path_of p n d /\ prefix_at k p /\ slash_free n /\
  (d = false -> n <> []).

Section Branches.

Variable urljoin : str -> str -> str.
Variable _fetch_page : str -> fetch_result.

(** What one item of the frontier contributes: the entries of the links of
    its page and the frontier items of its directory links; nothing when
    its fetch raised. *)
Definition item_entries (it : item) : list entry :=
match _fetch_page (item_url it) with
| Page html =>
    map (entry_of (item_prefix it)) (_parse_links urljoin html (item_url it))
| Raise _ => []
end.

Definition item_children (it : item) : list item :=
match _fetch_page (item_url it) with
| Page html =>
    map (frontier_of (item_depth it) (item_prefix it))
      (filter link_is_dir (_parse_links urljoin html (item_url it)))
| Raise _ => []
end.

(** The names on the page of an item, when its fetch gives a page. *)
Definition page_names_ok (it : item) : Prop :=
forall html,
  _fetch_page (item_url it) = Page html ->
  names_ok (_parse_links urljoin html (item_url it)).

(** The fetch of the item raised an exception that the handler lets
    through. *)
Definition crashes (it : item) : bool :=
match _fetch_page (item_url it) with
| Page _ => false
| Raise e => negb (fetch_error e)
end.

(** The URLs of the directory links of the page at [url]: the pages that
    the listing at [url] points to. *)
Definition page_dirs (url : str) : list str :=
match _fetch_page url with
| Page html => map link_url (filter link_is_dir (_parse_links urljoin html url))
| Raise _ => []
end.

(** The URLs that are [n] directory links away from [root]. *)
Inductive generation (root : str) : nat -> str -> Prop :=
| generation_root : generation root 0 root
| generation_child : forall n u v,
    generation root n u -> In v (page_dirs u) -> generation root (S n) v.

(** The URLs below [root]: the root and what directory links lead to from
    it. *)
Definition below (root url : str) : Prop := exists n, generation root n url.

(** The listings form a tree below [root]: among the pages below the root,
    a page lists a directory once, no directory is listed by two pages, and
    no page lists the root. *)
Definition listing_tree (root : str) : Prop :=
(forall u, below root u -> NoDup (page_dirs u)) /\
(forall u v x,
   below root u -> below root v ->
   In x (page_dirs u) -> In x (page_dirs v) -> u = v) /\
(forall u, below root u -> ~ In root (page_dirs u)).

(** The listings have no cycle: every directory link goes down in some
    rank. *)
Definition listing_dag : Prop :=
exists rank : str -> nat,
  forall u v, In v (page_dirs u) -> (rank v < rank u)%nat.

End Branches.


(** *** Example listings *)

(** A site given by the table of its pages; any other URL answers with an
    HTTP error. *)
Fixpoint site (pages : list (str * str)) (url : str) : fetch_result :=
match pages with
| [] => Raise HTTPError
| (u, html) :: rest => if str_eqb url u then Page html else site rest url
end.

(** The root lists the directory [a/] and the file [b.txt]; [a/] lists the
    file [c.txt]. *)
Definition site_small : str -> fetch_result :=
site [(lit "http://h/", anchor "a/" "a/" ++ anchor "b.txt" "b.txt");
      (lit "http://h/a/", anchor "c.txt" "c.txt")].

(** The root lists two directories whose anchors show the same text [X];
    each of them lists a file [f]. *)
Definition site_same_text : str -> fetch_result :=
site [(lit "http://h/", anchor "x/" "X" ++ anchor "y/" "X");
      (lit "http://h/x/", anchor "f" "f");
      (lit "http://h/y/", anchor "f" "f")].


(** The root lists [a/] and, by a longer reference, [a/b/]; [a/] lists
    [b/]; [a/b/] lists a file.  No listing leads back to an earlier one. *)
Definition site_diamond : str -> fetch_result :=
site [(lit "http://h/", anchor "a/" "a/" ++ anchor "a/b/" "b/");
      (lit "http://h/a/", anchor "b/" "b/");
      (lit "http://h/a/b/", anchor "c.txt" "c.txt")].

(** Two directories at each of two levels: the root lists [a/], [b/] and a
    file; [a/] lists [x/] and a file, [b/] lists [y/] and a file; [x/] and
    [y/] list a file each. *)
Definition site_wide : str -> fetch_result :=
site [(lit "http://h/",
       anchor "a/" "a/" ++ anchor "b/" "b/" ++ anchor "r.txt" "r.txt");
      (lit "http://h/a/", anchor "x/" "x/" ++ anchor "m.txt" "m.txt");
      (lit "http://h/b/", anchor "y/" "y/" ++ anchor "n.txt" "n.txt");
      (lit "http://h/a/x/", anchor "p.txt" "p.txt");
      (lit "http://h/b/y/", anchor "q.txt" "q.txt")].

(** The root lists [a/] and [b/]; [a/] lists [s/] and [b/] lists a file;
    the two directories that [s/] lists show the same text [X]. *)
Definition site_deep : str -> fetch_result :=
site [(lit "http://h/", anchor "a/" "a/" ++ anchor "b/" "b/");
      (lit "http://h/a/", anchor "s/" "s/");
      (lit "http://h/b/", anchor "t.txt" "t.txt");
      (lit "http://h/a/s/", anchor "x/" "X" ++ anchor "y/" "X")].

(** The root lists [a/b/] and [d/], each with a file below it.  The page
    [a/], which no page lists, lists [b/] too. *)
Definition site_aside : str -> fetch_result :=
site [(lit "http://h/", anchor "a/b/" "b/" ++ anchor "d/" "d/");
      (lit "http://h/a/", anchor "b/" "b/");
      (lit "http://h/a/b/", anchor "c.txt" "c.txt");
      (lit "http://h/d/", anchor "e.txt" "e.txt")].



(** A site as [_fetch_page] reaches it when [urllib.request.Request]
    refuses the URL made of a slash, which names no scheme: [ValueError],
    before anything is sent. *)
Definition no_scheme (serve : str -> fetch_result) (url : str) : fetch_result :=
if str_eqb url (lit "/") then Raise ValueError else serve url.

Definition rank_diamond (url : str) : nat :=
if str_eqb url (lit "http://h/") then 2
else if str_eqb url (lit "http://h/a/") then 1 else 0.

(** Futures yielded in the order of submission, in the opposite order. *)
Definition in_order (k : nat) (futures : list item) : list item := futures.
Definition reversed (k : nat) (futures : list item) : list item := rev futures.

(** Equality of items is decidable. *)
Definition item_eq_dec (a b : item) : {a = b} + {a <> b}.
Proof.
repeat decide equality.
Defined.

(** The completion order read off a history: at turn [k] the futures of
    the history are yielded in the order of the history, any other list in
    its own order. *)
Definition replay (h : list (list item * list item)) (k : nat)
  (futures : list item) : list item :=
match nth_error h k with
| Some (fs, ys) =>
    if list_eq_dec item_eq_dec futures fs then ys else futures
| None => futures
end.

(** ** The worker pool, step by step

    The same function with the threads of [ThreadPoolExecutor] made
    explicit: the main thread submits the items of a level, the workers take
    work items from the queue and run [_fetch_page], and the main thread
    consumes the futures as they complete. *)

(** A future: its number and the item whose page it fetches. *)
Definition task : Type := nat * item.

Definition task_depth (t : task) : Z := item_depth (snd t).

Definition task_eq_dec (a b : task) : {a = b} + {a <> b}.
Proof.
repeat decide equality.
Defined.

(** What an observer of the fetches sees. *)
Inductive event : Type :=
| Start (t : task)       (* a worker enters [_fetch_page] *)
| Finish (t : task).     (* the call returns or raises *)

(** Where the main thread is. *)
Inductive phase : Type :=
| Submitting (todo : list item)   (* in [for url, depth, prefix in current_level] *)
| Collecting                      (* in [for future in as_completed(future_map)] *)
| Left (r : crawl_result).        (* out of the function *)

Record state : Type := mkState {
  main : phase;
  unyielded : list task;          (* futures of [future_map] not yet yielded *)
  results : list entry;
  next_level : list item;
  work_queue : list task;         (* [executor._work_queue] *)
  running : list task;            (* work items inside [_fetch_page] *)
  threads : nat;                  (* [len(executor._threads)] *)
  idle : nat;                     (* [executor._idle_semaphore] *)
  finished : list (task * fetch_result);
  next_future : nat;
  trace : list event              (* oldest first *)
}.

Section Pool.

Variable urljoin : str -> str -> str.
Variable _fetch_page : str -> fetch_result.
Variable max_depth workers : Z.

(** [executor._adjust_thread_count()]: nothing when the semaphore of idle
    workers can be taken, otherwise one more thread while there are fewer
    than [max_workers]. *)
Definition adjust_thread_count (th_idle : nat * nat) : nat * nat :=
let '(th, idl) := th_idle in
match idl with
| S idl' => (th, idl')
| O => if (Z.of_nat th <? workers)%Z then (S th, O) else (th, O)
end.

Definition init (root_url : str) : state :=
let root_url :=
  if endswith (lit "/") root_url then root_url else root_url ++ lit "/" in
mkState
  (if (workers <=? 0)%Z then Left (Raised ValueError)
   else Submitting [(root_url, 0%Z, lit "")])
  [] [] [] [] [] 0 0 [] 0 [].

Inductive step : state -> state -> Prop :=
| step_skip : forall it todo fm rs nl q busy th idl fin n tr,
    eligible max_depth it = false ->
    step (mkState (Submitting (it :: todo)) fm rs nl q busy th idl fin n tr)
         (mkState (Submitting todo) fm rs nl q busy th idl fin n tr)
| step_submit : forall it todo fm rs nl q busy th idl fin n tr,
    eligible max_depth it = true ->
    step (mkState (Submitting (it :: todo)) fm rs nl q busy th idl fin n tr)
         (mkState (Submitting todo) (fm ++ [(n, it)]) rs nl (q ++ [(n, it)]) busy
            (fst (adjust_thread_count (th, idl)))
            (snd (adjust_thread_count (th, idl))) fin (S n) tr)
| step_break : forall rs nl q busy th idl fin n tr,
    step (mkState (Submitting []) [] rs nl q busy th idl fin n tr)
         (mkState (Left (Returned (sort_by_path rs))) [] rs nl q busy th idl fin n tr)
| step_wait : forall t fm rs nl q busy th idl fin n tr,
    step (mkState (Submitting []) (t :: fm) rs nl q busy th idl fin n tr)
         (mkState Collecting (t :: fm) rs [] q busy th idl fin n tr)
| step_take : forall ph fm rs nl t q busy th idl fin n tr,
    (List.length busy < th)%nat ->
    step (mkState ph fm rs nl (t :: q) busy th idl fin n tr)
         (mkState ph fm rs nl q (busy ++ [t]) th idl fin n (tr ++ [Start t]))
| step_finish : forall ph fm rs nl q busy1 t busy2 th idl fin n tr,
    step (mkState ph fm rs nl q (busy1 ++ t :: busy2) th idl fin n tr)
         (mkState ph fm rs nl q (busy1 ++ busy2) th (S idl)
            (fin ++ [(t, _fetch_page (item_url (snd t)))]) n (tr ++ [Finish t]))
| step_page : forall fm1 t fm2 rs nl q busy th idl fin n tr html,
    In (t, Page html) fin ->
    step (mkState Collecting (fm1 ++ t :: fm2) rs nl q busy th idl fin n tr)
         (mkState Collecting (fm1 ++ fm2)
            (fst (fold_left (record_link (item_depth (snd t)) (item_prefix (snd t)))
                    (_parse_links urljoin html (item_url (snd t))) (rs, nl)))
            (snd (fold_left (record_link (item_depth (snd t)) (item_prefix (snd t)))
                    (_parse_links urljoin html (item_url (snd t))) (rs, nl)))
            q busy th idl fin n tr)
| step_handled : forall fm1 t fm2 rs nl q busy th idl fin n tr e,
    In (t, Raise e) fin -> fetch_error e = true ->
    step (mkState Collecting (fm1 ++ t :: fm2) rs nl q busy th idl fin n tr)
         (mkState Collecting (fm1 ++ fm2) rs nl q busy th idl fin n tr)
| step_raise : forall fm1 t fm2 rs nl q busy th idl fin n tr e,
    In (t, Raise e) fin -> fetch_error e = false ->
    step (mkState Collecting (fm1 ++ t :: fm2) rs nl q busy th idl fin n tr)
         (mkState (Left (Raised e)) (fm1 ++ t :: fm2) rs nl q busy th idl fin n tr)
| step_next : forall rs it nl q busy th idl fin n tr,
    step (mkState Collecting [] rs (it :: nl) q busy th idl fin n tr)
         (mkState (Submitting (it :: nl)) [] rs (it :: nl) q busy th idl fin n tr)
| step_done : forall rs q busy th idl fin n tr,
    step (mkState Collecting [] rs [] q busy th idl fin n tr)
         (mkState (Left (Returned (sort_by_path rs))) [] rs [] q busy th idl fin n tr).

(** The states a call can be in. *)
Inductive reachable (root_url : str) : state -> Prop :=
| reach_init : reachable root_url (init root_url)
| reach_step : forall s s',
    reachable root_url s -> step s s' -> reachable root_url s'.

(** *** Schedules

    A schedule names the thread that moves next: the main thread, a worker
    that takes the first work item of the queue, the running fetch at a
    position that ends, the future at a position that [as_completed]
    yields.  [perform] makes the move when the state allows it. *)
Inductive move : Type :=
| Main
| Take
| Finish_at (i : nat)
| Yield_at (i : nat).

Definition perform (s : state) (m : move) : option state :=
let '(mkState ph fm rs nl q busy th idl fin n tr) := s in
match m with
| Main =>
    match ph with
    | Submitting (it :: todo) =>
        if eligible max_depth it then
          Some (mkState (Submitting todo) (fm ++ [(n, it)]) rs nl
                  (q ++ [(n, it)]) busy
                  (fst (adjust_thread_count (th, idl)))
                  (snd (adjust_thread_count (th, idl))) fin (S n) tr)
        else Some (mkState (Submitting todo) fm rs nl q busy th idl fin n tr)
    | Submitting [] =>
        match fm with
        | [] =>
            Some (mkState (Left (Returned (sort_by_path rs))) [] rs nl q busy
                    th idl fin n tr)
        | _ :: _ => Some (mkState Collecting fm rs [] q busy th idl fin n tr)
        end
    | Collecting =>
        match fm, nl with
        | [], [] =>
            Some (mkState (Left (Returned (sort_by_path rs))) [] rs [] q busy
                    th idl fin n tr)
        | [], _ :: _ =>
            Some (mkState (Submitting nl) [] rs nl q busy th idl fin n tr)
        | _ :: _, _ => None
        end
    | Left _ => None
    end
| Take =>
    match q with
    | t :: q' =>
        if (List.length busy <? th)%nat then
          Some (mkState ph fm rs nl q' (busy ++ [t]) th idl fin n
                  (tr ++ [Start t]))
        else None
    | [] => None
    end
| Finish_at i =>
    match nth_error busy i with
    | Some t =>
        Some (mkState ph fm rs nl q (firstn i busy ++ skipn (S i) busy) th
                (S idl) (fin ++ [(t, _fetch_page (item_url (snd t)))]) n
                (tr ++ [Finish t]))
    | None => None
    end
| Yield_at i =>
    match ph, nth_error fm i with
    | Collecting, Some t =>
        match find (fun d => if task_eq_dec (fst d) t then true else false)
                fin with
        | Some (_, Page html) =>
            Some (mkState Collecting (firstn i fm ++ skipn (S i) fm)
                    (fst (fold_left
                            (record_link (item_depth (snd t))
                               (item_prefix (snd t)))
                            (_parse_links urljoin html (item_url (snd t)))
                            (rs, nl)))
                    (snd (fold_left
                            (record_link (item_depth (snd t))
                               (item_prefix (snd t)))
                            (_parse_links urljoin html (item_url (snd t)))
                            (rs, nl)))
                    q busy th idl fin n tr)
        | Some (_, Raise e) =>
            if fetch_error e then
              Some (mkState Collecting (firstn i fm ++ skipn (S i) fm) rs nl
                      q busy th idl fin n tr)
            else Some (mkState (Left (Raised e)) fm rs nl q busy th idl fin n tr)
        | None => None
        end
    | _, _ => None
    end
end.

Fixpoint perform_all (s : state) (schedule : list move) : option state :=
match schedule with
| [] => Some s
| m :: schedule' =>
    match perform s m with
    | Some s' => perform_all s' schedule'
    | None => None
    end
end.

(** The number of fetches in flight. *)
Definition in_flight (s : state) : nat := List.length (running s).

(** The level barrier on a trace: when a fetch starts, every fetch of a
    smaller depth that the trace ever starts has finished before. *)
Definition barrier (tr : list event) : Prop :=
forall before t after t',
  tr = before ++ Start t :: after ->
  (task_depth t' < task_depth t)%Z ->
  In (Start t') tr ->
  In (Finish t') before.

(** The threads of the pool: no more work items run than there are
    threads, and threads are only started below [max_workers]. *)
Definition threads_ok (s : state) : Prop :=
(List.length (running s) <= threads s)%nat /\
(threads s = 0%nat \/ (Z.of_nat (threads s) <= workers)%Z).

(** The futures: each one is in the queue, running or finished, in one
    place only, and carries a number below the next one. *)
Definition futures_ok (s : state) : Prop :=
NoDup (work_queue s ++ running s ++ map fst (finished s)) /\
(forall t, In t (work_queue s ++ running s ++ map fst (finished s)) ->
           (fst t < next_future s)%nat).

(** The level at depth [d] is the one being handled. *)
Definition level_ok (d : Z) (s : state) : Prop :=
match main s with
| Submitting todo => forall it, In it todo -> item_depth it = d
| Collecting => forall it, In it (next_level s) -> item_depth it = (d + 1)%Z
| Left _ => True
end /\
(forall t, In t (unyielded s) -> task_depth t = d) /\
(forall t, In t (work_queue s ++ running s) -> In t (unyielded s)) /\
(forall t, In (Start t) (trace s) -> (task_depth t <= d)%Z) /\
(forall t, In (Start t) (trace s) -> (task_depth t < d)%Z ->
           In (Finish t) (trace s)) /\
(forall t, In (Start t) (trace s) ->
           In (Finish t) (trace s) \/ In t (running s)) /\
barrier (trace s).

(** *** The pool against the loop

    A run of the pool is a run of [crawl_directory] under the completion
    order that the run produced.  The history holds, for each finished
    level, its futures and the order in which they were yielded. *)

Definition history : Type := list (list item * list item).

Definition history_ok (h : history) : Prop :=
Forall (fun fy => Permutation (snd fy) (fst fy)) h.

(** The completion order [ac] yields as the history tells. *)
Definition agrees (ac : nat -> list item -> list item) (h : history) : Prop :=
forall k fs ys, nth_error h k = Some (fs, ys) -> ac k fs = ys.

(** The futures of a state report what [_fetch_page] gives. *)
Definition finished_ok (s : state) : Prop :=
forall t r, In (t, r) (finished s) -> r = _fetch_page (item_url (snd t)).

(** The state [s] of the pool stands for the loop at turn [length h] on
    [level], with the entries [rs0] and the submitted items [log]. *)
Definition at_turn (root_url : str) (h : history) (level : list item)
  (rs0 : list entry) (log : list item) : Prop :=
forall ac fuel,
  agrees ac h ->
  crawl_loop urljoin _fetch_page ac (List.length h + fuel) max_depth 0
    [root_item root_url] [] [] =
  crawl_loop urljoin _fetch_page ac fuel max_depth (List.length h)
    level rs0 log.

Definition simulates (root_url : str) (s : state) : Prop :=
exists h level rs0 log,
  history_ok h /\
  match main s with
  | Submitting todo =>
      at_turn root_url h level rs0 log /\
      exists done,
        level = done ++ todo /\
        map snd (unyielded s) = filter (eligible max_depth) done /\
        results s = rs0
  | Collecting =>
      at_turn root_url h level rs0 log /\
      exists ys,
        Permutation (ys ++ map snd (unyielded s))
          (filter (eligible max_depth) level) /\
        filter (eligible max_depth) level <> [] /\
        collect urljoin _fetch_page ys (rs0, []) =
          inr (results s, next_level s)
  | Left r =>
      forall ac fuel,
        agrees ac h ->
        crawl_loop urljoin _fetch_page ac (List.length h + S fuel) max_depth 0
          [root_item root_url] [] [] = Some (mkRun r log)
  end.

End Pool.

(** The state of a call on the small site with two workers once the root
    has been submitted and a worker has entered its fetch. *)
Definition fetching_root : state :=
mkState (Submitting [])
  [(0%nat, (lit "http://h/", 0%Z, lit ""))] [] [] []
  [(0%nat, (lit "http://h/", 0%Z, lit ""))] 1 0 [] 1
  [Start (0%nat, (lit "http://h/", 0%Z, lit ""))].

(** A call on the wide site with depth two and two workers, to its return:
    the root is submitted, fetched and yielded; [a/] and [b/] are submitted
    and fetched side by side, [b/] ends first and is yielded first; their
    directories are at the depth allowed and are skipped. *)
Definition two_levels : list move :=
[Main; Take; Finish_at 0; Main; Yield_at 0;
 Main; Main; Main; Take; Take; Finish_at 1; Finish_at 0; Main;
 Yield_at 1; Yield_at 0;
 Main; Main; Main; Main].

(** ** The rest of [rp_cli.py] *)

(** *** More of Python's [str] *)

(** [s.split(sep)] for a separator that is not empty (the source only
    splits on literals): the text is cut at each occurrence of [sep] found
    from left to right, an occurrence starting where the previous one ended
    at the earliest.  [cur] is the piece being read and [skip] the number
    of characters of the occurrence still to pass. *)
Fixpoint split_from (sep : str) (skip : nat) (cur s : str) : list str :=
match s with
| [] => [cur]
| c :: s' =>
    match skip with
    | S k => split_from sep k cur s'
    | O =>
        if startswith sep s
        then cur :: split_from sep (List.length sep - 1) [] s'
        else split_from sep 0 (cur ++ [c]) s'
    end
end.

Definition str_split (sep s : str) : list str := split_from sep 0 [] s.

(** [sep.join(pieces)]. *)
Fixpoint str_join (sep : str) (pieces : list str) : str :=
match pieces with
| [] => []
| [x] => x
| x :: rest => x ++ sep ++ str_join sep rest
end.

(** No occurrence of [sep] in [p ++ r] starts inside [p]. *)
Definition starts_none (sep p r : str) : Prop :=
forall p1 p2, p = p1 ++ p2 -> p2 <> [] -> startswith sep (p2 ++ r) = false.

(** The exceptions that the functions below raise themselves or let
    through: those that reach the crawler, and three more classes. *)
Inductive py_error : Type :=
| E_exn (e : exn)
| E_IndexError | E_LookupError | E_FileNotFoundError.

(** *** [extract_ids] *)

(** [extract_ids(rp_url)]: [ValueError] when a marker is missing,
    [IndexError] from [parts[1]] or [parts[3]] when the list is short. *)
Definition extract_ids (rp_url : str) : py_error + (str * str) :=
if negb (contains (lit "launches/") rp_url) || negb (contains (lit "log") rp_url)
then inl (E_exn ValueError)
else
  match nth_error (str_split (lit "launches/") rp_url) 1 with
  | None => inl E_IndexError
  | Some after =>
      let parts := str_split (lit "/") after in
      match nth_error parts 1 with
      | None => inl E_IndexError
      | Some launch_id =>
          match nth_error parts 3 with
          | None => inl E_IndexError
          | Some test_item_id => inr (launch_id, test_item_id)
          end
      end
  end.

(** ** The source: the subcommands *)

(** How a subcommand ends: it returns, it calls [sys.exit(code)], or an
    exception leaves it. *)
Inductive ending : Type :=
| Done
| Exit (code : Z)
| Uncaught (e : py_error).

(** What a subcommand did: the texts it printed on [sys.stdout] and on
    [sys.stderr], one for each call of [print], how it ended, and the calls
    it made to the outside, in order.  The traceback that the interpreter
    prints for an uncaught exception is not part of it. *)
Record process (call : Type) : Type := mkProcess {
  stdout : list str;
  stderr : list str;
  ends : ending;
  calls : list call
}.

Arguments mkProcess {call} _ _ _ _.
Arguments stdout {call} _.
Arguments stderr {call} _.
Arguments ends {call} _.
Arguments calls {call} _.

(** *** [_run_crawl] *)

(** The line printed for an entry: [f"{kind} {path}"]. *)
Definition crawl_line (e : entry) : str :=
entry_kind e ++ lit " " ++ entry_path e.

Definition crawl_usage : str := lit "Usage: rp_cli.py crawl [-d DEPTH] <url>".

Section RunCrawl.

(** The builtin [int] on a string; [None] stands for its [ValueError]. *)
Variable int : str -> option Z.

Variable urljoin : str -> str -> str.
Variable _fetch_page : str -> fetch_result.
Variable as_completed : nat -> list item -> list item.

(** The loop [while i < len(args)] of [_run_crawl], on the arguments from
    index [i] on, with the values of [max_depth] and [url] so far. *)
Fixpoint crawl_args (max_depth : Z) (url : str) (args : list str)
  : py_error + (Z * str) :=
match args with
| [] => inr (max_depth, url)
| a :: rest =>
    match rest with
    | v :: rest' =>
        if str_eqb a (lit "-d") then
          match int v with
          | Some d => crawl_args d url rest'
          | None => inl (E_exn ValueError)
          end
        else crawl_args max_depth a rest
    | [] => crawl_args max_depth a rest
    end
end.

(** [_run_crawl(args)]; the calls are the fetches that [crawl_directory]
    submitted, with its default of twenty workers. *)
Definition _run_crawl (args : list str) : option (process item) :=
match crawl_args 5 (lit "") args with
| inl e => Some (mkProcess [] [] (Uncaught e) [])
| inr (max_depth, url) =>
    match url with
    | [] => Some (mkProcess [] [crawl_usage] (Exit 1) [])
    | _ :: _ =>
        match crawl_directory urljoin _fetch_page as_completed url max_depth 20
        with
        | None => None
        | Some r =>
            match outcome r with
            | Returned results =>
                Some (mkProcess (map crawl_line results) [] Done (submitted r))
            | Raised e =>
                Some (mkProcess [] [] (Uncaught (E_exn e)) (submitted r))
            end
        end
    end
end.

End RunCrawl.

(** The arguments of [crawl] as the usage line shows them: a depth is the
    flag followed by its value, a target is one word. *)
Inductive crawl_option : Type :=
| Depth (v : str)
| Target (u : str).

Definition argv_of (o : crawl_option) : list str :=
match o with
| Depth v => [lit "-d"; v]
| Target u => [u]
end.

Definition depths (opts : list crawl_option) : list str :=
flat_map (fun o => match o with Depth v => [v] | Target _ => [] end) opts.

Definition targets (opts : list crawl_option) : list str :=
flat_map (fun o => match o with Depth _ => [] | Target u => [u] end) opts.

(** [int] on a plain decimal numeral with an optional minus sign, for the
    examples.  The builtin accepts more: blanks around the numeral, a plus
    sign, underscores between digits. *)
Definition digit (c : ascii) : option Z :=
let n := N_of_ascii c in
if ((48 <=? n) && (n <=? 57))%N then Some (Z.of_N (n - 48)) else None.

Fixpoint digits (acc : Z) (s : str) : option Z :=
match s with
| [] => Some acc
| c :: s' =>
    match digit c with
    | Some d => digits (10 * acc + d) s'
    | None => None
    end
end.

Definition int_plain (s : str) : option Z :=
match s with
| [] => None
| c :: r =>
    if Ascii.eqb c "-"%char then
      match r with
      | [] => None
      | _ :: _ => option_map Z.opp (digits 0 r)
      end
    else digits 0 s
end.

(** *** [read_token] *)

(** What [read_token] sees of the outside: the path that [RP_TOKEN_FILE]
    or the default gives, whether [os.path.isfile] holds for it, the
    [st_mode] of [os.stat], and what [open] and [read] give, the text or
    an exception. *)
Record token_file : Type := mkTokenFile {
  token_path : str;
  is_file : bool;
  st_mode : Z;
  content : exn + str
}.

(** [stat.S_IRWXG] and [stat.S_IRWXO]: octal 070 and 007. *)
Definition S_IRWXG : Z := 56.
Definition S_IRWXO : Z := 7.

(** The line feed of the two-line messages. *)
Definition line_feed : ascii := "010"%char.

(** [oct(n)]: the octal digits after the prefix, a minus sign first for a
    negative number. *)
Fixpoint oct_digits (fuel : nat) (n : Z) (acc : str) : str :=
match fuel with
| O => acc
| S fuel' =>
    let acc := ascii_of_N (48 + Z.to_N (n mod 8)) :: acc in
    if (n <? 8)%Z then acc else oct_digits fuel' (n / 8) acc
end.

Definition oct (n : Z) : str :=
if (n <? 0)%Z then lit "-0o" ++ oct_digits (S (Z.to_nat (- n))) (- n) []
else lit "0o" ++ oct_digits (S (Z.to_nat n)) n [].

(** The text of the [FileNotFoundError] that [read_token] raises. *)
Definition token_not_found (path : str) : str :=
lit "RP token file not found: " ++ path ++ [line_feed] ++
lit "Create it with: echo '<your_token>' > ~/.ssh/report_portal".

Definition token_warning (path : str) (mode : Z) : str :=
lit "Warning: " ++ path ++ lit " has insecure permissions (" ++
oct (Z.land mode 511) ++ lit "). Run: chmod 600 " ++ path.

(** [read_token()]: what it prints on [sys.stderr], and the exception it
    ends with or the token it returns. *)
Definition read_token (tf : token_file) : list str * (py_error + str) :=
if negb (is_file tf) then ([], inl E_FileNotFoundError)
else
  let warning :=
    if (Z.land (st_mode tf) (Z.lor S_IRWXG S_IRWXO) =? 0)%Z then []
    else [token_warning (token_path tf) (st_mode tf)] in
  match content tf with
  | inl e => (warning, inl (E_exn e))
  | inr text => (warning, inr (strip text))
  end.

(** *** [update_defect] and [_run_decide] *)

(** The values that the request body is made of. *)
#[warnings="-register-all"] Inductive json : Type :=
| JBool (b : bool)
| JInt (n : Z)
| JStr (s : str)
| JList (items : list json)
| JDict (fields : list (str * json)).

(** A call [put_json(url, api_key, payload)]. *)
Definition request : Type := str * str * json.

Definition ISSUE_TYPE_MAP : list (str * str) :=
[(lit "product_bug", lit "PB001");
 (lit "automation_bug", lit "AB001");
 (lit "system_issue", lit "SI001")].

(** [m[key]] for a dictionary with string keys; [None] when the key is not
    in it. *)
Fixpoint lookup (key : str) (m : list (str * str)) : option str :=
match m with
| [] => None
| (k, v) :: m' => if str_eqb key k then Some v else lookup key m'
end.

(** The dictionary [issue] of [update_defect]. *)
Definition defect_issue (issue_type comment external_url ticket_id : str)
  : json :=
JDict
  ([(lit "issueType", JStr issue_type);
    (lit "comment", JStr comment);
    (lit "autoAnalyzed", JBool false);
    (lit "ignoreAnalyzer", JBool false)] ++
   match external_url with
   | [] => []
   | _ :: _ =>
       [(lit "externalSystemIssues",
         JList
           [JDict
              [(lit "url", JStr external_url);
               (lit "ticketId",
                JStr (match ticket_id with
                      | [] => external_url
                      | _ :: _ => ticket_id
                      end));
               (lit "btsUrl", JStr external_url);
               (lit "btsProject", JStr (lit ""))]])]
   end).

Definition defect_payload (test_item_id : Z) (issue : json) : json :=
JDict
  [(lit "issues",
    JList [JDict [(lit "testItemId", JInt test_item_id);
                  (lit "issue", issue)]])].

Definition decide_usage : str :=
lit "Usage: rp_cli.py decide <base_url> <item_id> <issue_type> " ++
lit "[--comment '...'] [--link-url '...'] [--link-id '...']" ++
[line_feed] ++ lit "  issue_type: product_bug | automation_bug | system_issue".

Definition unknown_issue_type (key : str) : str :=
lit "Error: unknown issue_type '" ++ key ++ lit "'. Choose from: " ++
str_join (lit ", ") (map fst ISSUE_TYPE_MAP).

Definition unknown_flag (flag : str) : str :=
lit "Error: unknown flag '" ++ flag ++ lit "'".

(** The loop [while i < len(args)] of [_run_decide], on the arguments from
    index [i] on; on the left, the argument that is reported as an unknown
    flag. *)
Fixpoint decide_flags (comment link_url link_id : str) (args : list str)
  : str + (str * str * str) :=
match args with
| [] => inr (comment, link_url, link_id)
| a :: rest =>
    match rest with
    | v :: rest' =>
        if str_eqb a (lit "--comment") then
          decide_flags v link_url link_id rest'
        else if str_eqb a (lit "--link-url") then
          decide_flags comment v link_id rest'
        else if str_eqb a (lit "--link-id") then
          decide_flags comment link_url v rest'
        else inl a
    | [] => inl a
    end
end.

Section RunDecide.

Variable int : str -> option Z.

(** The module constant [RP_PROJECT], read from the environment. *)
Variable RP_PROJECT : str.

(** The parsed reply of the server, [put_json] sending the request and
    giving the reply or raising, and [json.dumps(result, indent=2)]. *)
Variable reply : Type.
Variable put_json : str -> str -> json -> exn + reply.
Variable dumps : reply -> str.

(** [update_defect(...)]: the request it sent, if any, and the exception it
    ends with or the reply it returns. *)
Definition update_defect
  (base_url item_id api_key issue_type comment external_url ticket_id : str)
  : list request * (py_error + reply) :=
let issue := defect_issue issue_type comment external_url ticket_id in
match int item_id with
| None => ([], inl (E_exn ValueError))
| Some test_item_id =>
    let payload := defect_payload test_item_id issue in
    let url := base_url ++ lit "/api/v1/" ++ RP_PROJECT ++ lit "/item" in
    ([(url, api_key, payload)],
     match put_json url api_key payload with
     | inl e => inl (E_exn e)
     | inr result => inr result
     end)
end.

(** [_run_decide(args)]; the calls are the requests sent. *)
Definition _run_decide (tf : token_file) (args : list str) : process request :=
match args with
| base_url :: item_id :: issue_type_key :: flags =>
    match lookup issue_type_key ISSUE_TYPE_MAP with
    | None => mkProcess [] [unknown_issue_type issue_type_key] (Exit 1) []
    | Some issue_type =>
        match decide_flags (lit "") (lit "") (lit "") flags with
        | inl flag => mkProcess [] [unknown_flag flag] (Exit 1) []
        | inr (comment, link_url, link_id) =>
            let '(warning, token) := read_token tf in
            match token with
            | inl E_FileNotFoundError =>
                mkProcess []
                  (warning ++ [lit "Error: " ++ token_not_found (token_path tf)])
                  (Exit 1) []
            | inl e => mkProcess [] warning (Uncaught e) []
            | inr api_key =>
                let '(sent, result) :=
                  update_defect base_url item_id api_key issue_type comment
                    link_url link_id in
                match result with
                | inl e => mkProcess [] warning (Uncaught e) sent
                | inr result => mkProcess [dumps result] warning Done sent
                end
            end
        end
    end
| _ => mkProcess [] [decide_usage] (Exit 1) []
end.

End RunDecide.

(** The optional arguments of [decide] as the usage text shows them. *)
Inductive decide_option : Type :=
| Comment (v : str)
| LinkUrl (v : str)
| LinkId (v : str).

Definition decide_argv (o : decide_option) : list str :=
match o with
| Comment v => [lit "--comment"; v]
| LinkUrl v => [lit "--link-url"; v]
| LinkId v => [lit "--link-id"; v]
end.

Definition comments (opts : list decide_option) : list str :=
flat_map (fun o => match o with Comment v => [v] | _ => [] end) opts.

Definition link_urls (opts : list decide_option) : list str :=
flat_map (fun o => match o with LinkUrl v => [v] | _ => [] end) opts.

Definition link_ids (opts : list decide_option) : list str :=
flat_map (fun o => match o with LinkId v => [v] | _ => [] end) opts.

Definition is_link_id (o : decide_option) : bool :=
match o with LinkId _ => true | _ => false end.

(** A token file with mode 0600 that holds the token and a line feed, and a
    server that accepts every request with an empty object. *)
Definition token_600 : token_file :=
mkTokenFile (lit "/home/u/.ssh/report_portal") true 33152
  (inr (lit "secret" ++ [line_feed])).

Definition put_ok (url api_key : str) (payload : json) : exn + str :=
inr (lit "{}").

(** *** [compute_traceback_hash] and [_run_hash] *)

(** The line boundaries of [str.splitlines] among the code points below
    256: LF, VT, FF, CR, FS, GS, RS and NEL. *)
Definition is_boundary (c : ascii) : bool :=
let n := N_of_ascii c in
(((10 <=? n) && (n <=? 13)) || ((28 <=? n) && (n <=? 30)) || (n =? 133))%N.

Definition carriage_return : ascii := "013"%char.

(** [s.splitlines()]: the lines without their boundaries; CR followed by
    LF is one boundary, and a boundary at the very end opens no line.
    [cur] is the line being read. *)
Fixpoint splitlines_from (cur s : str) : list str :=
match s with
| [] =>
    match cur with
    | [] => []
    | _ :: _ => [cur]
    end
| c :: s' =>
    if is_boundary c then
      cur ::
      match s' with
      | c' :: s'' =>
          if Ascii.eqb c carriage_return && Ascii.eqb c' line_feed
          then splitlines_from [] s''
          else splitlines_from [] s'
      | [] => splitlines_from [] s'
      end
    else splitlines_from (cur ++ [c]) s'
end.

Definition splitlines (s : str) : list str := splitlines_from [] s.

(** [l[-n:]] for a positive [n]. *)
Definition last_n {A : Type} (n : nat) (l : list A) : list A :=
skipn (List.length l - n) l.

(** The fragment of [re] that the three patterns of
    [compute_traceback_hash] use. *)
Module Rx.

Inductive node : Type :=
| Chr (c : ascii)                       (* the character itself *)
| Cls (cls : ascii -> bool)             (* a class, once *)
| Rep (cls : ascii -> bool) (lo : nat) (hi : option nat)
                                        (* a class, lo to hi times or more *)
| End.                                  (* the dollar sign *)

Definition pattern := list node.

(** Greedy repetition with backtracking: one more character of the class
    is tried first, as long as the upper bound allows it; the rest of the
    pattern [k] is tried once the lower bound is reached. *)
Fixpoint rep {R : Type} (cls : ascii -> bool) (k : str -> option R)
  (lo : nat) (hi : option nat) (s : str) : option R :=
let stop := match lo with O => k s | S _ => None end in
match s with
| c :: s' =>
    if cls c && negb (match hi with Some O => true | _ => false end) then
      match rep cls k (Nat.pred lo) (option_map Nat.pred hi) s' with
      | Some r => Some r
      | None => stop
      end
    else stop
| [] => stop
end.

(** The dollar sign without the multi-line flag: the end of the text, or
    the place before a line feed that ends the text. *)
Definition at_end (s : str) : bool :=
match s with
| [] => true
| [c] => Ascii.eqb c line_feed
| _ :: _ :: _ => false
end.

(** [pattern.match(s)]: the text after the first match in backtracking
    order that starts at the beginning of [s]. *)
Fixpoint rmatch (p : pattern) (s : str) : option str :=
match p with
| [] => Some s
| Chr c :: p' =>
    match s with
    | x :: s' => if Ascii.eqb x c then rmatch p' s' else None
    | [] => None
    end
| Cls cls :: p' =>
    match s with
    | x :: s' => if cls x then rmatch p' s' else None
    | [] => None
    end
| Rep cls lo hi :: p' => rep cls (rmatch p') lo hi s
| End :: p' => if at_end s then rmatch p' s else None
end.

(** [re.sub] with the empty string as the replacement: the
    matches found from left to right are left out, the search resuming
    where a match ended; a position without a match, or with an empty one,
    keeps its character. *)
Fixpoint sub_from (fuel : nat) (p : pattern) (s : str) : str :=
match fuel with
| O => s
| S fuel' =>
    match s with
    | [] => []
    | c :: s' =>
        match rmatch p s with
        | Some rest =>
            if (List.length rest <? List.length s)%nat
            then sub_from fuel' p rest
            else c :: sub_from fuel' p s'
        | None => c :: sub_from fuel' p s'
        end
    end
end.

Definition sub (p : pattern) (s : str) : str := sub_from (List.length s) p s.

End Rx.

(** The classes of the three patterns: a decimal digit, a lower-case
    hexadecimal digit, a lower-case letter or a digit, the letter T or a
    blank, a dot or a digit. *)
Definition is_digit (c : ascii) : bool :=
let n := N_of_ascii c in ((48 <=? n) && (n <=? 57))%N.

Definition is_hex (c : ascii) : bool :=
let n := N_of_ascii c in (((97 <=? n) && (n <=? 102)) || is_digit c)%N.

Definition is_lower_alnum (c : ascii) : bool :=
let n := N_of_ascii c in (((97 <=? n) && (n <=? 122)) || is_digit c)%N.

Definition is_T_or_blank (c : ascii) : bool :=
Ascii.eqb c "T"%char || Ascii.eqb c " "%char.

Definition is_dot_or_digit (c : ascii) : bool :=
Ascii.eqb c "."%char || is_digit c.

(** The pattern of a timestamp: four digits, a hyphen, two digits, a
    hyphen, two digits, T or a blank, two digits, a colon, two digits, a
    colon, two digits, then dots and digits at will. *)
Definition TIMESTAMP_RE : Rx.pattern :=
[Rx.Rep is_digit 4 (Some 4); Rx.Chr "-"%char;
 Rx.Rep is_digit 2 (Some 2); Rx.Chr "-"%char;
 Rx.Rep is_digit 2 (Some 2); Rx.Cls is_T_or_blank;
 Rx.Rep is_digit 2 (Some 2); Rx.Chr ":"%char;
 Rx.Rep is_digit 2 (Some 2); Rx.Chr ":"%char;
 Rx.Rep is_digit 2 (Some 2); Rx.Rep is_dot_or_digit 0 None].

(** The pattern of a UUID: groups of 8, 4, 4, 4 and 12 lower-case
    hexadecimal digits, joined by hyphens. *)
Definition UUID_RE : Rx.pattern :=
[Rx.Rep is_hex 8 (Some 8); Rx.Chr "-"%char;
 Rx.Rep is_hex 4 (Some 4); Rx.Chr "-"%char;
 Rx.Rep is_hex 4 (Some 4); Rx.Chr "-"%char;
 Rx.Rep is_hex 4 (Some 4); Rx.Chr "-"%char;
 Rx.Rep is_hex 12 (Some 12)].

(** The pattern of a pod-name suffix: a hyphen and five to ten lower-case
    letters or digits, at the end. *)
Definition POD_RE : Rx.pattern :=
[Rx.Chr "-"%char; Rx.Rep is_lower_alnum 5 (Some 10); Rx.End].

(** The body of the loop [for line in lines]. *)
Definition normalize_line (line : str) : str :=
Rx.sub POD_RE (Rx.sub UUID_RE (Rx.sub TIMESTAMP_RE (strip line))).

(** [line.strip()] as a condition. *)
Definition nonblank (line : str) : bool :=
match strip line with
| [] => false
| _ :: _ => true
end.

Definition hash_usage : str := lit "Error: pipe traceback via stdin".

Section Hash.

(** [hashlib.sha256(text.encode()).hexdigest()]. *)
Variable sha256_hex : str -> str.

Definition compute_traceback_hash (traceback : str) : str :=
let lines := last_n 5 (filter nonblank (splitlines traceback)) in
sha256_hex (str_join [line_feed] (map normalize_line lines)).

(** [_run_hash()] on the text that [sys.stdin.read()] gives. *)
Definition _run_hash (stdin : str) : process Empty_set :=
match strip stdin with
| [] => mkProcess [] [hash_usage] (Exit 1) []
| _ :: _ => mkProcess [compute_traceback_hash stdin] [] Done []
end.

End Hash.

(** A run of [n] decimal digits. *)
Definition digit_run (n : nat) (x : str) : Prop :=
List.length x = n /\ forallb is_digit x = true.

(** A timestamp as [TIMESTAMP_RE] words it: date, the letter T or a blank,
    time, and a fraction made of dots and digits, possibly empty. *)
Definition timestamp (ts : str) : Prop :=
exists y mo d sep h mi s frac,
  ts = y ++ lit "-" ++ mo ++ lit "-" ++ d ++ [sep] ++
       h ++ lit ":" ++ mi ++ lit ":" ++ s ++ frac /\
  digit_run 4 y /\ digit_run 2 mo /\ digit_run 2 d /\
  is_T_or_blank sep = true /\
  digit_run 2 h /\ digit_run 2 mi /\ digit_run 2 s /\
  forallb is_dot_or_digit frac = true.

(** The text [r] does not go on with a character of the class. *)
Definition not_continued (cls : ascii -> bool) (r : str) : Prop :=
match r with
| [] => True
| c :: _ => cls c = false
end.

(** *** [fetch_launch_info], [fetch_test_info] and [_run_query] *)

(** A reply of the server as the two functions read it.  Every key is read
    with [get] and a default, so a reply is given by the values that these
    reads give: the name and the status of an item, and the elements of
    the content; an element by its description, its attributes (each one
    by its key and its value) and its message.  The values are strings,
    as the server sends them. *)
Record element : Type := mkElement {
  get_description : str;
  get_attributes : list (str * str);
  get_message : str
}.

Record reply_dict : Type := mkReply {
  get_name : str;
  get_status : str;
  get_content : list element
}.

(** A call [fetch_json(url, api_key)]. *)
Definition query : Type := str * str.

(** A computation that sends requests and returns or raises: the requests
    sent, in order, and the outcome. *)
Definition io (A : Type) : Type := list query * (py_error + A).

Definition ret {A : Type} (a : A) : io A := ([], inr a).

Definition raise {A : Type} (e : py_error) : io A := ([], inl e).

Definition bind {A B : Type} (m : io A) (f : A -> io B) : io B :=
match m with
| (sent, inl e) => (sent, inl e)
| (sent, inr a) => let '(sent', b) := f a in (sent ++ sent', b)
end.

Notation "x <- m ;; f" := (bind m (fun x => f))
  (at level 61, m at next level, right associativity).

(** A value or an exception, without request. *)
Definition lift {A : Type} (r : py_error + A) : io A := ([], r).

(** [d[key] = value] on a dictionary, which keeps the place of a key that
    it holds already. *)
Fixpoint set_item (key value : str) (d : list (str * str)) : list (str * str) :=
match d with
| [] => [(key, value)]
| (k, v) :: d' =>
    if str_eqb key k then (k, value) :: d' else (k, v) :: set_item key value d'
end.

(** The loop [for attr in launch.get("attributes", [])]. *)
Definition attributes_step (d : list (str * str)) (attr : str * str)
  : list (str * str) :=
match fst attr with
| [] => d
| _ :: _ => set_item (fst attr) (snd attr) d
end.

Definition launch_attributes (attrs : list (str * str)) : list (str * str) :=
fold_left attributes_step attrs [].

(** The block [if "openshift-clusters/" in logs_url_root] of
    [fetch_launch_info]: the cluster name, empty when the marker is
    missing. *)
Definition cluster_name_of (logs_url_root : str) : py_error + str :=
if contains (lit "openshift-clusters/") logs_url_root then
  match nth_error (str_split (lit "openshift-clusters/") logs_url_root) 1 with
  | None => inl E_IndexError
  | Some after =>
      match nth_error (str_split (lit "/") after) 0 with
      | None => inl E_IndexError
      | Some cluster_name => inr cluster_name
      end
  end
else inr (lit "").

(** [logs_url_root] and [cluster_name] of [fetch_launch_info], from the
    description: both empty when the description does not hold the
    marker. *)
Definition launch_urls (description : str) : py_error + (str * str) :=
if contains (lit "Logs URL:") description then
  match nth_error (str_split (lit "Logs URL:") description) 1 with
  | None => inl E_IndexError
  | Some piece =>
      let logs_url_root := strip piece in
      match cluster_name_of logs_url_root with
      | inl e => inl e
      | inr cluster_name => inr (logs_url_root, cluster_name)
      end
  end
else inr (lit "", lit "").

(** The dictionaries that the two functions return. *)
Record launch_info : Type := mkLaunchInfo {
  logs_url_root : str;
  cluster_name : str;
  launch_description : str;
  info_attributes : list (str * str)
}.

Record test_info : Type := mkTestInfo {
  test_name : str;
  test_status : str;
  traceback : str;
  error_message : str
}.

(** The last line of a message, trimmed: [msg.split(LF)[-1].strip()]. *)
Definition last_line (msg : str) : str :=
strip (last (str_split [line_feed] msg) []).

(** The loop [for entry in log_data.get("content", [])], on the state
    [(traceback_lines, error_message)]. *)
Definition log_step (st : list str * str) (msg : str) : list str * str :=
let '(traceback_lines, error_message) := st in
(traceback_lines ++ [msg],
 match error_message, msg with
 | [], _ :: _ => last_line msg
 | _, _ => error_message
 end).

(** The dictionary that [_run_query] prints. *)
Record query_result : Type := mkQueryResult {
  result_launch_id : str;
  result_test_item_id : str;
  result_test : test_info;
  result_launch : launch_info
}.

Section RunQuery.

Variable RP_PROJECT : str.

(** [fetch_json] sending the request and giving the reply or raising;
    [urllib.parse.urlparse] giving the scheme and the network location or
    raising; [json.dumps(result, indent=2)]. *)
Variable fetch_json : str -> str -> exn + reply_dict.
Variable urlparse : str -> exn + (str * str).
Variable dumps : query_result -> str.

Definition fetch_json_call (url api_key : str) : io reply_dict :=
([(url, api_key)],
 match fetch_json url api_key with
 | inl e => inl (E_exn e)
 | inr data => inr data
 end).

Definition extract_base_url (rp_url : str) : py_error + str :=
match urlparse rp_url with
| inl e => inl (E_exn e)
| inr (scheme, netloc) => inr (scheme ++ lit "://" ++ netloc)
end.

Definition fetch_launch_info (base_url launch_id api_key : str)
  : io launch_info :=
data <- fetch_json_call
          (base_url ++ lit "/api/v1/" ++ RP_PROJECT ++
           lit "/launch?filter.eq.id=" ++ launch_id) api_key ;;
match get_content data with
| [] => raise E_LookupError
| launch :: _ =>
    urls <- lift (launch_urls (get_description launch)) ;;
    ret (mkLaunchInfo (fst urls) (snd urls) (get_description launch)
           (launch_attributes (get_attributes launch)))
end.

Definition fetch_test_info (base_url item_id api_key : str) : io test_info :=
item_data <- fetch_json_call
               (base_url ++ lit "/api/v1/" ++ RP_PROJECT ++ lit "/item/" ++
                item_id) api_key ;;
log_data <- fetch_json_call
              (base_url ++ lit "/api/v1/" ++ RP_PROJECT ++ lit "/log" ++
               lit "?filter.eq.item=" ++ item_id ++
               lit "&filter.in.level=ERROR") api_key ;;
let '(traceback_lines, error_message) :=
  fold_left log_step (map get_message (get_content log_data)) ([], lit "") in
ret (mkTestInfo (get_name item_data) (get_status item_data)
       (str_join [line_feed] traceback_lines) error_message).

(** [_run_query(rp_url)]; the calls are the requests sent. *)
Definition _run_query (tf : token_file) (rp_url : str) : process query :=
let '(warning, token) := read_token tf in
match token with
| inl E_FileNotFoundError =>
    mkProcess [] (warning ++ [lit "Error: " ++ token_not_found (token_path tf)])
      (Exit 1) []
| inl e => mkProcess [] warning (Uncaught e) []
| inr api_key =>
    let '(sent, result) :=
      base_url <- lift (extract_base_url rp_url) ;;
      ids <- lift (extract_ids rp_url) ;;
      launch <- fetch_launch_info base_url (fst ids) api_key ;;
      test <- fetch_test_info base_url (snd ids) api_key ;;
      ret (mkQueryResult (fst ids) (snd ids) test launch) in
    match result with
    | inl e => mkProcess [] warning (Uncaught e) sent
    | inr result => mkProcess [dumps result] warning Done sent
    end
end.

End RunQuery.

(** A server for the examples: one launch, whose description ends with the
    URL of its logs and whose attributes hold a key twice and an empty key;
    one failed item; two error logs, the first of which ends with a line
    feed. *)
Definition launch_reply : reply_dict :=
mkReply (lit "") (lit "")
  [mkElement
     (lit "Run 7" ++ [line_feed] ++
      lit "Logs URL: http://logs/openshift-clusters/c1/run7/")
     [(lit "platform", lit "aws"); (lit "", lit "x"); (lit "platform", lit "gcp")]
     (lit "")].

Definition item_reply : reply_dict := mkReply (lit "test_a") (lit "FAILED") [].

Definition log_reply : reply_dict :=
mkReply (lit "") (lit "")
  [mkElement (lit "") [] (lit "setup failed" ++ [line_feed]);
   mkElement (lit "") []
     (lit "Traceback" ++ [line_feed] ++ lit "  ValueError: boom ")].

Definition server_small (url api_key : str) : exn + reply_dict :=
if contains (lit "/launch?") url then inr launch_reply
else if contains (lit "/item/") url then inr item_reply
else inr log_reply.

(** The parse of the one address that the examples use. *)
Definition urlparse_rp (rp_url : str) : exn + (str * str) :=
inr (lit "https", lit "rp").

Definition query_example : process query :=
_run_query (lit "ocs") server_small urlparse_rp
  (fun result => cluster_name (result_launch result)) token_600
  (lit "https://rp/ui/#ocs/launches/all/123/456/789/log").

(** * Properties *)

(** ** Link extraction *)

Section ParseLinksFacts.

Variable urljoin : str -> str -> str.

Lemma str_eqb_eq (a b : str) : str_eqb a b = true <-> a = b.
Proof.
unfold str_eqb. destruct (list_eq_dec ascii_dec a b); split; congruence.
Qed.

Lemma str_eqb_refl (a : str) : str_eqb a a = true.
Proof. now apply str_eqb_eq. Qed.

Lemma str_eqb_neq (a b : str) : str_eqb a b = false <-> a <> b.
Proof.
unfold str_eqb. destruct (list_eq_dec ascii_dec a b); split; congruence.
Qed.

Lemma mem_In (x : str) (l : list str) : mem x l = true <-> In x l.
Proof.
unfold mem. rewrite existsb_exists. split.
- intros (y & Hy & E). apply str_eqb_eq in E. now subst.
- intros H. exists x. split; [assumption | apply str_eqb_refl].
Qed.

Lemma discarded_rejected (earlier : list str) (href : str) :
  discarded earlier href = rejected href || mem href earlier.
Proof.
unfold discarded, rejected, startswith_any. simpl.
rewrite orb_false_r. now rewrite !orb_assoc.
Qed.

Lemma parse_links_step_unfold (base_url : str) (seen : list str)
  (links : list link) (m : list str) :
  parse_links_step urljoin base_url (seen, links) m =
  if rejected (Re.group 1 m) || mem (Re.group 1 m) seen then (seen, links)
  else (Re.group 1 m :: seen, links ++ [link_of urljoin base_url m]).
Proof.
unfold parse_links_step, rejected, link_of.
destruct (str_eqb (Re.group 1 m) [] || str_eqb (Re.group 1 m) (lit "../")); [reflexivity|].
destruct (startswith_any _ (Re.group 1 m)); [reflexivity|].
destruct (contains _ (Re.group 1 m)); [reflexivity|].
destruct (mem (Re.group 1 m) seen); reflexivity.
Qed.

(** The set [seen] only holds hrefs that passed the other conditions, the
    list [earlier] holds them all: they agree on every href that passes. *)
Lemma parse_links_fold (base_url : str) (anchors : list (list str)) :
  forall (earlier seen : list str) (links : list link),
    (forall h, rejected h = false -> mem h seen = mem h earlier) ->
    snd (fold_left (parse_links_step urljoin base_url) anchors (seen, links)) =
    links ++ map (link_of urljoin base_url) (kept_anchors earlier anchors).
Proof.
induction anchors as [|m rest IH]; intros earlier seen links Hseen;
  cbn [fold_left kept_anchors map].
- simpl. now rewrite app_nil_r.
- rewrite parse_links_step_unfold, discarded_rejected.
  destruct (rejected (Re.group 1 m)) eqn:Hrej; cbn [orb].
  + apply IH. intros h Hh. rewrite Hseen by assumption.
    simpl. destruct (str_eqb h (Re.group 1 m)) eqn:E; [|reflexivity].
    apply str_eqb_eq in E. congruence.
  + rewrite <- (Hseen _ Hrej).
    destruct (mem (Re.group 1 m) seen) eqn:Hmem.
    * apply IH. intros h Hh. simpl.
      destruct (str_eqb h (Re.group 1 m)) eqn:E.
      -- apply str_eqb_eq in E. subst h. assumption.
      -- now apply Hseen.
    * rewrite (IH (Re.group 1 m :: earlier)).
      -- cbn [map]. now rewrite <- app_assoc.
      -- intros h Hh. simpl. now rewrite Hseen.
Qed.

(** C4. An anchor of the page is discarded exactly when its href is empty
    or the parent reference, begins with a question mark, a hash or a slash,
    contains a scheme separator, or repeats (case-sensitively) the href of
    an earlier anchor; the links returned are those of the other anchors in
    page order.  The page of the five anchors Parent, Name, Abs, Other and
    Child yields only Child; two identical anchors yield one link; two
    hrefs that differ in case only are both kept. *)
Theorem parse_links_filter :
  (forall html base_url,
     _parse_links urljoin html base_url =
     map (link_of urljoin base_url)
       (kept_anchors [] (Re.finditer LINK_RE html)))
  /\ (forall base_url,
       _parse_links urljoin
         (anchor "../" "Parent" ++ anchor "?C=N" "Name" ++
          anchor "/abs/" "Abs" ++ anchor "http://other.example/" "Other" ++
          anchor "child/" "Child") base_url =
       [(lit "Child", urljoin base_url (lit "child/"), true)])
  /\ (forall base_url,
       _parse_links urljoin (anchor "x/" "X" ++ anchor "x/" "X") base_url =
       [(lit "X", urljoin base_url (lit "x/"), true)])
  /\ (forall base_url,
       _parse_links urljoin (anchor "x/" "X" ++ anchor "X/" "X") base_url =
       [(lit "X", urljoin base_url (lit "x/"), true);
        (lit "X", urljoin base_url (lit "X/"), true)]).
Proof.
split; [|repeat split; intros; vm_compute; reflexivity].
intros html base_url. unfold _parse_links.
now rewrite (parse_links_fold base_url _ [] [] []).
Qed.

End ParseLinksFacts.

(** The search of [finditer] consumes at least one character per turn, so
    any number of turns above the length of the text gives the same
    matches: the turns that [finditer] allows are enough. *)
Lemma finditer_from_enough (p : Re.pattern) (fuel1 : nat) :
  forall fuel2 s,
    (List.length s < fuel1)%nat -> (List.length s < fuel2)%nat ->
    Re.finditer_from fuel1 p s = Re.finditer_from fuel2 p s.
Proof.
induction fuel1 as [|fuel1 IH]; intros fuel2 s H1 H2; [lia|].
destruct fuel2 as [|fuel2]; [lia|]. cbn [Re.finditer_from].
destruct (Re.rmatch p s) as [[gs rest]|].
- destruct (List.length rest <? List.length s)%nat eqn:E.
  + apply Nat.ltb_lt in E. f_equal. apply IH; lia.
  + destruct s as [|c s']; [reflexivity|]. cbn [List.length] in H1, H2.
    f_equal. apply IH; lia.
- destruct s as [|c s']; [reflexivity|]. cbn [List.length] in H1, H2.
  apply IH; lia.
Qed.

Lemma finditer_fuel (p : Re.pattern) (s : str) (fuel : nat) :
  (List.length s < fuel)%nat -> Re.finditer_from fuel p s = Re.finditer p s.
Proof. intros H. unfold Re.finditer. apply finditer_from_enough; lia. Qed.

(** ** Trimming *)

Lemma dropwhile_split (p : ascii -> bool) (s : str) :
  exists pre, s = pre ++ dropwhile p s /\ forallb p pre = true.
Proof.
induction s as [|c s IH]; simpl.
- now exists [].
- destruct (p c) eqn:Hc.
  + destruct IH as (pre & E & Hpre). exists (c :: pre). simpl.
    rewrite Hc, Hpre. now rewrite <- E.
  + now exists [].
Qed.

Lemma dropwhile_ext (p q : ascii -> bool) (s : str) :
  (forall c, p c = q c) -> dropwhile p s = dropwhile q s.
Proof.
intros H. induction s as [|c s IH]; simpl; [reflexivity|].
now rewrite H, IH.
Qed.

Lemma dropwhile_no_leading (p : ascii -> bool) (s : str) :
  no_leading p (dropwhile p s).
Proof.
induction s as [|c s IH]; simpl; intros x r E.
- discriminate.
- destruct (p c) eqn:Hc.
  + now apply (IH x r).
  + now injection E as <- _.
Qed.

Lemma no_leading_rev (p : ascii -> bool) (s : str) :
  no_leading p s -> no_trailing p (rev s).
Proof.
intros H r c E. apply (f_equal (@rev ascii)) in E.
rewrite rev_involutive, rev_app_distr in E. simpl in E. now apply (H c (rev r)).
Qed.

Lemma forallb_rev (p : ascii -> bool) (s : str) :
  forallb p (rev s) = forallb p s.
Proof.
induction s as [|c s IH]; simpl; [reflexivity|].
rewrite forallb_app, IH. simpl. rewrite andb_true_r. apply andb_comm.
Qed.

(** Dropping at the end: what is removed is a run of [p], and what remains
    does not end in [p]. *)
Lemma rev_dropwhile_split (p : ascii -> bool) (s : str) :
  exists suf,
    s = rev (dropwhile p (rev s)) ++ suf /\ forallb p suf = true /\
    no_trailing p (rev (dropwhile p (rev s))).
Proof.
destruct (dropwhile_split p (rev s)) as (pre & E & Hpre).
exists (rev pre). repeat split.
- rewrite <- rev_app_distr, <- E. now rewrite rev_involutive.
- now rewrite forallb_rev.
- apply no_leading_rev, dropwhile_no_leading.
Qed.

Lemma no_leading_app (p : ascii -> bool) (s t : str) :
  no_leading p (s ++ t) -> s <> [] -> no_leading p s.
Proof.
intros H Hs c r E. subst s. now apply (H c (r ++ t)).
Qed.

(** [text.strip()] is [text] without a run of whitespace at each end, and
    has no whitespace left at either end. *)
Lemma strip_spec (text : str) :
  exists ws1 ws2,
    text = ws1 ++ strip text ++ ws2 /\
    forallb isspace ws1 = true /\ forallb isspace ws2 = true /\
    no_leading isspace (strip text) /\ no_trailing isspace (strip text).
Proof.
unfold strip, rstrip, lstrip.
destruct (dropwhile_split isspace text) as (ws1 & E1 & H1).
destruct (rev_dropwhile_split isspace (dropwhile isspace text))
  as (ws2 & E2 & H2 & Htrail).
exists ws1, ws2. repeat split; try assumption.
- now rewrite <- E2.
- pose proof (dropwhile_no_leading isspace text) as Hlead.
  rewrite E2 in Hlead.
  destruct (rev (dropwhile isspace (rev (dropwhile isspace text)))) as [|c r] eqn:E.
  + intros x y Hxy. discriminate.
  + apply (no_leading_app _ _ ws2 Hlead). discriminate.
Qed.

Lemma forallb_is_slash (s : str) :
  forallb is_slash s = true -> s = repeat "/"%char (List.length s).
Proof.
induction s as [|c s IH]; simpl; [reflexivity|].
intros H. apply andb_true_iff in H as [Hc Hs].
apply Ascii.eqb_eq in Hc. subst c. now rewrite <- IH.
Qed.

(** [name.rstrip(SLASH)] is [name] without its trailing slashes. *)
Lemma rstrip_slash_spec (s : str) :
  exists k,
    s = rstrip_chars (lit "/") s ++ repeat "/"%char k /\
    no_trailing is_slash (rstrip_chars (lit "/") s).
Proof.
unfold rstrip_chars.
assert (Hcls : forall t, dropwhile (fun c => existsb (Ascii.eqb c) (lit "/")) t
                         = dropwhile is_slash t).
{ intros t. apply dropwhile_ext. intros c. unfold is_slash. simpl.
  apply orb_false_r. }
destruct (rev_dropwhile_split is_slash s) as (suf & E & Hsuf & Htrail).
exists (List.length suf). rewrite Hcls. split; [|assumption].
now rewrite <- (forallb_is_slash suf Hsuf).
Qed.

Lemma startswith_prefix (p s : str) :
  startswith p s = true <-> exists r, s = p ++ r.
Proof.
revert s. induction p as [|a p IH]; intros s; simpl.
- split; [intros _; now exists s | reflexivity].
- destruct s as [|b s].
  + split; [discriminate | intros (r & E); discriminate].
  + rewrite andb_true_iff, Ascii.eqb_eq, IH. split.
    * intros (-> & r & ->). now exists r.
    * intros (r & E). injection E as -> ->. split; [reflexivity | now exists r].
Qed.

(** [href.endswith(p)] holds exactly when [href] is some text followed by
    [p]. *)
Lemma endswith_suffix (p s : str) :
  endswith p s = true <-> exists r, s = r ++ p.
Proof.
unfold endswith. rewrite startswith_prefix. split; intros (r & E).
- exists (rev r). apply (f_equal (@rev ascii)) in E.
  now rewrite rev_involutive, rev_app_distr, rev_involutive in E.
- exists (rev r). subst s. now rewrite rev_app_distr.
Qed.

(** ** One item of the frontier *)

Section ItemFacts.

Variable urljoin : str -> str -> str.
Variable _fetch_page : str -> fetch_result.

Lemma record_links_fold (depth : Z) (prefix : str) (links : list link) :
  forall results next_level,
    fold_left (record_link depth prefix) links (results, next_level) =
    (results ++ map (entry_of prefix) links,
     next_level ++ map (frontier_of depth prefix) (filter link_is_dir links)).
Proof.
induction links as [|[[name u] d] links IH]; intros results next_level;
  cbn [fold_left map filter].
- now rewrite !app_nil_r.
- unfold record_link at 2. unfold link_is_dir at 1. cbn [snd].
  destruct d; rewrite IH; cbn [map entry_of frontier_of];
    now rewrite <- ?app_assoc.
Qed.

Lemma kept_anchors_incl (anchors : list (list str)) :
  forall earlier m, In m (kept_anchors earlier anchors) -> In m anchors.
Proof.
induction anchors as [|a rest IH]; intros earlier m; cbn [kept_anchors].
- intros [].
- destruct (discarded earlier (Re.group 1 a)).
  + intros H. right. now apply (IH _ _ H).
  + intros [<- | H]; [now left | right; now apply (IH _ _ H)].
Qed.

Lemma parse_links_In (html base_url : str) (l : link) :
  In l (_parse_links urljoin html base_url) ->
  exists m, In m (Re.finditer LINK_RE html) /\ l = link_of urljoin base_url m.
Proof.
unfold _parse_links.
rewrite (parse_links_fold urljoin base_url _ [] [] []) by reflexivity.
cbn [app]. intros H. apply in_map_iff in H as (m & <- & Hm).
exists m. split; [now apply (kept_anchors_incl _ _ _ Hm) | reflexivity].
Qed.

(** The loop over the completed futures, when no fetch lets an exception
    through: every item adds its entries and its children, in the order the
    futures are yielded. *)
Lemma collect_ok (futures : list item) :
  forall results next_level,
    forallb (fun it => negb (crashes _fetch_page it)) futures = true ->
    collect urljoin _fetch_page futures (results, next_level) =
    inr (results ++ flat_map (item_entries urljoin _fetch_page) futures,
         next_level ++ flat_map (item_children urljoin _fetch_page) futures).
Proof.
induction futures as [|[[url depth] prefix] rest IH]; intros results next_level;
  cbn [forallb flat_map collect].
- intros _. now rewrite !app_nil_r.
- unfold crashes at 1, item_entries at 1,
    item_children at 1.
  unfold item_url, item_prefix, item_depth. cbn [fst snd].
  destruct (_fetch_page url) as [html|e].
  + intros H. rewrite record_links_fold, IH by exact H.
    now rewrite <- !app_assoc.
  + destruct (fetch_error e); [|discriminate].
    intros H. now rewrite IH by exact H.
Qed.

Lemma collect_inr (futures : list item) :
  forall st st',
    collect urljoin _fetch_page futures st = inr st' ->
    forallb (fun it => negb (crashes _fetch_page it)) futures = true.
Proof.
induction futures as [|[[url depth] prefix] rest IH]; intros st st';
  cbn [forallb collect]; [reflexivity|].
unfold crashes at 1. unfold item_url. cbn [fst].
destruct (_fetch_page url) as [html|e].
- intros H. now apply IH in H.
- destruct (fetch_error e); [|discriminate]. intros H. now apply IH in H.
Qed.

(** An exception leaves the loop only when the fetch of one of the futures
    raised it and the handler does not cover it. *)
Lemma collect_inl (futures : list item) :
  forall st e,
    collect urljoin _fetch_page futures st = inl e ->
    exists it, In it futures /\ _fetch_page (item_url it) = Raise e /\
               fetch_error e = false.
Proof.
induction futures as [|[[url depth] prefix] rest IH]; intros st e;
  cbn [collect]; [discriminate|].
destruct (_fetch_page url) as [html|e'] eqn:Hf.
- intros H. apply IH in H as (it & Hin & Hit). exists it. split; [now right | exact Hit].
- destruct (fetch_error e') eqn:He.
  + intros H. apply IH in H as (it & Hin & Hit). exists it. split; [now right | exact Hit].
  + intros [= <-]. exists (url, depth, prefix). split; [now left | now split].
Qed.


(** C5. For an item whose page was fetched, the loop records one entry per
    extracted link, with path [prefix + name + slash-if-directory] and the
    resolved URL, and adds one frontier item [(url, depth + 1, prefix + name
    + slash)] per directory link and for no other link.  Every link comes
    from an anchor of the page: it is a directory exactly when the href ends
    with a slash, its URL is the href resolved against the page URL, and its
    name is the anchor text without the whitespace around it and then
    without its trailing slashes. *)
Theorem entry_and_frontier_construction
  (url : str) (depth : Z) (prefix html : str)
  (results : list entry) (next_level : list item) :
  _fetch_page url = Page html ->
  collect urljoin _fetch_page [(url, depth, prefix)] (results, next_level) =
    inr (results ++ map (entry_of prefix) (_parse_links urljoin html url),
         next_level ++
         map (frontier_of depth prefix)
           (filter link_is_dir (_parse_links urljoin html url)))
  /\ forall l, In l (_parse_links urljoin html url) ->
       (exists m ws1 ws2 k,
          In m (Re.finditer LINK_RE html) /\
          (link_is_dir l = true <-> exists s, Re.group 1 m = s ++ lit "/") /\
          link_url l = urljoin url (Re.group 1 m) /\
          Re.group 2 m = ws1 ++ (link_name l ++ repeat "/"%char k) ++ ws2 /\
          forallb isspace ws1 = true /\ forallb isspace ws2 = true /\
          no_leading isspace (link_name l ++ repeat "/"%char k) /\
          no_trailing isspace (link_name l ++ repeat "/"%char k) /\
          no_trailing is_slash (link_name l))
       /\ entry_of prefix l =
            (if link_is_dir l then lit "d" else lit "f",
             prefix ++ link_name l ++ (if link_is_dir l then lit "/" else lit ""),
             link_url l)
       /\ frontier_of depth prefix l =
            (link_url l, (depth + 1)%Z, prefix ++ link_name l ++ lit "/").
Proof.
intros Hpage. split.
- cbn [collect]. rewrite Hpage. now rewrite record_links_fold.
- intros l Hl. split; [|destruct l as [[name u] d]; split; reflexivity].
  apply parse_links_In in Hl as (m & Hm & ->).
  unfold link_of, link_is_dir, link_url, link_name. cbn [fst snd].
  destruct (strip_spec (Re.group 2 m)) as (ws1 & ws2 & E & H1 & H2 & Hl & Ht).
  destruct (rstrip_slash_spec (strip (Re.group 2 m))) as (k & Ek & Hk).
  exists m, ws1, ws2, k. rewrite <- Ek.
  repeat split; try assumption.
  + intros H. now apply endswith_suffix.
  + intros H. now apply endswith_suffix.
Qed.

End ItemFacts.

(** ** The order on paths and the final sort *)

Lemma ascii_compare_N (x y : ascii) :
  Ascii.compare x y = N.compare (N_of_ascii x) (N_of_ascii y).
Proof. reflexivity. Qed.

Lemma str_ltb_irrefl (a : str) : str_ltb a a = false.
Proof.
induction a as [|x a IH]; simpl; [reflexivity|].
rewrite ascii_compare_N, N.compare_refl. exact IH.
Qed.



Lemma str_leb_refl (a : str) : str_leb a a = true.
Proof. unfold str_leb. now rewrite str_ltb_irrefl. Qed.




Lemma insert_by_path_perm (e : entry) (l : list entry) :
  Permutation (insert_by_path e l) (e :: l).
Proof.
induction l as [|x l IH]; simpl; [reflexivity|].
destruct (str_ltb (entry_path x) (entry_path e)); [|reflexivity].
rewrite IH. apply perm_swap.
Qed.

Lemma sort_by_path_perm (l : list entry) : Permutation (sort_by_path l) l.
Proof.
induction l as [|e l IH]; simpl; [reflexivity|].
rewrite insert_by_path_perm. now constructor.
Qed.




(** ** The loop over the levels *)

Lemma filter_permuted {V : Type} (keep : V -> bool) (xs ys : list V) :
  Permutation xs ys -> Permutation (filter keep xs) (filter keep ys).
Proof.
induction 1 as [|x l l' _ IH|x y l|l l' l'' _ IH1 _ IH2]; simpl.
- constructor.
- destruct (keep x); [now constructor | exact IH].
- destruct (keep x), (keep y); try reflexivity. apply perm_swap.
- now transitivity (filter keep l').
Qed.


Section LoopFacts.

Variable urljoin : str -> str -> str.
Variable _fetch_page : str -> fetch_result.
Variable as_completed : nat -> list item -> list item.
Variable max_depth : Z.

(** One turn of the loop: it is left when no item of the level is
    eligible, otherwise the eligible items are submitted and collected. *)
Lemma crawl_loop_done (fuel k : nat) (level : list item) (rs : list entry)
  (log : list item) :
  filter (eligible max_depth) level = [] ->
  crawl_loop urljoin _fetch_page as_completed (S fuel) max_depth k level rs log
  = Some (mkRun (Returned (sort_by_path rs)) log).
Proof.
intros Hfm. cbn [crawl_loop]. destruct level as [|it level']; [reflexivity|].
rewrite Hfm. now rewrite app_nil_r.
Qed.

Lemma crawl_loop_turn (fuel k : nat) (level : list item) (rs : list entry)
  (log : list item) :
  filter (eligible max_depth) level <> [] ->
  crawl_loop urljoin _fetch_page as_completed (S fuel) max_depth k level rs log
  = match collect urljoin _fetch_page
            (as_completed k (filter (eligible max_depth) level)) (rs, []) with
    | inl e =>
        Some (mkRun (Raised e) (log ++ filter (eligible max_depth) level))
    | inr (rs', nl) =>
        crawl_loop urljoin _fetch_page as_completed fuel max_depth (S k) nl rs'
          (log ++ filter (eligible max_depth) level)
    end.
Proof.
intros Hfm. cbn [crawl_loop].
destruct level as [|it level'] eqn:Elevel; [now destruct Hfm|].
rewrite <- Elevel in *. clear Elevel.
destruct (filter (eligible max_depth) level) as [|f fm]; [now destruct Hfm|].
reflexivity.
Qed.

(** A property of the loop state [(k, current_level, results, log)] that
    every completed turn keeps holds when the loop is left. *)
Lemma crawl_loop_end
  (Inv : nat -> list item -> list entry -> list item -> Prop) :
  (forall k level rs log rs' nl,
     Inv k level rs log ->
     collect urljoin _fetch_page
       (as_completed k (filter (eligible max_depth) level)) (rs, []) =
     inr (rs', nl) ->
     Inv (S k) nl rs' (log ++ filter (eligible max_depth) level)) ->
  forall fuel k level rs log r,
    Inv k level rs log ->
    crawl_loop urljoin _fetch_page as_completed fuel max_depth k level rs log
    = Some r ->
    exists k' level' rs' log',
      Inv k' level' rs' log' /\
      submitted r = log' ++ filter (eligible max_depth) level' /\
      ((filter (eligible max_depth) level' = [] /\
        outcome r = Returned (sort_by_path rs')) \/
       (exists e,
          collect urljoin _fetch_page
            (as_completed k' (filter (eligible max_depth) level')) (rs', [])
          = inl e /\ outcome r = Raised e)).
Proof.
intros Hstep. induction fuel as [|fuel IH]; intros k level rs log r HI;
  cbn [crawl_loop]; [discriminate|].
destruct level as [|it level'] eqn:Elevel.
- intros [= <-]. exists k, [], rs, log. cbn. rewrite app_nil_r. auto.
- rewrite <- Elevel in *. clear Elevel.
  destruct (filter (eligible max_depth) level) as [|f fm] eqn:Efm.
  + intros [= <-]. exists k, level, rs, log. rewrite Efm. cbn. auto.
  + rewrite <- Efm.
    destruct (collect urljoin _fetch_page
                (as_completed k (filter (eligible max_depth) level)) (rs, []))
      as [e|[rs' nl]] eqn:Ecol.
    * intros [= <-]. exists k, level, rs, log. cbn.
      split; [exact HI|]. split; [reflexivity|]. right. now exists e.
    * intros Hloop. apply (IH _ _ _ _ _ (Hstep _ _ _ _ _ _ HI Ecol) Hloop).
Qed.

Hypothesis as_completed_perm :
  forall k futures, Permutation (as_completed k futures) futures.

(** Every item of a frontier is at least as deep as the turn that handles
    it, so the loop ends within the turns it is given. *)
Lemma item_children_depth (it c : item) :
  In c (item_children urljoin _fetch_page it) ->
  item_depth c = (item_depth it + 1)%Z.
Proof.
unfold item_children. destruct (_fetch_page (item_url it)); [|intros []].
intros H. apply in_map_iff in H as ([[name u] d] & <- & _). reflexivity.
Qed.

Lemma crawl_loop_total (fuel : nat) :
  forall k level rs log d,
    Forall (fun it => (d <= item_depth it)%Z) level ->
    (Z.to_nat (max_depth - d) < fuel)%nat ->
    exists r,
      crawl_loop urljoin _fetch_page as_completed fuel max_depth k level rs log
      = Some r.
Proof.
induction fuel as [|fuel IH]; intros k level rs log d Hd Hfuel; [lia|].
cbn [crawl_loop].
destruct level as [|it level'] eqn:Elevel; [eauto|].
rewrite <- Elevel in *. clear Elevel.
destruct (filter (eligible max_depth) level) as [|f fm] eqn:Efm; [eauto|].
rewrite <- Efm.
destruct (collect urljoin _fetch_page
            (as_completed k (filter (eligible max_depth) level)) (rs, []))
  as [e|[rs' nl]] eqn:Ecol; [eauto|].
assert (Hf : In f (filter (eligible max_depth) level))
  by (rewrite Efm; now left).
apply filter_In in Hf as [Hfin Hfe].
rewrite Forall_forall in Hd. pose proof (Hd _ Hfin) as Hfd.
unfold eligible in Hfe. apply negb_true_iff, Z.leb_gt in Hfe.
apply (IH _ _ _ _ (d + 1)%Z); [|lia].
pose proof (collect_inr _ _ _ _ _ Ecol) as Hok.
rewrite (collect_ok _ _ _ _ _ Hok) in Ecol. injection Ecol as _ <-.
cbn [app]. apply Forall_forall. intros c Hc.
apply in_flat_map in Hc as (p & Hp & Hc).
apply item_children_depth in Hc. rewrite Hc.
apply (Permutation_in _ (as_completed_perm _ _)) in Hp.
apply filter_In in Hp as [Hp _]. specialize (Hd _ Hp). lia.
Qed.

End LoopFacts.

(** ** The crawl as a whole *)

Section CrawlFacts.

Variable urljoin : str -> str -> str.
Variable _fetch_page : str -> fetch_result.
Variable as_completed : nat -> list item -> list item.

Lemma crawl_directory_loop (root_url : str) (max_depth workers : Z) :
  (1 <= workers)%Z ->
  crawl_directory urljoin _fetch_page as_completed root_url max_depth workers =
  crawl_loop urljoin _fetch_page as_completed (S (Z.to_nat max_depth))
    max_depth 0 [root_item root_url] [] [].
Proof.
intros Hw. unfold crawl_directory, root_item, root_of.
destruct (workers <=? 0)%Z eqn:E; [apply Z.leb_le in E; lia | reflexivity].
Qed.

Hypothesis as_completed_perm :
  forall k futures, Permutation (as_completed k futures) futures.

Lemma crawl_directory_total (root_url : str) (max_depth workers : Z) :
  exists r,
    crawl_directory urljoin _fetch_page as_completed root_url max_depth workers
    = Some r.
Proof.
destruct (Z_le_gt_dec workers 0) as [Hw|Hw].
- unfold crawl_directory. apply Z.leb_le in Hw. rewrite Hw. eauto.
- rewrite crawl_directory_loop by lia.
  apply (crawl_loop_total _ _ _ _ as_completed_perm _ _ _ _ _ 0%Z).
  + repeat constructor. unfold root_item, item_depth. simpl. lia.
  + rewrite Z.sub_0_r. lia.
Qed.

(** What a finished crawl accounts for.  The submitted items were all
    eligible; a returned list is the sorted list of the entries of the
    submitted items, and the submitted items are the root and the children
    of the submitted items, as far as eligible, each one once; a raised
    exception is one that the fetch of a submitted item raised and that the
    handler does not cover. *)
Lemma crawl_accounts (root_url : str) (max_depth workers : Z) (r : run) :
  (1 <= workers)%Z ->
  crawl_directory urljoin _fetch_page as_completed root_url max_depth workers
  = Some r ->
  Forall (fun it => eligible max_depth it = true) (submitted r) /\
  match outcome r with
  | Returned l =>
      (exists rs, l = sort_by_path rs) /\
      Permutation l
        (flat_map (item_entries urljoin _fetch_page) (submitted r)) /\
      Permutation (submitted r)
        (filter (eligible max_depth)
           (root_item root_url ::
            flat_map (item_children urljoin _fetch_page) (submitted r)))
  | Raised e =>
      exists it, In it (submitted r) /\
                 _fetch_page (item_url it) = Raise e /\ fetch_error e = false
  end.
Proof.
intros Hw. rewrite crawl_directory_loop by exact Hw. intros Hloop.
pose (Inv := fun (k : nat) (level : list item) (rs : list entry)
                 (log : list item) =>
  Forall (fun it => eligible max_depth it = true) log /\
  Permutation rs (flat_map (item_entries urljoin _fetch_page) log) /\
  Permutation (log ++ filter (eligible max_depth) level)
    (filter (eligible max_depth)
       (root_item root_url ::
        flat_map (item_children urljoin _fetch_page) log))).
assert (Hstep : forall k level rs log rs' nl,
  Inv k level rs log ->
  collect urljoin _fetch_page
    (as_completed k (filter (eligible max_depth) level)) (rs, []) =
  inr (rs', nl) ->
  Inv (S k) nl rs' (log ++ filter (eligible max_depth) level)).
{ intros k level rs log rs1 nl (Hel & Hrs & Hlog) Hcol.
  pose proof (collect_inr _ _ _ _ _ Hcol) as Hok.
  rewrite (collect_ok _ _ _ _ _ Hok) in Hcol. injection Hcol as <- <-.
  cbn [app]. repeat split.
  + apply Forall_app. split; [exact Hel|].
    apply Forall_forall. intros x Hx. now apply filter_In in Hx.
  + rewrite flat_map_app. apply Permutation_app; [exact Hrs|].
    apply Permutation_flat_map, as_completed_perm.
  + rewrite flat_map_app, app_comm_cons, filter_app.
    apply Permutation_app; [exact Hlog|].
    apply filter_permuted, Permutation_flat_map, as_completed_perm. }
assert (Hinit : Inv 0%nat [root_item root_url] [] []).
{ repeat split; cbn; try constructor. reflexivity. }
destruct (crawl_loop_end _ _ _ _ Inv Hstep _ _ _ _ _ _ Hinit Hloop)
  as (k' & level' & rs' & log' & (Hel & Hrs & Hlog) & Hsub & Hout).
rewrite Hsub. split.
- apply Forall_app. split; [exact Hel|].
  apply Forall_forall. intros x Hx. now apply filter_In in Hx.
- destruct Hout as [[Hfm ->] | (e & Hcol & ->)].
  + rewrite Hfm, app_nil_r in *. repeat split.
    * now exists rs'.
    * now rewrite sort_by_path_perm.
    * exact Hlog.
  + apply collect_inl in Hcol as (it & Hin & Hit). exists it. split; [|exact Hit].
    apply in_or_app. right.
    now apply (Permutation_in _ (as_completed_perm _ _)) in Hin.
Qed.


(** The root is not eligible when the depth allowed is not positive. *)
Lemma crawl_root_not_eligible (root_url : str) (max_depth workers : Z) :
  (1 <= workers)%Z -> (max_depth <= 0)%Z ->
  crawl_directory urljoin _fetch_page as_completed root_url max_depth workers
  = Some (mkRun (Returned []) []).
Proof.
intros Hw Hd. rewrite crawl_directory_loop by exact Hw.
rewrite crawl_loop_done; [reflexivity|].
cbn [filter]. unfold eligible.
change (item_depth (root_item root_url)) with 0%Z.
apply Z.leb_le in Hd. now rewrite Hd.
Qed.

(** C10. With [workers >= 1] and [max_depth <= 0], negative values
    included, the call raises nothing, submits no fetch and returns the
    empty list. *)
Theorem crawl_nonpositive_depth (root_url : str) (max_depth workers : Z) :
  (1 <= workers)%Z -> (max_depth <= 0)%Z ->
  crawl_directory urljoin _fetch_page as_completed root_url max_depth workers
  = Some (mkRun (Returned []) []).
Proof.
intros Hw Hd. rewrite crawl_directory_loop by exact Hw.
cbn [crawl_loop filter]. unfold eligible, root_item, item_depth. cbn [fst snd].
apply Z.leb_le in Hd. rewrite Hd. reflexivity.
Qed.

Lemma frontier_not_eligible (max_depth depth : Z) (prefix : str)
  (links : list link) :
  (max_depth <= depth + 1)%Z ->
  filter (eligible max_depth) (map (frontier_of depth prefix) links) = [].
Proof.
intros Hd. induction links as [|[[name u] d] links IH]; [reflexivity|].
cbn [map filter]. unfold eligible at 1, frontier_of at 1, item_depth.
cbn [fst snd]. apply Z.leb_le in Hd. rewrite Hd. exact IH.
Qed.

Lemma eligible_depth (max_depth : Z) (it : item) :
  eligible max_depth it = true <-> (item_depth it < max_depth)%Z.
Proof. unfold eligible. rewrite negb_true_iff, Z.leb_gt. reflexivity. Qed.

Lemma crawl_depth_one (root_url : str) :
  exists r,
    crawl_loop urljoin _fetch_page as_completed 2 1 0 [root_item root_url] [] []
    = Some r /\
    submitted r = [root_item root_url] /\
    forall html,
      _fetch_page (root_of root_url) = Page html ->
      outcome r =
      Returned (sort_by_path
                  (map (entry_of (lit ""))
                     (_parse_links urljoin html (root_of root_url)))).
Proof.
assert (Hone : as_completed 0 [root_item root_url] = [root_item root_url]).
{ apply Permutation_length_1_inv, Permutation_sym, as_completed_perm. }
assert (Hfm : filter (eligible 1) [root_item root_url] = [root_item root_url])
  by reflexivity.
rewrite crawl_loop_turn by (rewrite Hfm; discriminate).
rewrite Hfm, Hone. unfold root_item at 1. cbn [collect app].
destruct (_fetch_page (root_of root_url)) as [html|e] eqn:Hf.
- rewrite record_links_fold. cbn [app].
  rewrite crawl_loop_done by (apply frontier_not_eligible; lia).
  eexists. split; [reflexivity|]. split; [reflexivity|].
  intros html' [= <-]. reflexivity.
- destruct (fetch_error e).
  + rewrite crawl_loop_done by reflexivity.
    eexists. split; [reflexivity|]. split; [reflexivity|]. discriminate.
  + eexists. split; [reflexivity|]. split; [reflexivity|]. discriminate.
Qed.

(** C2. [max_depth] bounds the expansions.  With [max_depth = 0] the
    result is empty and nothing is fetched.  In general no item at depth
    [max_depth] or deeper is ever submitted, while every link of every
    fetched page is recorded: a directory link found on a page at depth
    [max_depth - 1] or deeper is in the result as a directory, and is not
    fetched.  With [max_depth = 1] only the root page is fetched and the
    result holds the entries of its links and no other. *)
Theorem depth_bound (root_url : str) (max_depth workers : Z) :
  (1 <= workers)%Z ->
  crawl_directory urljoin _fetch_page as_completed root_url 0 workers
  = Some (mkRun (Returned []) [])
  /\ (exists r,
        crawl_directory urljoin _fetch_page as_completed root_url max_depth
          workers = Some r /\
        (forall it, In it (submitted r) -> (item_depth it < max_depth)%Z) /\
        (forall l it html lk,
           outcome r = Returned l ->
           In it (submitted r) ->
           _fetch_page (item_url it) = Page html ->
           In lk (_parse_links urljoin html (item_url it)) ->
           In (entry_of (item_prefix it) lk) l /\
           (link_is_dir lk = true ->
            (max_depth <= item_depth it + 1)%Z ->
            entry_kind (entry_of (item_prefix it) lk) = lit "d" /\
            ~ In (frontier_of (item_depth it) (item_prefix it) lk)
                (submitted r))))
  /\ (exists r,
        crawl_directory urljoin _fetch_page as_completed root_url 1 workers
        = Some r /\
        submitted r = [root_item root_url] /\
        forall html,
          _fetch_page (root_of root_url) = Page html ->
          outcome r =
          Returned (sort_by_path
                      (map (entry_of (lit ""))
                         (_parse_links urljoin html (root_of root_url))))).
Proof.
intros Hw. split; [|split].
- apply crawl_root_not_eligible; [exact Hw | lia].
- destruct (crawl_directory_total root_url max_depth workers) as (r & Hr).
  exists r. split; [exact Hr|].
  destruct (crawl_accounts _ _ _ _ Hw Hr) as (Hel & Hout).
  rewrite Forall_forall in Hel.
  assert (Hdepth : forall it, In it (submitted r) ->
                              (item_depth it < max_depth)%Z).
  { intros it Hit. now apply eligible_depth, Hel. }
  split; [exact Hdepth|].
  intros l it html lk Hl Hit Hpage Hlk. rewrite Hl in Hout.
  destruct Hout as (_ & Hperm & _). split.
  + apply (Permutation_in _ (Permutation_sym Hperm)).
    apply in_flat_map. exists it. split; [exact Hit|].
    unfold item_entries. rewrite Hpage. now apply in_map.
  + intros Hdir Hdeep. split.
    * destruct lk as [[name u] d]. unfold link_is_dir in Hdir. cbn in Hdir.
      subst d. reflexivity.
    * intros Hin. apply Hdepth in Hin.
      destruct lk as [[name u] d]. unfold frontier_of, item_depth in Hin.
      cbn [fst snd] in Hin. unfold item_depth in Hdeep. lia.
- rewrite crawl_directory_loop by exact Hw. apply crawl_depth_one.
Qed.



(** C6, as the code has it.  [crawl_directory] checks none of its
    arguments itself.  A worker count that is not positive makes the
    constructor of the pool raise [ValueError] before anything is submitted.
    A depth that is not positive is not an error: the empty list is returned
    and nothing is fetched.  An empty root URL is not refused either: it
    becomes the URL made of a slash, the one item submitted;
    [urllib.request.Request] raises [ValueError] on that URL, which names no
    scheme, before anything is sent, the handler does not cover it, and the
    call ends with it. *)
Theorem config_handling (root_url : str) (max_depth workers : Z) :
  ((workers <= 0)%Z ->
   crawl_directory urljoin _fetch_page as_completed root_url max_depth workers
   = Some (mkRun (Raised ValueError) []))
  /\ ((1 <= workers)%Z -> (max_depth <= 0)%Z ->
      crawl_directory urljoin _fetch_page as_completed root_url max_depth
        workers = Some (mkRun (Returned []) []))
  /\ ((1 <= workers)%Z -> (1 <= max_depth)%Z ->
      _fetch_page (lit "/") = Raise ValueError ->
      crawl_directory urljoin _fetch_page as_completed (lit "") max_depth
        workers = Some (mkRun (Raised ValueError) [(lit "/", 0%Z, lit "")])).
Proof.
split; [|split].
- intros Hw. unfold crawl_directory. apply Z.leb_le in Hw. now rewrite Hw.
- apply crawl_root_not_eligible.
- intros Hw Hd Hreq. rewrite crawl_directory_loop by exact Hw.
  assert (Hfm : filter (eligible max_depth) [root_item (lit "")]
                = [(lit "/", 0%Z, lit "")]).
  { change (root_item (lit "")) with (lit "/", 0%Z, lit "").
    cbn [filter]. unfold eligible, item_depth. cbn [fst snd].
    destruct (max_depth <=? 0)%Z eqn:E; [apply Z.leb_le in E; lia | reflexivity]. }
  rewrite crawl_loop_turn by (rewrite Hfm; discriminate).
  rewrite Hfm.
  assert (Hone : as_completed 0 [(lit "/", 0%Z, lit "")]
                 = [(lit "/", 0%Z, lit "")]).
  { apply Permutation_length_1_inv, Permutation_sym, as_completed_perm. }
  rewrite Hone. cbn [collect]. rewrite Hreq. reflexivity.
Qed.

End CrawlFacts.

(** ** Two completion orders *)

Section Determinism.

Variable urljoin : str -> str -> str.
Variable _fetch_page : str -> fetch_result.
Variables as_completed1 as_completed2 : nat -> list item -> list item.

Hypothesis as_completed1_perm :
  forall k futures, Permutation (as_completed1 k futures) futures.
Hypothesis as_completed2_perm :
  forall k futures, Permutation (as_completed2 k futures) futures.




End Determinism.

(** ** Trees of listings *)

Lemma NoDup_flat_map_disjoint {A B : Type} (g : A -> list B) (l : list A) :
  NoDup l ->
  (forall a, In a l -> NoDup (g a)) ->
  (forall a b x, In a l -> In b l -> In x (g a) -> In x (g b) -> a = b) ->
  NoDup (flat_map g l).
Proof.
induction 1 as [|a l Ha Hl IH]; intros Hg Hdis; cbn [flat_map].
- constructor.
- apply NoDup_app.
  + apply Hg. now left.
  + apply IH.
    * intros b Hb. apply Hg. now right.
    * intros b c x Hb Hc. apply Hdis; now right.
  + intros x Hx Hx'. apply in_flat_map in Hx' as (b & Hb & Hxb).
    assert (a = b) by (apply (Hdis a b x); [now left | now right | assumption..]).
    subst b. contradiction.
Qed.

Lemma NoDup_map_inv' {A B : Type} (f : A -> B) (l : list A) :
  NoDup (map f l) -> NoDup l.
Proof.
induction l as [|a l IH]; cbn [map]; intros H; [constructor|].
inversion H as [|? ? Ha Hl]; subst. constructor; [|now apply IH].
intros Hin. apply Ha. now apply in_map.
Qed.

Lemma filter_keeps_distinct_keys {K V : Type} (key : V -> K)
  (keep : V -> bool) :
  forall vs : list V,
    NoDup (map key vs) -> NoDup (map key (filter keep vs)).
Proof.
induction vs as [|v vs IH]; cbn [map filter]; intros Hnd; [constructor|].
inversion Hnd as [|? ? Hv Hvs]; subst.
destruct (keep v); [|now apply IH]. cbn [map]. constructor; [|now apply IH].
intros Hin. apply Hv. apply in_map_iff in Hin as (w & E & Hw).
apply filter_In in Hw as [Hw _]. rewrite <- E. now apply in_map.
Qed.

Section TreeFacts.

Variable urljoin : str -> str -> str.
Variable _fetch_page : str -> fetch_result.
Variable as_completed : nat -> list item -> list item.

Hypothesis as_completed_perm :
  forall k futures, Permutation (as_completed k futures) futures.

Lemma item_children_urls (it : item) :
  map item_url (item_children urljoin _fetch_page it) =
  page_dirs urljoin _fetch_page (item_url it).
Proof.
unfold item_children, page_dirs.
destruct (_fetch_page (item_url it)); [|reflexivity].
rewrite map_map. apply map_ext. now intros [[name u] d].
Qed.

Lemma map_flat_map {A B C : Type} (f : B -> C) (g : A -> list B) (l : list A) :
  map f (flat_map g l) = flat_map (fun a => map f (g a)) l.
Proof.
induction l as [|a l IH]; cbn [flat_map map]; [reflexivity|].
now rewrite map_app, IH.
Qed.

Section Below.

Variable root : str.

Hypothesis tree : listing_tree urljoin _fetch_page root.

(** In a tree a URL belongs to one generation only. *)
Lemma generation_unique (i : nat) :
  forall j u,
    generation urljoin _fetch_page root i u ->
    generation urljoin _fetch_page root j u -> i = j.
Proof.
destruct tree as (_ & Hone & Hroot).
induction i as [|i IH]; intros j u Hi Hj.
- inversion Hi; subst. inversion Hj as [|n p v Hp Hv]; subst; [reflexivity|].
  destruct (Hroot p (ex_intro _ n Hp) Hv).
- inversion Hi as [|n p v Hp Hv]; subst.
  inversion Hj as [|n' q v' Hq Hv']; subst;
    [destruct (Hroot p (ex_intro _ i Hp) Hv)|].
  f_equal. apply (IH _ p); [exact Hp|].
  now rewrite (Hone p q u (ex_intro _ i Hp) (ex_intro _ n' Hq) Hv Hv').
Qed.

(** The children of items below the root that have different URLs have
    different URLs. *)
Lemma children_urls_NoDup (futures : list item) :
  (forall it, In it futures ->
              below urljoin _fetch_page root (item_url it)) ->
  NoDup (map item_url futures) ->
  NoDup (map item_url (flat_map (item_children urljoin _fetch_page) futures)).
Proof.
destruct tree as (Hdirs & Hone & _). intros Hbelow Hnd.
rewrite map_flat_map. apply NoDup_flat_map_disjoint.
- now apply NoDup_map_inv' in Hnd.
- intros a Ha. rewrite item_children_urls. now apply Hdirs, Hbelow.
- intros a b x Ha Hb. rewrite !item_children_urls. intros Hxa Hxb.
  pose proof (Hone _ _ _ (Hbelow _ Ha) (Hbelow _ Hb) Hxa Hxb) as E.
  clear - Hnd Ha Hb E. induction futures as [|c l IH]; [destruct Ha|].
  cbn [map] in Hnd. inversion Hnd as [|? ? Hc Hl]; subst.
  destruct Ha as [-> | Ha], Hb as [-> | Hb]; try reflexivity.
  + exfalso. apply Hc. rewrite E. now apply in_map.
  + exfalso. apply Hc. rewrite <- E. now apply in_map.
  + now apply IH.
Qed.

End Below.

(** C8, as the code has it.  The crawl keeps no set of visited URLs: a URL
    is fetched once for each frontier item that carries it.  When the
    listings form a tree below the root (among the pages that directory
    links lead to from the root, a page lists a directory once, no directory
    is listed by two pages, no page lists the root), the URLs submitted to
    the fetcher over all the levels are all different. *)
Theorem single_fetch_in_tree (root_url : str) (max_depth workers : Z) :
  listing_tree urljoin _fetch_page (root_of root_url) ->
  exists r,
    crawl_directory urljoin _fetch_page as_completed root_url max_depth workers
    = Some r /\
    NoDup (map item_url (submitted r)).
Proof.
intros tree. set (root := root_of root_url) in *.
destruct (crawl_directory_total urljoin _fetch_page as_completed
            as_completed_perm root_url max_depth workers) as (r & Hr).
exists r. split; [exact Hr|].
destruct (Z_le_gt_dec workers 0) as [Hw|Hw].
{ unfold crawl_directory in Hr. apply Z.leb_le in Hw. rewrite Hw in Hr.
  injection Hr as <-. constructor. }
rewrite crawl_directory_loop in Hr by lia.
pose (Inv := fun (k : nat) (level : list item) (rs : list entry)
                 (log : list item) =>
  NoDup (map item_url level) /\
  (forall it, In it level ->
              generation urljoin _fetch_page root k (item_url it)) /\
  NoDup (map item_url log) /\
  (forall it, In it log ->
              exists j, (j < k)%nat /\
                        generation urljoin _fetch_page root j (item_url it))).
assert (Hlog : forall k level rs log,
  Inv k level rs log ->
  NoDup (map item_url (log ++ filter (eligible max_depth) level)) /\
  (forall it, In it (log ++ filter (eligible max_depth) level) ->
              exists j, (j < S k)%nat /\
                        generation urljoin _fetch_page root j (item_url it))).
{ intros k level rs log (Hlv & Hgen & Hlg & Hold). split.
  - rewrite map_app. apply NoDup_app.
    + exact Hlg.
    + now apply filter_keeps_distinct_keys.
    + intros x Hx Hx'.
      apply in_map_iff in Hx as (a & <- & Ha).
      apply in_map_iff in Hx' as (b & E & Hb).
      apply filter_In in Hb as [Hb _].
      destruct (Hold _ Ha) as (j & Hj & Hgj).
      pose proof (Hgen _ Hb) as Hgk. rewrite E in Hgk.
      pose proof (generation_unique root tree _ _ _ Hgj Hgk). lia.
  - intros it Hit. apply in_app_or in Hit as [Hit | Hit].
    + destruct (Hold _ Hit) as (j & Hj & Hgj). exists j. split; [lia | exact Hgj].
    + apply filter_In in Hit as [Hit _]. exists k. split; [lia | now apply Hgen]. }
assert (Hstep : forall k level rs log rs' nl,
  Inv k level rs log ->
  collect urljoin _fetch_page
    (as_completed k (filter (eligible max_depth) level)) (rs, []) =
  inr (rs', nl) ->
  Inv (S k) nl rs' (log ++ filter (eligible max_depth) level)).
{ intros k level rs log rs' nl HI Hcol.
  destruct (Hlog _ _ _ _ HI) as (Hnd & Hgens).
  destruct HI as (Hlv & Hgen & Hlg & Hold).
  pose proof (collect_inr _ _ _ _ _ Hcol) as Hok.
  rewrite (collect_ok _ _ _ _ _ Hok) in Hcol. injection Hcol as _ <-.
  cbn [app].
  assert (Hfuts : forall it,
            In it (as_completed k (filter (eligible max_depth) level)) ->
            In it level).
  { intros it Hit. apply (Permutation_in _ (as_completed_perm _ _)) in Hit.
    now apply filter_In in Hit. }
  repeat split; try assumption.
  - apply (children_urls_NoDup root tree).
    { intros it Hit. exists k. now apply Hgen, Hfuts. }
    apply (Permutation_NoDup
             (Permutation_map item_url
                (Permutation_sym (as_completed_perm k _)))).
    now apply filter_keeps_distinct_keys.
  - intros c Hc. apply in_flat_map in Hc as (p & Hp & Hc).
    apply (generation_child _ _ _ _ (item_url p)); [now apply Hgen, Hfuts|].
    rewrite <- item_children_urls. now apply in_map. }
assert (Hinit : Inv 0%nat [root_item root_url] [] []).
{ repeat split.
  - repeat constructor. intros [].
  - intros it [<- | []]. unfold root_item, item_url. cbn [fst]. constructor.
  - constructor.
  - intros it []. }
destruct (crawl_loop_end _ _ _ _ Inv Hstep _ _ _ _ _ _ Hinit Hr)
  as (k' & level' & rs' & log' & HI & Hsub & _).
rewrite Hsub. now apply (Hlog _ _ _ _ HI).
Qed.

End TreeFacts.

(** ** Paths *)

Lemma ends_slash_app (p l : str) (c : ascii) :
  ends_slash (p ++ l ++ [c]) -> c = "/"%char.
Proof.
intros [E | (q & E)].
- rewrite app_assoc in E. now apply app_eq_nil in E as [_ E].
- rewrite app_assoc in E. now apply app_inj_tail in E as [_ E].
Qed.

Lemma prefix_is_prefix (p1 p2 l n : str) :
  p1 = p2 ++ l -> ends_slash p1 -> slash_free (l ++ n) -> l = [].
Proof.
intros E Hp1 Hfree.
induction l as [|c l' _] using rev_ind; [reflexivity|].
rewrite E in Hp1. apply ends_slash_app in Hp1. subst c.
exfalso. apply Hfree. apply in_or_app. left. apply in_or_app. right. now left.
Qed.

(** A prefix and a name without slash are read back from their
    concatenation. *)
Lemma prefix_name_inj (p1 p2 n1 n2 : str) :
  ends_slash p1 -> ends_slash p2 -> slash_free n1 -> slash_free n2 ->
  p1 ++ n1 = p2 ++ n2 -> p1 = p2 /\ n1 = n2.
Proof.
intros H1 H2 F1 F2 E.
apply app_eq_app in E as (l & [[Ep En] | [Ep En]]).
- assert (l = []) by (apply (prefix_is_prefix p1 p2 l n1 Ep H1); now rewrite <- En).
  subst l. rewrite app_nil_r in Ep. now subst.
- assert (l = []) by (apply (prefix_is_prefix p2 p1 l n2 Ep H2); now rewrite <- En).
  subst l. rewrite app_nil_r in Ep. now subst.
Qed.

Lemma path_of_inj (p1 p2 n1 n2 : str) (d1 d2 : bool) :
  ends_slash p1 -> ends_slash p2 -> slash_free n1 -> slash_free n2 ->
  (d1 = false -> n1 <> []) -> (d2 = false -> n2 <> []) ->
  path_of p1 n1 d1 = path_of p2 n2 d2 ->
  p1 = p2 /\ n1 = n2 /\ d1 = d2.
Proof.
intros H1 H2 F1 F2 N1 N2. unfold path_of.
assert (Hmix : forall p n p' n',
          slash_free n' -> n' <> [] ->
          p ++ n ++ lit "/" = p' ++ n' ++ lit "" -> False).
{ intros p n p' n' F N E. rewrite app_nil_r in E.
  destruct (exists_last N) as (m & c & ->).
  rewrite !app_assoc in E. apply app_inj_tail in E as [_ <-].
  apply F. apply in_or_app. right. now left. }
destruct d1, d2; intros E.
- rewrite !app_assoc in E. apply app_inv_tail in E.
  destruct (prefix_name_inj _ _ _ _ H1 H2 F1 F2 E). auto.
- exfalso. apply (Hmix _ _ _ _ F2 (N2 eq_refl) E).
- exfalso. symmetry in E. apply (Hmix _ _ _ _ F1 (N1 eq_refl) E).
- rewrite !app_nil_r in E.
  destruct (prefix_name_inj _ _ _ _ H1 H2 F1 F2 E). auto.
Qed.

Lemma entry_of_path (prefix : str) (lk : link) :
  entry_path (entry_of prefix lk) =
  path_of prefix (link_name lk) (link_is_dir lk).
Proof. now destruct lk as [[name u] d]. Qed.

Lemma frontier_of_prefix (depth : Z) (prefix : str) (lk : link) :
  item_prefix (frontier_of depth prefix lk) = path_of prefix (link_name lk) true.
Proof. now destruct lk as [[name u] d]. Qed.

Lemma count_occ_slash_free (n : str) :
  slash_free n -> count_occ ascii_dec n "/"%char = 0%nat.
Proof. intros H. now apply count_occ_not_In. Qed.

Lemma NoDup_map_eq {A B : Type} (f : A -> B) (l : list A) (a b : A) :
  NoDup (map f l) -> In a l -> In b l -> f a = f b -> a = b.
Proof.
induction l as [|c l IH]; cbn [map]; intros H Ha Hb E; [destruct Ha|].
inversion H as [|? ? Hc Hl]; subst.
destruct Ha as [-> | Ha], Hb as [-> | Hb]; try reflexivity.
- exfalso. apply Hc. rewrite E. now apply in_map.
- exfalso. apply Hc. rewrite <- E. now apply in_map.
- now apply IH.
Qed.

Lemma NoDup_map_through {A B C : Type} (g : A -> B) (h : B -> C) (l : list A) :
  NoDup (map g l) ->
  (forall a b, In a l -> In b l -> h (g a) = h (g b) -> g a = g b) ->
  NoDup (map (fun a => h (g a)) l).
Proof.
induction l as [|a l IH]; cbn [map]; intros H Hinj; [constructor|].
inversion H as [|? ? Ha Hl]; subst. constructor.
- intros Hin. apply in_map_iff in Hin as (b & E & Hb).
  apply Ha. rewrite <- (Hinj b a); [now apply in_map | now right | now left | exact E].
- apply IH; [exact Hl|]. intros x y Hx Hy. apply Hinj; now right.
Qed.

Lemma made_at_inj (j k : nat) (path : str) :
  made_at j path -> made_at k path -> j = k.
Proof.
intros (p1 & n1 & d1 & E1 & (C1 & S1) & F1 & N1)
       (p2 & n2 & d2 & E2 & (C2 & S2) & F2 & N2).
rewrite E1 in E2.
destruct (path_of_inj _ _ _ _ _ _ S1 S2 F1 F2 N1 N2 E2) as (-> & _).
congruence.
Qed.

Section PathFacts.

Variable urljoin : str -> str -> str.
Variable _fetch_page : str -> fetch_result.
Variable as_completed : nat -> list item -> list item.

Hypothesis as_completed_perm :
  forall k futures, Permutation (as_completed k futures) futures.

Lemma item_entries_made (k : nat) (it : item) (e : entry) :
  page_names_ok urljoin _fetch_page it ->
  prefix_at k (item_prefix it) ->
  In e (item_entries urljoin _fetch_page it) ->
  exists n d,
    entry_path e = path_of (item_prefix it) n d /\ slash_free n /\
    (d = false -> n <> []).
Proof.
intros names Hp. unfold item_entries.
destruct (_fetch_page (item_url it)) as [html|] eqn:Hf; [|intros []].
intros He. apply in_map_iff in He as (lk & <- & Hlk).
destruct (names _ Hf) as (Hnames & _). destruct (Hnames _ Hlk) as (F & N).
exists (link_name lk), (link_is_dir lk). now rewrite entry_of_path.
Qed.

Lemma item_entries_NoDup (k : nat) (it : item) :
  page_names_ok urljoin _fetch_page it ->
  prefix_at k (item_prefix it) ->
  NoDup (map entry_path (item_entries urljoin _fetch_page it)).
Proof.
intros names (_ & Hp). unfold item_entries.
destruct (_fetch_page (item_url it)) as [html|] eqn:Hf; [|constructor].
destruct (names _ Hf) as (Hnames & Hnd).
rewrite map_map.
rewrite (map_ext _ (fun lk => path_of (item_prefix it) (fst (link_name lk, link_is_dir lk))
                                (snd (link_name lk, link_is_dir lk))))
  by (intros lk; apply entry_of_path).
apply (NoDup_map_through (fun lk => (link_name lk, link_is_dir lk))
         (fun nd => path_of (item_prefix it) (fst nd) (snd nd))); [exact Hnd|].
intros a b Ha Hb E. cbn [fst snd] in E.
destruct (Hnames _ Ha) as (Fa & Na). destruct (Hnames _ Hb) as (Fb & Nb).
destruct (path_of_inj _ _ _ _ _ _ Hp Hp Fa Fb Na Nb E) as (_ & -> & ->).
reflexivity.
Qed.

Lemma item_entries_prefix (k : nat) (a b : item) (x : str) :
  page_names_ok urljoin _fetch_page a ->
  page_names_ok urljoin _fetch_page b ->
  prefix_at k (item_prefix a) -> prefix_at k (item_prefix b) ->
  In x (map entry_path (item_entries urljoin _fetch_page a)) ->
  In x (map entry_path (item_entries urljoin _fetch_page b)) ->
  item_prefix a = item_prefix b.
Proof.
intros Ga Gb Ha Hb Hxa Hxb.
apply in_map_iff in Hxa as (ea & <- & Hea).
apply in_map_iff in Hxb as (eb & E & Heb).
destruct (item_entries_made _ _ _ Ga Ha Hea) as (na & da & Ea & Fa & Na).
destruct (item_entries_made _ _ _ Gb Hb Heb) as (nb & db & Eb & Fb & Nb).
rewrite Ea, Eb in E. destruct Ha as (_ & Sa), Hb as (_ & Sb).
now destruct (path_of_inj _ _ _ _ _ _ Sb Sa Fb Fa Nb Na E) as (-> & _).
Qed.

(** The prefixes of the children of an item are the paths of its
    directory entries. *)
Lemma item_children_prefixes (it : item) :
  map item_prefix (item_children urljoin _fetch_page it) =
  map entry_path
    (filter (fun e => str_eqb (entry_kind e) (lit "d"))
       (item_entries urljoin _fetch_page it)).
Proof.
unfold item_children, item_entries.
destruct (_fetch_page (item_url it)) as [html|]; [|reflexivity].
induction (_parse_links urljoin html (item_url it)) as [|[[n u] d] links IH];
  [reflexivity|].
cbn [filter map]. unfold link_is_dir at 1. cbn [snd].
destruct d; cbn [entry_of entry_kind fst snd filter map]; now rewrite IH.
Qed.

Lemma item_children_prefix_at (k : nat) (it c : item) :
  page_names_ok urljoin _fetch_page it ->
  prefix_at k (item_prefix it) ->
  In c (item_children urljoin _fetch_page it) ->
  prefix_at (S k) (item_prefix c).
Proof.
intros names (Hk & _). unfold item_children.
destruct (_fetch_page (item_url it)) as [html|] eqn:Hf; [|intros []].
intros Hc. apply in_map_iff in Hc as (lk & <- & Hlk).
apply filter_In in Hlk as [Hlk _].
destruct (names _ Hf) as (Hnames & _). destruct (Hnames _ Hlk) as (F & _).
rewrite frontier_of_prefix. unfold path_of. split.
- rewrite !count_occ_app, Hk, (count_occ_slash_free _ F). cbn. lia.
- right. exists (item_prefix it ++ link_name lk). now rewrite app_assoc.
Qed.

(** C7, as the code has it.  A path is the prefix chain followed by the
    anchor text, so two anchors of a page with the same text, or a text that
    holds a slash, can give one path twice.  When on every page that the
    crawl fetched the names hold no slash, the names of files are not empty
    and no two links of the same kind have the same name, the paths of the
    returned entries are all different. *)
Theorem paths_unique (root_url : str) (max_depth workers : Z) :
  exists r,
    crawl_directory urljoin _fetch_page as_completed root_url max_depth workers
    = Some r /\
    ((forall it, In it (submitted r) ->
                 page_names_ok urljoin _fetch_page it) ->
     forall l, outcome r = Returned l -> NoDup (map entry_path l)).
Proof.
destruct (crawl_directory_total urljoin _fetch_page as_completed
            as_completed_perm root_url max_depth workers) as (r & Hr).
exists r. split; [exact Hr|].
destruct (Z_le_gt_dec workers 0) as [Hw|Hw].
{ unfold crawl_directory in Hr. apply Z.leb_le in Hw. rewrite Hw in Hr.
  injection Hr as <-. discriminate. }
rewrite crawl_directory_loop in Hr by lia.
pose (Inv := fun (k : nat) (level : list item) (rs : list entry)
                 (log : list item) =>
  (forall it, In it log -> page_names_ok urljoin _fetch_page it) ->
  (forall it, In it level -> prefix_at k (item_prefix it)) /\
  NoDup (map item_prefix level) /\
  NoDup (map entry_path rs) /\
  (forall e, In e rs -> exists j, (j < k)%nat /\ made_at j (entry_path e))).
assert (Hstep : forall k level rs log rs' nl,
  Inv k level rs log ->
  collect urljoin _fetch_page
    (as_completed k (filter (eligible max_depth) level)) (rs, []) =
  inr (rs', nl) ->
  Inv (S k) nl rs' (log ++ filter (eligible max_depth) level)).
{ intros k level rs log rs' nl HI Hcol Hgood.
  destruct HI as (Hpre & Hnd & Hrs & Hold).
  { intros it Hit. apply Hgood, in_or_app. now left. }
  pose proof (collect_inr _ _ _ _ _ Hcol) as Hok.
  rewrite (collect_ok _ _ _ _ _ Hok) in Hcol. injection Hcol as <- <-.
  cbn [app].
  set (futs := as_completed k (filter (eligible max_depth) level)).
  assert (Hnames : forall it, In it futs ->
                              page_names_ok urljoin _fetch_page it).
  { intros it Hit. apply (Permutation_in _ (as_completed_perm _ _)) in Hit.
    apply Hgood, in_or_app. now right. }
  assert (Hfuts : forall it, In it futs -> prefix_at k (item_prefix it)).
  { intros it Hit. apply (Permutation_in _ (as_completed_perm _ _)) in Hit.
    apply filter_In in Hit as [Hit _]. now apply Hpre. }
  assert (Hfnd : NoDup (map item_prefix futs)).
  { apply (Permutation_NoDup
             (Permutation_map item_prefix
                (Permutation_sym (as_completed_perm k _)))).
    now apply filter_keeps_distinct_keys. }
  assert (Hmade : forall e, In e (flat_map (item_entries urljoin _fetch_page) futs) ->
                            made_at k (entry_path e)).
  { intros e He. apply in_flat_map in He as (it & Hit & He).
    destruct (item_entries_made _ _ _ (Hnames _ Hit) (Hfuts _ Hit) He)
      as (n & d & E & F & N).
    exists (item_prefix it), n, d. repeat split; try assumption; now apply Hfuts. }
  split; [|split; [|split]].
  - intros c Hc. apply in_flat_map in Hc as (it & Hit & Hc).
    now apply (item_children_prefix_at k it c (Hnames _ Hit) (Hfuts _ Hit)).
  - rewrite map_flat_map. apply NoDup_flat_map_disjoint.
    + now apply NoDup_map_inv' in Hfnd.
    + intros a Ha. rewrite item_children_prefixes.
      apply filter_keeps_distinct_keys, (item_entries_NoDup k);
        [now apply Hnames | now apply Hfuts].
    + intros a b x Ha Hb. rewrite !item_children_prefixes. intros Hxa Hxb.
      apply (NoDup_map_eq item_prefix futs a b Hfnd Ha Hb).
      apply (item_entries_prefix k a b x (Hnames _ Ha) (Hnames _ Hb)
               (Hfuts _ Ha) (Hfuts _ Hb)).
      * apply in_map_iff in Hxa as (e & E & He). apply filter_In in He as [He _].
        rewrite <- E. now apply in_map.
      * apply in_map_iff in Hxb as (e & E & He). apply filter_In in He as [He _].
        rewrite <- E. now apply in_map.
  - rewrite map_app. apply NoDup_app.
    + exact Hrs.
    + rewrite map_flat_map. apply NoDup_flat_map_disjoint.
      * now apply NoDup_map_inv' in Hfnd.
      * intros a Ha. apply (item_entries_NoDup k);
          [now apply Hnames | now apply Hfuts].
      * intros a b x Ha Hb Hxa Hxb.
        apply (NoDup_map_eq item_prefix futs a b Hfnd Ha Hb).
        now apply (item_entries_prefix k a b x (Hnames _ Ha) (Hnames _ Hb)
                     (Hfuts _ Ha) (Hfuts _ Hb)).
    + intros x Hx Hx'.
      apply in_map_iff in Hx as (e & <- & He).
      apply in_map_iff in Hx' as (e' & E & He').
      destruct (Hold _ He) as (j & Hj & Hmj).
      pose proof (Hmade _ He') as Hmk. rewrite E in Hmk.
      pose proof (made_at_inj _ _ _ Hmj Hmk). lia.
  - intros e He. apply in_app_or in He as [He | He].
    + destruct (Hold _ He) as (j & Hj & Hmj). exists j. split; [lia | exact Hmj].
    + exists k. split; [lia | now apply Hmade]. }
assert (Hinit : Inv 0%nat [root_item root_url] [] []).
{ intros _. split; [|split; [|split]].
  - intros it [<- | []]. split; [reflexivity | now left].
  - repeat constructor. intros [].
  - constructor.
  - intros e []. }
destruct (crawl_loop_end _ _ _ _ Inv Hstep _ _ _ _ _ _ Hinit Hr)
  as (k' & level' & rs' & log' & HI & Hsub & Hout).
intros Hgood l Hl. rewrite Hl in Hout.
destruct Hout as [[_ [= ->]] | (e & _ & [=])].
destruct HI as (_ & _ & Hnd & _).
{ intros it Hit. apply Hgood. rewrite Hsub. apply in_or_app. now left. }
apply (Permutation_NoDup
         (Permutation_map entry_path (Permutation_sym (sort_by_path_perm rs')))).
exact Hnd.
Qed.

End PathFacts.

(** ** The worker pool *)

Lemma perm_take {A : Type} (t : A) (q busy F : list A) :
  Permutation (q ++ (busy ++ [t]) ++ F) ((t :: q) ++ busy ++ F).
Proof.
cbn [app]. rewrite <- app_assoc. cbn [app].
rewrite !app_assoc. symmetry. apply Permutation_middle.
Qed.

Lemma perm_finish {A : Type} (t : A) (q b1 b2 F : list A) :
  Permutation (q ++ (b1 ++ b2) ++ F ++ [t]) (q ++ (b1 ++ t :: b2) ++ F).
Proof.
apply Permutation_app_head. rewrite <- !app_assoc. apply Permutation_app_head.
cbn [app]. transitivity (t :: b2 ++ F); [|reflexivity].
rewrite app_assoc. rewrite Permutation_app_comm. reflexivity.
Qed.

Lemma barrier_finish (tr : list event) (t : task) :
  barrier tr -> barrier (tr ++ [Finish t]).
Proof.
intros Hbar before t0 after t' E Hlt Hin.
induction after as [|x after' _] using rev_ind.
- apply app_inj_tail in E as [_ E]. discriminate.
- rewrite app_comm_cons, app_assoc in E. apply app_inj_tail in E as [E _].
  apply (Hbar before t0 after' t' E Hlt).
  apply in_app_or in Hin as [Hin | [Hin | []]]; [exact Hin | discriminate].
Qed.

Lemma barrier_start (tr : list event) (t : task) :
  barrier tr ->
  (forall t', In (Start t') tr -> (task_depth t' <= task_depth t)%Z) ->
  (forall t', In (Start t') tr -> (task_depth t' < task_depth t)%Z ->
              In (Finish t') tr) ->
  barrier (tr ++ [Start t]).
Proof.
intros Hbar Hle Hfin before t0 after t' E Hlt Hin.
induction after as [|x after' _] using rev_ind.
- apply app_inj_tail in E as [<- [= <-]].
  apply in_app_or in Hin as [Hin | [[= ->] | []]]; [now apply Hfin | lia].
- rewrite app_comm_cons, app_assoc in E. apply app_inj_tail in E as [E _].
  apply in_app_or in Hin as [Hin | [[= ->] | []]].
  + now apply (Hbar before t0 after' t' E Hlt).
  + assert (Ht0 : In (Start t0) tr)
      by (rewrite E; apply in_or_app; right; now left).
    apply Hle in Ht0. lia.
Qed.

Lemma NoDup_app_disjoint {A : Type} (a b c : list A) (x : A) :
  NoDup (a ++ b ++ c) -> In x c -> In x (a ++ b) -> False.
Proof.
rewrite app_assoc. intros Hnd Hc Hab.
induction (a ++ b) as [|y l IH]; [destruct Hab|].
cbn [app] in Hnd. inversion Hnd as [|? ? Hy Hl]; subst.
destruct Hab as [-> | Hab]; [|now apply IH].
apply Hy. apply in_or_app. now right.
Qed.

Section PoolFacts.

Variable urljoin : str -> str -> str.
Variable _fetch_page : str -> fetch_result.
Variable max_depth workers : Z.

Lemma threads_ok_step (s s' : state) :
  step urljoin _fetch_page max_depth workers s s' ->
  threads_ok workers s -> threads_ok workers s'.
Proof.
unfold threads_ok.
intros Hstep. destruct Hstep; cbn [running threads]; intros (Hrun & Hth);
  try (split; assumption).
- (* submit *)
  unfold adjust_thread_count. destruct idl as [|idl']; cbn [fst snd].
  + destruct (Z.of_nat th <? workers)%Z eqn:E; cbn [fst snd].
    * apply Z.ltb_lt in E. split; [lia|]. right. lia.
    * now split.
  + now split.
- (* take *)
  rewrite length_app. cbn [List.length]. split; [lia | exact Hth].
- (* finish *)
  rewrite length_app in *. cbn [List.length] in Hrun. split; [lia | exact Hth].
Qed.

Lemma futures_ok_step (s s' : state) :
  step urljoin _fetch_page max_depth workers s s' ->
  futures_ok s -> futures_ok s'.
Proof.
unfold futures_ok.
intros Hstep. destruct Hstep;
  cbn [work_queue running finished next_future]; intros (Hnd & Hid);
  try (split; assumption).
- (* submit *)
  assert (Hp : Permutation ((q ++ [(n, it)]) ++ busy ++ map fst fin)
                 ((n, it) :: q ++ busy ++ map fst fin)).
  { rewrite <- app_assoc. cbn [app]. symmetry. apply Permutation_middle. }
  split.
  + apply (Permutation_NoDup (Permutation_sym Hp)). constructor; [|exact Hnd].
    intros Hin. apply Hid in Hin. cbn in Hin. lia.
  + intros t Ht. apply (Permutation_in _ Hp) in Ht as [<- | Ht]; [cbn; lia|].
    apply Hid in Ht. lia.
- (* take *)
  pose proof (perm_take t q busy (map fst fin)) as Hp.
  split.
  + apply (Permutation_NoDup (Permutation_sym Hp)), Hnd.
  + intros x Hx. apply Hid. now apply (Permutation_in _ Hp).
- (* finish *)
  rewrite map_app. cbn [map fst].
  pose proof (perm_finish t q busy1 busy2 (map fst fin)) as Hp.
  split.
  + apply (Permutation_NoDup (Permutation_sym Hp)), Hnd.
  + intros x Hx. apply Hid. now apply (Permutation_in _ Hp).
Qed.

Lemma level_ok_step (d : Z) (s s' : state) :
  step urljoin _fetch_page max_depth workers s s' ->
  futures_ok s -> level_ok d s -> exists d', level_ok d' s'.
Proof.
unfold futures_ok, level_ok.
intros Hstep. destruct Hstep;
  cbn [main unyielded next_level work_queue running finished trace];
  intros (Hnd & _) (Hmain & Hfm & Hq & Hle & Hlt & Hrun & Hbar).
- (* skip *)
  exists d. repeat split; try assumption. intros x Hx. apply Hmain. now right.
- (* submit *)
  exists d. repeat split; try assumption.
  + intros x Hx. apply Hmain. now right.
  + intros t Ht. apply in_app_or in Ht as [Ht | [<- | []]]; [now apply Hfm|].
    apply Hmain. now left.
  + intros t Ht. apply in_or_app. rewrite <- app_assoc in Ht.
    apply in_app_or in Ht as [Ht | Ht].
    * left. apply Hq. apply in_or_app. now left.
    * cbn [app] in Ht. destruct Ht as [<- | Ht]; [right; now left|].
      left. apply Hq. apply in_or_app. now right.
- (* break *)
  exists d. repeat split; assumption.
- (* wait *)
  exists d. repeat split; try assumption. intros x [].
- (* take *)
  assert (Hd : task_depth t = d).
  { apply Hfm, Hq. now left. }
  exists d. repeat split.
  + exact Hmain.
  + exact Hfm.
  + intros x Hx. apply Hq. rewrite app_assoc in Hx.
    apply in_app_or in Hx as [Hx | [<- | []]]; [now right | now left].
  + intros x Hx. apply in_app_or in Hx as [Hx | [[= ->] | []]];
      [now apply Hle | lia].
  + intros x Hx Hxd. apply in_or_app. left.
    apply in_app_or in Hx as [Hx | [[= ->] | []]]; [now apply Hlt | lia].
  + intros x Hx. apply in_app_or in Hx as [Hx | [[= ->] | []]].
    * destruct (Hrun _ Hx) as [Hf | Hr].
      -- left. apply in_or_app. now left.
      -- right. apply in_or_app. now left.
    * right. apply in_or_app. right. now left.
  + apply barrier_start; [exact Hbar| |].
    * intros x Hx. rewrite Hd. now apply Hle.
    * intros x Hx. rewrite Hd. now apply Hlt.
- (* finish *)
  exists d. repeat split.
  + exact Hmain.
  + exact Hfm.
  + intros x Hx. apply Hq. apply in_or_app.
    apply in_app_or in Hx as [Hx | Hx]; [now left | right].
    apply in_or_app. apply in_app_or in Hx as [Hx | Hx]; [now left | right; now right].
  + intros x Hx. apply in_app_or in Hx as [Hx | [[=] | []]]. now apply Hle.
  + intros x Hx Hxd. apply in_or_app. left.
    apply in_app_or in Hx as [Hx | [[=] | []]]. now apply Hlt.
  + intros x Hx. apply in_app_or in Hx as [Hx | [[=] | []]].
    destruct (Hrun _ Hx) as [Hf | Hr].
    * left. apply in_or_app. now left.
    * apply in_app_or in Hr as [Hr | [<- | Hr]].
      -- right. apply in_or_app. now left.
      -- left. apply in_or_app. right. now left.
      -- right. apply in_or_app. now right.
  + now apply barrier_finish.
- (* page *)
  rewrite record_links_fold. cbn [fst snd].
  assert (Hd : task_depth t = d).
  { apply Hfm. apply in_or_app. right. now left. }
  exists d. repeat split; try assumption.
  + intros x Hx. apply in_app_or in Hx as [Hx | Hx]; [now apply Hmain|].
    apply in_map_iff in Hx as ([[name u] dir] & <- & _).
    unfold frontier_of, item_depth. cbn [fst snd].
    unfold task_depth, item_depth in Hd. now rewrite Hd.
  + intros x Hx. apply Hfm. apply in_or_app.
    apply in_app_or in Hx as [Hx | Hx]; [now left | right; now right].
  + intros x Hx. pose proof (Hq _ Hx) as Hin.
    apply in_or_app. apply in_app_or in Hin as [Hin | [<- | Hin]];
      [now left | | now right].
    exfalso. apply (NoDup_app_disjoint _ _ _ t Hnd); [|exact Hx].
    apply in_map_iff. now exists (t, Page html).
- (* handled *)
  exists d. repeat split; try assumption.
  + intros x Hx. apply Hfm. apply in_or_app.
    apply in_app_or in Hx as [Hx | Hx]; [now left | right; now right].
  + intros x Hx. pose proof (Hq _ Hx) as Hin.
    apply in_or_app. apply in_app_or in Hin as [Hin | [<- | Hin]];
      [now left | | now right].
    exfalso. apply (NoDup_app_disjoint _ _ _ t Hnd); [|exact Hx].
    apply in_map_iff. now exists (t, Raise e).
- (* raise *)
  exists d. repeat split; assumption.
- (* next *)
  exists (d + 1)%Z. repeat split; try assumption.
  + intros x [].
  + intros x Hx. apply Hle in Hx. lia.
  + intros x Hx _. destruct (Hrun _ Hx) as [Hf | Hr]; [exact Hf|].
    exfalso. apply (Hq x). apply in_or_app. now right.
- (* done *)
  exists d. repeat split; assumption.
Qed.

Lemma reachable_ok (root_url : str) (s : state) :
  reachable urljoin _fetch_page max_depth workers root_url s ->
  threads_ok workers s /\ futures_ok s /\ exists d, level_ok d s.
Proof.
induction 1 as [|s s' _ (Hth & Hfut & d & Hlvl) Hstep].
- unfold init. split; [|split].
  + split; cbn; [lia | now left].
  + split; cbn; [constructor | intros t []].
  + exists 0%Z. unfold level_ok.
    cbn [main unyielded next_level work_queue running trace app].
    split; [|split; [|split; [|split; [|split; [|split]]]]];
      try solve [intros t []].
    * destruct (workers <=? 0)%Z; [exact I|]. intros it [<- | []]. reflexivity.
    * intros before t after t' E. now destruct before.
- split; [|split].
  + now apply (threads_ok_step _ _ Hstep).
  + now apply (futures_ok_step _ _ Hstep).
  + now apply (level_ok_step d _ _ Hstep).
Qed.

(** C9. With a worker count of at least one, in every state that a call
    can reach the number of fetches in flight is at most the worker count,
    however many items the level has; and whenever a fetch starts, every
    fetch of a smaller depth that is ever started has already finished. *)
Theorem pool_bound_and_barrier (root_url : str) (s : state) :
  (1 <= workers)%Z ->
  reachable urljoin _fetch_page max_depth workers root_url s ->
  (Z.of_nat (in_flight s) <= workers)%Z /\ barrier (trace s).
Proof.
intros Hw Hreach.
destruct (reachable_ok _ _ Hreach) as ((Hrun & Hth) & _ & d & Hlvl).
split.
- unfold in_flight. destruct Hth as [Hth | Hth]; lia.
- apply Hlvl.
Qed.

Lemma nth_error_cut {A : Type} (l : list A) :
  forall i t,
    nth_error l i = Some t -> l = firstn i l ++ t :: skipn (S i) l.
Proof.
induction l as [|a l IH]; intros [|i] t; cbn [nth_error]; try discriminate.
- now intros [= ->].
- intros H. cbn [firstn skipn app]. f_equal. now apply IH.
Qed.

(** Every move that [perform] makes is a step of the pool. *)
Lemma perform_step (s s' : state) (m : move) :
  perform urljoin _fetch_page max_depth workers s m = Some s' ->
  step urljoin _fetch_page max_depth workers s s'.
Proof.
destruct s as [ph fm rs nl q busy th idl fin n tr].
destruct m as [| |i|i]; cbn [perform].
- destruct ph as [[|it todo]| |r]; [| | |discriminate].
  + destruct fm; intros [= <-]; constructor.
  + destruct (eligible max_depth it) eqn:E; intros [= <-]; now constructor.
  + destruct fm; [|discriminate]. destruct nl; intros [= <-]; constructor.
- destruct q as [|t q']; [discriminate|].
  destruct (List.length busy <? th)%nat eqn:E; [|discriminate].
  intros [= <-]. constructor. now apply Nat.ltb_lt.
- destruct (nth_error busy i) as [t|] eqn:E; [|discriminate].
  apply nth_error_cut in E.
  set (b1 := firstn i busy) in *. set (b2 := skipn (S i) busy) in *.
  clearbody b1 b2. subst busy. intros [= <-]. apply step_finish.
- destruct ph; try discriminate.
  destruct (nth_error fm i) as [t|] eqn:E; [|discriminate].
  apply nth_error_cut in E.
  set (f1 := firstn i fm) in *. set (f2 := skipn (S i) fm) in *.
  clearbody f1 f2.
  destruct (find _ fin) as [[t' res]|] eqn:F; [|discriminate].
  apply find_some in F as (Hin & Ht). cbn [fst] in Ht.
  destruct (task_eq_dec t' t) as [->|]; [|discriminate].
  destruct res as [html|e].
  + subst fm. intros [= <-]. now apply step_page.
  + subst fm. destruct (fetch_error e) eqn:He; intros [= <-].
    * now apply (step_handled _ _ _ _ _ _ _ _ _ _ _ _ _ _ _ _ e).
    * now apply step_raise.
Qed.

Lemma perform_all_reachable (root_url : str) (schedule : list move) :
  forall s s',
    reachable urljoin _fetch_page max_depth workers root_url s ->
    perform_all urljoin _fetch_page max_depth workers s schedule = Some s' ->
    reachable urljoin _fetch_page max_depth workers root_url s'.
Proof.
induction schedule as [|m schedule IH]; intros s s' Hs; cbn [perform_all].
- now intros [= <-].
- destruct (perform urljoin _fetch_page max_depth workers s m) as [s1|] eqn:E;
    [|discriminate].
  apply IH. apply (reach_step _ _ _ _ _ s); [exact Hs|].
  now apply (perform_step _ _ m).
Qed.

End PoolFacts.

(** ** The pool against the loop *)

Section Refinement.

Variable urljoin : str -> str -> str.
Variable _fetch_page : str -> fetch_result.
Variable max_depth workers : Z.
Variable root_url : str.

Lemma collect_app (a b : list item) :
  forall st,
    collect urljoin _fetch_page (a ++ b) st =
    match collect urljoin _fetch_page a st with
    | inl e => inl e
    | inr st' => collect urljoin _fetch_page b st'
    end.
Proof.
induction a as [|[[url depth] prefix] a IH]; intros st; cbn [app collect];
  [reflexivity|].
destruct (_fetch_page url) as [html|e]; [apply IH|].
destruct (fetch_error e); [apply IH | reflexivity].
Qed.

(** More turns than needed change nothing. *)
Lemma crawl_loop_fuel (ac : nat -> list item -> list item) (fuel : nat) :
  forall fuel' k level rs log r,
    crawl_loop urljoin _fetch_page ac fuel max_depth k level rs log = Some r ->
    (fuel <= fuel')%nat ->
    crawl_loop urljoin _fetch_page ac fuel' max_depth k level rs log = Some r.
Proof.
induction fuel as [|fuel IH]; intros fuel' k level rs log r; [discriminate|].
intros Hr Hle. destruct fuel' as [|fuel']; [lia|].
destruct (filter (eligible max_depth) level) as [|f fm] eqn:Efm.
- rewrite crawl_loop_done in * by exact Efm. exact Hr.
- rewrite crawl_loop_turn in * by (rewrite Efm; discriminate).
  destruct (collect urljoin _fetch_page
              (ac k (filter (eligible max_depth) level)) (rs, []))
    as [e|[rs' nl]]; [exact Hr|].
  apply IH; [exact Hr | lia].
Qed.

Lemma agrees_app_l (ac : nat -> list item -> list item) (h : history)
  (x : list item * list item) :
  agrees ac (h ++ [x]) -> agrees ac h.
Proof.
intros H k fs ys E. apply H. rewrite nth_error_app1; [exact E|].
apply nth_error_Some. congruence.
Qed.

Lemma agrees_last (ac : nat -> list item -> list item) (h : history)
  (fs ys : list item) :
  agrees ac (h ++ [(fs, ys)]) -> ac (List.length h) fs = ys.
Proof.
intros H. apply H. rewrite nth_error_app2 by lia.
now rewrite Nat.sub_diag.
Qed.

Lemma replay_agrees (h : history) : agrees (replay h) h.
Proof.
intros k fs ys E. unfold replay. rewrite E.
destruct (list_eq_dec item_eq_dec fs fs); congruence.
Qed.

Lemma replay_perm (h : history) :
  history_ok h -> forall k futures, Permutation (replay h k futures) futures.
Proof.
intros Hh k futures. unfold replay.
destruct (nth_error h k) as [[fs ys]|] eqn:E; [|reflexivity].
destruct (list_eq_dec item_eq_dec futures fs) as [->|]; [|reflexivity].
unfold history_ok in Hh. rewrite Forall_forall in Hh.
apply (Hh (fs, ys)). now apply nth_error_In in E.
Qed.

(** A finished level moves the loop one turn on. *)
Lemma at_turn_next (h : history) (level : list item) (rs0 : list entry)
  (log ys : list item) (rs' : list entry) (nl : list item) :
  at_turn urljoin _fetch_page max_depth root_url h level rs0 log ->
  filter (eligible max_depth) level <> [] ->
  collect urljoin _fetch_page ys (rs0, []) = inr (rs', nl) ->
  at_turn urljoin _fetch_page max_depth root_url
    (h ++ [(filter (eligible max_depth) level, ys)]) nl rs'
    (log ++ filter (eligible max_depth) level).
Proof.
intros Hat Hne Hcol ac fuel Hac.
rewrite length_app. cbn [List.length].
replace (List.length h + 1 + fuel)%nat with (List.length h + S fuel)%nat by lia.
rewrite (Hat ac (S fuel) (agrees_app_l _ _ _ Hac)).
rewrite crawl_loop_turn by exact Hne.
rewrite (agrees_last _ _ _ _ Hac), Hcol.
now replace (List.length h + 1)%nat with (S (List.length h)) by lia.
Qed.

Lemma finished_ok_step (s s' : state) :
  step urljoin _fetch_page max_depth workers s s' ->
  finished_ok _fetch_page s -> finished_ok _fetch_page s'.
Proof.
unfold finished_ok. intros Hstep. destruct Hstep; cbn [finished]; intros Hfin;
  try exact Hfin.
intros x r Hx. apply in_app_or in Hx as [Hx | [[= <- <-] | []]];
  [now apply Hfin | reflexivity].
Qed.

Lemma simulates_step (s s' : state) :
  step urljoin _fetch_page max_depth workers s s' ->
  finished_ok _fetch_page s ->
  simulates urljoin _fetch_page max_depth root_url s ->
  simulates urljoin _fetch_page max_depth root_url s'.
Proof.
unfold simulates, finished_ok.
intros Hstep. destruct Hstep;
  cbn [main unyielded results next_level finished];
  intros Hfin (h & level & rs0 & log & Hh & Hmain).
- (* skip *)
  destruct Hmain as (Hat & done & -> & Efm & Ers).
  exists h, (done ++ it :: todo), rs0, log. split; [exact Hh|].
  split; [exact Hat|]. exists (done ++ [it]). rewrite <- app_assoc.
  split; [reflexivity|]. split; [|exact Ers].
  rewrite filter_app. cbn [filter]. rewrite H. now rewrite app_nil_r.
- (* submit *)
  destruct Hmain as (Hat & done & -> & Efm & Ers).
  exists h, (done ++ it :: todo), rs0, log. split; [exact Hh|].
  split; [exact Hat|]. exists (done ++ [it]). rewrite <- app_assoc.
  split; [reflexivity|]. split; [|exact Ers].
  rewrite map_app, filter_app. cbn [filter map snd]. rewrite H.
  f_equal. exact Efm.
- (* break *)
  destruct Hmain as (Hat & done & -> & Efm & Ers).
  exists h, (done ++ []), rs0, log. split; [exact Hh|].
  intros ac fuel Hac. rewrite (Hat ac (S fuel) Hac).
  rewrite crawl_loop_done; [now rewrite Ers|].
  rewrite app_nil_r. now rewrite <- Efm.
- (* wait *)
  destruct Hmain as (Hat & done & -> & Efm & Ers).
  exists h, (done ++ []), rs0, log. split; [exact Hh|].
  split; [exact Hat|]. exists []. rewrite app_nil_r, <- Efm.
  split; [reflexivity|]. split; [discriminate|]. now rewrite Ers.
- (* take *)
  exists h, level, rs0, log. split; [exact Hh | exact Hmain].
- (* finish *)
  exists h, level, rs0, log. split; [exact Hh | exact Hmain].
- (* page *)
  destruct Hmain as (Hat & ys & Hperm & Hne & Hcol).
  exists h, level, rs0, log. split; [exact Hh|]. split; [exact Hat|].
  exists (ys ++ [snd t]). split; [|split; [exact Hne|]].
  + rewrite <- Hperm, map_app, map_app, <- app_assoc.
    apply Permutation_app_head. cbn [app map]. apply Permutation_middle.
  + rewrite collect_app, Hcol. pose proof (Hfin _ _ H) as Hpage.
    destruct t as [j [[u d] p]]. cbn [snd fst item_url item_depth item_prefix] in *.
    cbn [collect]. rewrite <- Hpage.
    now destruct (fold_left (record_link d p) (_parse_links urljoin html u) (rs, nl)).
- (* handled *)
  destruct Hmain as (Hat & ys & Hperm & Hne & Hcol).
  exists h, level, rs0, log. split; [exact Hh|]. split; [exact Hat|].
  exists (ys ++ [snd t]). split; [|split; [exact Hne|]].
  + rewrite <- Hperm, map_app, map_app, <- app_assoc.
    apply Permutation_app_head. cbn [app map]. apply Permutation_middle.
  + rewrite collect_app, Hcol. pose proof (Hfin _ _ H) as Hraise.
    destruct t as [j [[u d] p]]. cbn [snd fst item_url] in *.
    cbn [collect]. now rewrite <- Hraise, H0.
- (* raise *)
  destruct Hmain as (Hat & ys & Hperm & Hne & Hcol).
  exists (h ++ [(filter (eligible max_depth) level,
                 ys ++ snd t :: map snd (fm1 ++ fm2))]),
    level, rs0, (log ++ filter (eligible max_depth) level).
  split.
  + apply Forall_app. split; [exact Hh|]. repeat constructor. cbn [fst snd].
    rewrite <- Hperm, !map_app. apply Permutation_app_head.
    cbn [map]. apply Permutation_middle.
  + intros ac fuel Hac. rewrite length_app. cbn [List.length].
    replace (List.length h + 1 + S fuel)%nat
      with (List.length h + S (S fuel))%nat by lia.
    rewrite (Hat ac _ (agrees_app_l _ _ _ Hac)).
    rewrite crawl_loop_turn by exact Hne.
    rewrite (agrees_last _ _ _ _ Hac), collect_app, Hcol.
    pose proof (Hfin _ _ H) as Hraise.
    destruct t as [j [[u d] p]]. cbn [snd fst item_url] in *.
    cbn [collect]. now rewrite <- Hraise, H0.
- (* next *)
  destruct Hmain as (Hat & ys & Hperm & Hne & Hcol).
  cbn [map] in Hperm. rewrite app_nil_r in Hperm.
  exists (h ++ [(filter (eligible max_depth) level, ys)]), (it :: nl), rs,
    (log ++ filter (eligible max_depth) level).
  split; [|split].
  + apply Forall_app. split; [exact Hh|]. now repeat constructor.
  + exact (at_turn_next _ _ _ _ _ _ _ Hat Hne Hcol).
  + now exists [].
- (* done *)
  destruct Hmain as (Hat & ys & Hperm & Hne & Hcol).
  cbn [map] in Hperm. rewrite app_nil_r in Hperm.
  exists (h ++ [(filter (eligible max_depth) level, ys)]), [], rs,
    (log ++ filter (eligible max_depth) level).
  split.
  + apply Forall_app. split; [exact Hh|]. now repeat constructor.
  + intros ac fuel Hac.
    rewrite (at_turn_next _ _ _ _ _ _ _ Hat Hne Hcol ac (S fuel) Hac).
    now rewrite crawl_loop_done.
Qed.

Lemma reachable_simulates (s : state) :
  (1 <= workers)%Z ->
  reachable urljoin _fetch_page max_depth workers root_url s ->
  finished_ok _fetch_page s /\
  simulates urljoin _fetch_page max_depth root_url s.
Proof.
intros Hw. induction 1 as [|s s' _ (Hfin & Hsim) Hstep].
- split; [intros t r []|].
  exists [], [root_item root_url], [], []. split; [constructor|].
  unfold init. destruct (workers <=? 0)%Z eqn:E; [apply Z.leb_le in E; lia|].
  cbn [main unyielded results]. split; [now intros ac fuel _|].
  now exists [].
- split.
  + now apply (finished_ok_step _ _ Hstep).
  + now apply (simulates_step _ _ Hstep).
Qed.

Lemma reachable_no_pool (s : state) :
  (workers <= 0)%Z ->
  reachable urljoin _fetch_page max_depth workers root_url s ->
  main s = Left (Raised ValueError).
Proof.
intros Hw. induction 1 as [|s s' _ IH Hstep].
- unfold init. apply Z.leb_le in Hw. now rewrite Hw.
- destruct Hstep; cbn [main] in *; (discriminate || assumption).
Qed.

(** X1. What the pool gives when the main thread has left the function is
    what [crawl_directory] gives under some completion order that permutes
    the futures of each level. *)
Theorem pool_refines_crawl (s : state) (r : crawl_result) :
  reachable urljoin _fetch_page max_depth workers root_url s ->
  main s = Left r ->
  exists as_completed log,
    (forall k futures, Permutation (as_completed k futures) futures) /\
    crawl_directory urljoin _fetch_page as_completed root_url max_depth workers
    = Some (mkRun r log).
Proof.
intros Hreach Hleft.
destruct (Z_le_gt_dec workers 0) as [Hw|Hw].
- rewrite (reachable_no_pool _ Hw Hreach) in Hleft. injection Hleft as <-.
  exists in_order, []. split; [intros; apply Permutation_refl|].
  unfold crawl_directory. apply Z.leb_le in Hw. now rewrite Hw.
- destruct (reachable_simulates s) as (_ & h & level & rs0 & log & Hh & Hmain);
    [lia | exact Hreach |].
  rewrite Hleft in Hmain.
  exists (replay h), log. split; [now apply replay_perm|].
  destruct (crawl_directory_total urljoin _fetch_page (replay h)
              (replay_perm h Hh) root_url max_depth workers) as (r' & Hr').
  rewrite Hr'. rewrite crawl_directory_loop in Hr' by lia.
  pose proof (Hmain (replay h) 0%nat (replay_agrees h)) as Hr.
  apply (crawl_loop_fuel _ _ (S (Z.to_nat max_depth) + (List.length h + 1))) in Hr';
    [|lia].
  apply (crawl_loop_fuel _ _ (S (Z.to_nat max_depth) + (List.length h + 1))) in Hr;
    [|lia].
  congruence.
Qed.

End Refinement.

(** ** Splitting and joining *)

Lemma split_from_skip (sep x : str) :
  forall cur r,
    split_from sep (List.length x) cur (x ++ r) = split_from sep 0 cur r.
Proof.
induction x as [|c x IH]; intros cur r; [reflexivity|].
cbn [List.length app split_from]. apply IH.
Qed.

(** At an occurrence of the separator the piece ends. *)
Lemma split_from_sep (sep cur r : str) :
  sep <> [] ->
  split_from sep 0 cur (sep ++ r) = cur :: split_from sep 0 [] r.
Proof.
destruct sep as [|c sep']; [congruence|]. intros _.
assert (Hstart : startswith (c :: sep') ((c :: sep') ++ r) = true)
  by (apply startswith_prefix; now exists r).
cbn [app split_from] in *. rewrite Hstart.
replace (List.length (c :: sep') - 1)%nat with (List.length sep')
  by (cbn [List.length]; lia).
f_equal. apply split_from_skip.
Qed.

(** Text in which no occurrence starts goes to the piece being read. *)
Lemma split_from_pass (sep p : str) :
  forall cur r,
    starts_none sep p r ->
    split_from sep 0 cur (p ++ r) = split_from sep 0 (cur ++ p) r.
Proof.
induction p as [|c p IH]; intros cur r Hnone.
- now rewrite app_nil_r.
- assert (Hc : startswith sep ((c :: p) ++ r) = false)
    by (apply (Hnone [] (c :: p)); [reflexivity | discriminate]).
  cbn [app split_from] in *. rewrite Hc.
  rewrite IH.
  + now rewrite <- app_assoc.
  + intros p1 p2 E Hp2. apply (Hnone (c :: p1) p2); [now rewrite E | exact Hp2].
Qed.

(** The first piece starts with the piece being read and ends inside the
    text. *)
Lemma split_from_head (sep s : str) :
  forall cur,
    exists w z rest,
      split_from sep 0 cur s = (cur ++ w) :: rest /\ s = w ++ z.
Proof.
induction s as [|c s IH]; intros cur.
- exists [], [], []. now rewrite app_nil_r.
- cbn [split_from]. destruct (startswith sep (c :: s)).
  + exists [], (c :: s). eexists. now rewrite app_nil_r.
  + destruct (IH (cur ++ [c])) as (w & z & rest & E & ->).
    exists (c :: w), z, rest. rewrite E. now rewrite <- app_assoc.
Qed.

Lemma starts_none_app (sep p q r : str) :
  starts_none sep p (q ++ r) -> starts_none sep q r ->
  starts_none sep (p ++ q) r.
Proof.
intros Hp Hq p1 p2 E Hp2.
apply app_eq_app in E as (l & [[E1 E2] | [E1 E2]]).
- subst. destruct l as [|c l].
  + cbn [app]. apply (Hq [] q); [reflexivity|].
    intros ->. now rewrite app_nil_r in Hp2.
  + rewrite <- app_assoc. apply (Hp p1 (c :: l)); [reflexivity | discriminate].
- subst. apply (Hq l p2); [reflexivity | exact Hp2].
Qed.

Lemma startswith_app_short (w x y : str) :
  startswith w (x ++ y) = true -> (List.length w <= List.length x)%nat ->
  startswith w x = true.
Proof.
revert x. induction w as [|a w IH]; intros x H Hlen; [reflexivity|].
destruct x as [|b x]; cbn [List.length] in Hlen; [lia|].
cbn [app startswith] in *. apply andb_true_iff in H as [Hab H].
rewrite Hab. cbn. apply IH; [exact H | lia].
Qed.

Lemma contains_startswith (sub s : str) :
  startswith sub s = true -> contains sub s = true.
Proof. intros H. destruct s; cbn [contains]; now rewrite H. Qed.

Lemma contains_app_r (sub x y : str) :
  contains sub y = true -> contains sub (x ++ y) = true.
Proof.
intros H. induction x as [|c x IH]; [exact H|].
cbn [app contains]. rewrite IH. apply orb_true_r.
Qed.

(** When the separator does not occur in [p] followed by the separator
    without its last character, no occurrence starts inside [p]. *)
Lemma starts_none_first (sep p r : str) (c : ascii) :
  contains (sep ++ [c]) (p ++ sep) = false ->
  starts_none (sep ++ [c]) p ((sep ++ [c]) ++ r).
Proof.
intros Hno p1 p2 -> Hp2.
destruct (startswith (sep ++ [c]) (p2 ++ (sep ++ [c]) ++ r)) eqn:E; [|reflexivity].
rewrite <- Hno. symmetry. rewrite <- app_assoc. apply contains_app_r.
apply contains_startswith.
rewrite <- app_assoc, app_assoc in E.
apply (startswith_app_short _ _ _ E).
destruct p2; [congruence|]. rewrite !length_app. cbn [List.length]. lia.
Qed.

(** A name without slash followed by a slash holds the start of an
    occurrence of [w /] only when the occurrence ends at that slash. *)
Lemma startswith_segment (w s2 r : str) :
  slash_free w -> slash_free s2 ->
  startswith (w ++ lit "/") (s2 ++ lit "/" ++ r) = true -> s2 = w.
Proof.
change (lit "/") with ["/"%char].
revert s2. induction w as [|x w IH]; intros s2 Fw Fs H.
- destruct s2 as [|c s2]; [reflexivity|].
  cbn [app startswith] in H. apply andb_true_iff in H as [H _].
  apply Ascii.eqb_eq in H. exfalso. apply Fs. left. now subst.
- destruct s2 as [|c s2].
  + cbn [app startswith] in H. apply andb_true_iff in H as [H _].
    apply Ascii.eqb_eq in H. exfalso. apply Fw. now left.
  + cbn [app startswith] in H. apply andb_true_iff in H as [Hc H].
    apply Ascii.eqb_eq in Hc. subst c. f_equal. apply IH.
    * intros Hin. apply Fw. now right.
    * intros Hin. apply Fs. now right.
    * exact H.
Qed.

Lemma starts_none_segment (w s r : str) :
  slash_free w -> slash_free s -> endswith w s = false ->
  starts_none (w ++ lit "/") (s ++ lit "/") r.
Proof.
intros Fw Fs Hend p1 p2 E Hp2.
destruct (startswith (w ++ lit "/") (p2 ++ r)) eqn:Hst; [|reflexivity].
exfalso.
induction p2 as [|c s2 _] using rev_ind; [congruence|].
rewrite app_assoc in E. apply app_inj_tail in E as [Es <-].
assert (s2 = w).
{ apply (startswith_segment w s2 r Fw).
  - intros Hin. apply Fs. rewrite Es. apply in_or_app. now right.
  - now rewrite <- app_assoc in Hst. }
subst s2. assert (endswith w s = true) by (apply endswith_suffix; now exists p1).
congruence.
Qed.

Lemma starts_none_slash (p r : str) :
  slash_free p -> starts_none (lit "/") p r.
Proof.
intros Fp p1 p2 -> Hp2. destruct p2 as [|c p2]; [congruence|].
change (lit "/") with ["/"%char]. cbn [app startswith]. rewrite andb_true_r.
destruct (Ascii.eqb_spec "/"%char c) as [<- | Hne]; [|reflexivity].
exfalso. apply Fp. apply in_or_app. right. now left.
Qed.

(** The pieces of a text cut at the slashes hold no slash, and there is
    one more piece than there are slashes. *)
Lemma split_slash_free (s : str) :
  forall cur, slash_free cur -> Forall slash_free (split_from (lit "/") 0 cur s).
Proof.
induction s as [|c s IH]; intros cur Fcur; [now repeat constructor|].
cbn [split_from]. change (startswith (lit "/") (c :: s)) with (Ascii.eqb "/" c && true).
rewrite andb_true_r. destruct (Ascii.eqb_spec "/"%char c) as [<- | Hne].
- constructor; [exact Fcur|]. apply IH. intros [].
- apply IH. intros Hin. apply in_app_or in Hin as [Hin | [Hin | []]];
    [now apply Fcur | congruence].
Qed.

Lemma split_slash_length (s : str) :
  forall cur,
    List.length (split_from (lit "/") 0 cur s) =
    S (count_occ ascii_dec s "/"%char).
Proof.
induction s as [|c s IH]; intros cur; [reflexivity|].
cbn [split_from count_occ].
change (startswith (lit "/") (c :: s)) with (Ascii.eqb "/" c && true).
rewrite andb_true_r. destruct (Ascii.eqb_spec "/"%char c) as [<- | Hne].
- destruct (ascii_dec "/" "/") as [_|]; [|congruence].
  cbn [List.length]. now rewrite IH.
- destruct (ascii_dec c "/") as [->|_]; [congruence|]. apply IH.
Qed.

(** Joining the pieces with the separator gives the text back. *)
Lemma join_split_from (sep : str) (n : nat) :
  sep <> [] ->
  forall s cur,
    (List.length s <= n)%nat ->
    str_join sep (split_from sep 0 cur s) = cur ++ s.
Proof.
intros Hsep. induction n as [|n IH]; intros s cur Hlen.
- destruct s; [|cbn in Hlen; lia]. cbn. now rewrite app_nil_r.
- destruct s as [|c s]; [cbn; now rewrite app_nil_r|].
  destruct (startswith sep (c :: s)) eqn:Hst.
  + apply startswith_prefix in Hst as (r & E). rewrite E.
    rewrite split_from_sep by exact Hsep.
    destruct (split_from_head sep r []) as (w & z & rest & Ehd & _).
    assert (Hr : (List.length r <= n)%nat).
    { apply (f_equal (@List.length ascii)) in E. rewrite length_app in E.
      cbn [List.length] in E, Hlen. destruct sep; [congruence|].
      cbn [List.length] in E. lia. }
    pose proof (IH r [] Hr) as Hjoin. rewrite Ehd in *.
    cbn [str_join]. cbn [str_join] in Hjoin. now rewrite Hjoin.
  + cbn [split_from]. rewrite Hst. cbn [List.length] in Hlen.
    rewrite IH by lia. now rewrite <- app_assoc.
Qed.

Lemma join_split (sep s : str) :
  sep <> [] -> str_join sep (str_split sep s) = s.
Proof.
intros Hsep. unfold str_split.
now rewrite (join_split_from sep (List.length s) Hsep).
Qed.

(** ** [extract_ids] *)

Lemma split_launches_segment (s cur rest : str) :
  slash_free s -> endswith (lit "launches") s = false ->
  split_from (lit "launches/") 0 cur (s ++ lit "/" ++ rest) =
  split_from (lit "launches/") 0 (cur ++ s ++ lit "/") rest.
Proof.
intros Fs Hend. rewrite (app_assoc s). apply split_from_pass.
apply (starts_none_segment (lit "launches") s rest); [|exact Fs | exact Hend].
vm_compute. intuition discriminate.
Qed.

Lemma split_slash_segment (s cur rest : str) :
  slash_free s ->
  split_from (lit "/") 0 cur (s ++ lit "/" ++ rest) =
  (cur ++ s) :: split_from (lit "/") 0 [] rest.
Proof.
intros Fs. rewrite split_from_pass by now apply starts_none_slash.
apply split_from_sep. discriminate.
Qed.

Lemma split_launches_first (pre rest : str) :
  contains (lit "launches/") (pre ++ lit "launches") = false ->
  str_split (lit "launches/") (pre ++ lit "launches/" ++ rest) =
  pre :: split_from (lit "launches/") 0 [] rest.
Proof.
intros Hfirst. unfold str_split.
rewrite split_from_pass
  by exact (starts_none_first (lit "launches") pre rest "/"%char Hfirst).
apply split_from_sep. discriminate.
Qed.

Lemma contains_launches (pre rest : str) :
  contains (lit "launches/") (pre ++ lit "launches/" ++ rest) = true.
Proof.
apply contains_app_r, contains_startswith, startswith_prefix. now exists rest.
Qed.

(** X3. On a URL that shows, after its first [launches/], four names
    separated by slashes (none holding a slash or ending in the word
    launches) and a slash, and that holds [log] somewhere, [extract_ids]
    returns the second name as the launch and the fourth as the test
    item. *)
Theorem extract_ids_returns (pre a L b T tail : str) :
  contains (lit "launches/") (pre ++ lit "launches") = false ->
  slash_free a -> slash_free L -> slash_free b -> slash_free T ->
  endswith (lit "launches") a = false -> endswith (lit "launches") L = false ->
  endswith (lit "launches") b = false -> endswith (lit "launches") T = false ->
  contains (lit "log")
    (pre ++ lit "launches/" ++ a ++ lit "/" ++ L ++ lit "/" ++ b ++ lit "/" ++
     T ++ lit "/" ++ tail) = true ->
  extract_ids
    (pre ++ lit "launches/" ++ a ++ lit "/" ++ L ++ lit "/" ++ b ++ lit "/" ++
     T ++ lit "/" ++ tail) = inr (L, T).
Proof.
intros Hfirst Fa FL Fb FT Ea EL Eb ET Hlog. unfold extract_ids.
rewrite contains_launches, Hlog. cbn [negb orb].
rewrite (split_launches_first _ _ Hfirst). cbn [nth_error].
rewrite !split_launches_segment by assumption.
destruct (split_from_head (lit "launches/") tail
            ([] ++ a ++ lit "/" ++ L ++ lit "/" ++ b ++ lit "/" ++ T ++ lit "/"))
  as (w & z & rest & E & _).
replace (((([] ++ a ++ lit "/") ++ L ++ lit "/") ++ b ++ lit "/") ++ T ++ lit "/")
  with ([] ++ a ++ lit "/" ++ L ++ lit "/" ++ b ++ lit "/" ++ T ++ lit "/")
  by (cbn [app]; now rewrite <- !app_assoc).
rewrite E. cbn [app]. unfold str_split. rewrite <- !app_assoc.
rewrite !split_slash_segment by assumption. reflexivity.
Qed.

Lemma join_cons (sep x : str) (l : list str) :
  exists r, str_join sep (x :: l) = x ++ r /\
            (l <> [] -> r = sep ++ str_join sep l).
Proof.
destruct l as [|y l].
- exists []. cbn. rewrite app_nil_r. split; [reflexivity | congruence].
- exists (sep ++ str_join sep (y :: l)). split; [reflexivity | reflexivity].
Qed.

(** X4. Whenever [extract_ids] returns, the two identifiers hold no slash
    and stand in the URL as the second and the fourth of four such names
    that follow an occurrence of [launches/]. *)
Theorem extract_ids_sound (rp_url L T : str) :
  extract_ids rp_url = inr (L, T) ->
  slash_free L /\ slash_free T /\
  exists pre a b rest,
    slash_free a /\ slash_free b /\
    rp_url =
    pre ++ lit "launches/" ++ a ++ lit "/" ++ L ++ lit "/" ++ b ++ lit "/" ++
    T ++ rest.
Proof.
unfold extract_ids.
destruct (negb (contains (lit "launches/") rp_url) ||
          negb (contains (lit "log") rp_url)); [discriminate|].
pose proof (join_split (lit "launches/") rp_url) as Hurl.
destruct (str_split (lit "launches/") rp_url) as [|p0 [|after more]];
  cbn [nth_error]; try discriminate.
pose proof (join_split (lit "/") after) as Hafter.
pose proof (split_slash_free after [] (fun H => H)) as Hfree.
fold (str_split (lit "/") after) in Hfree.
destruct (str_split (lit "/") after) as [|a [|L' [|b [|T' parts]]]];
  cbn [nth_error]; try discriminate.
intros [= <- <-].
inversion Hfree as [|? ? Fa H1]; subst. inversion H1 as [|? ? FL H2]; subst.
inversion H2 as [|? ? Fb H3]; subst. inversion H3 as [|? ? FT _]; subst.
split; [exact FL|]. split; [exact FT|].
destruct (join_cons (lit "/") T' parts) as (r1 & E1 & _).
destruct (join_cons (lit "launches/") after more) as (r2 & E2 & _).
exists p0, a, b, (r1 ++ r2). split; [exact Fa|]. split; [exact Fb|].
rewrite <- Hurl by discriminate.
change (str_join (lit "launches/") (p0 :: after :: more))
  with (p0 ++ lit "launches/" ++ str_join (lit "launches/") (after :: more)).
rewrite E2. rewrite <- Hafter at 1 by discriminate.
change (str_join (lit "/") (a :: L' :: b :: T' :: parts))
  with (a ++ lit "/" ++ L' ++ lit "/" ++ b ++ lit "/" ++
        str_join (lit "/") (T' :: parts)).
rewrite E1. now rewrite <- !app_assoc.
Qed.

(** [extract_ids] raises [ValueError] exactly when the URL lacks
    [launches/] or lacks [log]; with both present it returns or raises
    [IndexError]. *)
Lemma extract_ids_value_error (rp_url : str) :
  (extract_ids rp_url = inl (E_exn ValueError) <->
   contains (lit "launches/") rp_url = false \/
   contains (lit "log") rp_url = false)
  /\ (contains (lit "launches/") rp_url = true ->
      contains (lit "log") rp_url = true ->
      extract_ids rp_url = inl E_IndexError \/
      exists L T, extract_ids rp_url = inr (L, T)).
Proof.
unfold extract_ids.
destruct (contains (lit "launches/") rp_url), (contains (lit "log") rp_url);
  cbn [negb orb]; (split; [split; [|intuition congruence] | intros; try congruence]);
  try (intros _; auto; fail).
- destruct (nth_error (str_split (lit "launches/") rp_url) 1) as [after|];
    [|discriminate].
  destruct (nth_error (str_split (lit "/") after) 1); [|discriminate].
  destruct (nth_error (str_split (lit "/") after) 3); discriminate.
- destruct (nth_error (str_split (lit "launches/") rp_url) 1) as [after|];
    [|now left].
  destruct (nth_error (str_split (lit "/") after) 1) as [L|]; [|now left].
  destruct (nth_error (str_split (lit "/") after) 3) as [T|]; [|now left].
  right. now exists L, T.
Qed.

(** X5. A URL that has both markers but fewer than three slashes after
    its first [launches/] makes [extract_ids] raise [IndexError], which the
    docstring does not announce. *)
Theorem extract_ids_index_error (pre x : str) :
  contains (lit "launches/") (pre ++ lit "launches") = false ->
  contains (lit "log") (pre ++ lit "launches/" ++ x) = true ->
  (count_occ ascii_dec x "/"%char < 3)%nat ->
  extract_ids (pre ++ lit "launches/" ++ x) = inl E_IndexError.
Proof.
intros Hfirst Hlog Hcount. unfold extract_ids.
rewrite contains_launches, Hlog. cbn [negb orb].
rewrite (split_launches_first _ _ Hfirst).
change (nth_error (pre :: split_from (lit "launches/") 0 [] x) 1)
  with (nth_error (split_from (lit "launches/") 0 [] x) 0).
destruct (split_from_head (lit "launches/") x []) as (w & z & rest & E & Ex).
rewrite E. change (nth_error (([] ++ w) :: rest) 0) with (Some w). cbv iota.
assert (Hlen : (List.length (str_split (lit "/") w) <= 3)%nat).
{ unfold str_split. rewrite split_slash_length.
  rewrite Ex, count_occ_app in Hcount. lia. }
assert (H3 : nth_error (str_split (lit "/") w) 3 = None)
  by now apply nth_error_None.
rewrite H3. now destruct (nth_error (str_split (lit "/") w) 1).
Qed.

(** ** [_run_crawl] *)

Lemma last_default {A : Type} (l : list A) :
  forall (x d d' : A), last (x :: l) d = last (x :: l) d'.
Proof.
induction l as [|y l IH]; intros x d d'; [reflexivity|].
change (last (y :: l) d = last (y :: l) d'). apply IH.
Qed.

Lemma last_cons_default {A : Type} (x d : A) (l : list A) :
  last (x :: l) d = last l x.
Proof. destruct l as [|y l]; [reflexivity|]. apply (last_default (y :: l)). Qed.

Section RunCrawlFacts.

Variable int : str -> option Z.
Variable urljoin : str -> str -> str.
Variable _fetch_page : str -> fetch_result.
Variable as_completed : nat -> list item -> list item.

(** A word that is not the flag becomes the URL. *)
Lemma crawl_args_word (d : Z) (u0 u : str) (rest : list str) :
  u <> lit "-d" ->
  crawl_args int d u0 (u :: rest) = crawl_args int d u rest.
Proof.
intros Hu. apply str_eqb_neq in Hu.
destruct rest as [|v rest]; cbn [crawl_args]; [reflexivity|]. now rewrite Hu.
Qed.

(** The loop over a run of well-formed options. *)
Lemma crawl_args_options (opts : list crawl_option) :
  forall (ds : list Z) (d0 : Z) (u0 : str) (rest : list str),
    (forall u, In (Target u) opts -> u <> lit "-d") ->
    map int (depths opts) = map Some ds ->
    crawl_args int d0 u0 (flat_map argv_of opts ++ rest) =
    crawl_args int (last ds d0) (last (targets opts) u0) rest.
Proof.
induction opts as [|[v|u] opts IH]; intros ds d0 u0 rest Hu Hds.
- destruct ds; [reflexivity | discriminate].
- cbn [depths flat_map app] in Hds. destruct ds as [|d ds]; [discriminate|].
  cbn [map] in Hds. injection Hds as Hv Hds.
  cbn [flat_map argv_of app targets crawl_args].
  rewrite str_eqb_refl, Hv, last_cons_default.
  apply IH; [|exact Hds]. intros u H. apply Hu. now right.
- cbn [flat_map argv_of app targets depths] in *.
  rewrite crawl_args_word by (apply Hu; now left).
  rewrite last_cons_default.
  apply IH; [|exact Hds]. intros u' H. apply Hu. now right.
Qed.

(** X6. Among the arguments of [crawl], the last depth and the last target
    win, whatever their order; the depth is five when none is given; a
    flag without a value at the very end is taken as the URL. *)
Theorem crawl_args_last_wins (opts : list crawl_option) (ds : list Z)
  (tail : list str) :
  (forall u, In (Target u) opts -> u <> lit "-d") ->
  map int (depths opts) = map Some ds ->
  tail = [] \/ tail = [lit "-d"] ->
  crawl_args int 5 (lit "") (flat_map argv_of opts ++ tail) =
  inr (last ds 5%Z, last (targets opts ++ tail) (lit "")).
Proof.
intros Hu Hds Htail. rewrite (crawl_args_options opts ds) by assumption.
destruct Htail as [-> | ->].
- now rewrite app_nil_r.
- now rewrite last_last.
Qed.

(** X7. Without a target, or with an empty one as the last, [_run_crawl]
    prints the usage line on the error stream and exits with status 1; it
    fetches nothing and prints nothing else. *)
Theorem run_crawl_usage (opts : list crawl_option) (ds : list Z) :
  (forall u, In (Target u) opts -> u <> lit "-d") ->
  map int (depths opts) = map Some ds ->
  last (targets opts) (lit "") = lit "" ->
  _run_crawl int urljoin _fetch_page as_completed (flat_map argv_of opts) =
  Some (mkProcess [] [crawl_usage] (Exit 1) []).
Proof.
intros Hu Hds Hlast. unfold _run_crawl.
rewrite <- (app_nil_r (flat_map argv_of opts)).
rewrite (crawl_args_options opts ds) by assumption.
cbn [crawl_args]. now rewrite Hlast.
Qed.

(** X8. A depth that [int] does not accept ends [_run_crawl] with
    [ValueError] as soon as the loop reaches it: whatever follows, target
    included, nothing is fetched and nothing is printed. *)
Theorem run_crawl_bad_depth (opts : list crawl_option) (ds : list Z)
  (v : str) (rest : list str) :
  (forall u, In (Target u) opts -> u <> lit "-d") ->
  map int (depths opts) = map Some ds ->
  int v = None ->
  _run_crawl int urljoin _fetch_page as_completed
    (flat_map argv_of opts ++ lit "-d" :: v :: rest) =
  Some (mkProcess [] [] (Uncaught (E_exn ValueError)) []).
Proof.
intros Hu Hds Hv. unfold _run_crawl.
rewrite (crawl_args_options opts ds) by assumption.
cbn [crawl_args]. now rewrite str_eqb_refl, Hv.
Qed.

(** X9. A depth of zero or less makes [_run_crawl] end quietly: no fetch,
    no line on either stream, no error. *)
Theorem run_crawl_nonpositive_depth (args : list str) (d : Z) (url : str) :
  crawl_args int 5 (lit "") args = inr (d, url) ->
  url <> [] ->
  (d <= 0)%Z ->
  _run_crawl int urljoin _fetch_page as_completed args =
  Some (mkProcess [] [] Done []).
Proof.
intros Hargs Hurl Hd. unfold _run_crawl. rewrite Hargs.
destruct url as [|c url]; [congruence|].
rewrite crawl_directory_loop by lia.
rewrite crawl_loop_done; [reflexivity|].
cbn [filter]. unfold eligible.
change (item_depth (root_item (c :: url))) with 0%Z.
apply Z.leb_le in Hd. now rewrite Hd.
Qed.

Hypothesis as_completed_perm :
  forall k futures, Permutation (as_completed k futures) futures.



End RunCrawlFacts.

(** ** [read_token] *)

(** The mask of the permission test selects the six lowest bits. *)
Lemma group_other_bits (mode : Z) :
  Z.land mode (Z.lor S_IRWXG S_IRWXO) = 0%Z <->
  forall i, (0 <= i < 6)%Z -> Z.testbit mode i = false.
Proof.
change (Z.lor S_IRWXG S_IRWXO) with (Z.ones 6). split.
- intros H i Hi.
  assert (Hbit : Z.testbit (Z.land mode (Z.ones 6)) i = false)
    by (rewrite H; apply Z.bits_0).
  rewrite Z.land_spec, Z.ones_spec_low in Hbit by lia.
  now rewrite andb_true_r in Hbit.
- intros H. apply Z.bits_inj'. intros i Hi.
  rewrite Z.land_spec, Z.bits_0.
  destruct (Z_lt_ge_dec i 6) as [Hlt|Hge].
  + now rewrite H by lia.
  + rewrite Z.ones_spec_high by lia. apply andb_false_r.
Qed.

(** X12. For a token file that exists, [read_token] prints its warning
    exactly when one of the six permission bits of group and others is
    set, and the warning never keeps the token back: a readable file
    gives its text without the whitespace around it, whatever the mode. *)
Theorem read_token_warning (tf : token_file) :
  is_file tf = true ->
  (fst (read_token tf) = [] <->
   forall i, (0 <= i < 6)%Z -> Z.testbit (st_mode tf) i = false)
  /\ (forall text,
        content tf = inr text ->
        exists ws1 ws2,
          snd (read_token tf) = inr (strip text) /\
          text = ws1 ++ strip text ++ ws2 /\
          forallb isspace ws1 = true /\ forallb isspace ws2 = true /\
          no_leading isspace (strip text) /\ no_trailing isspace (strip text)).
Proof.
intros Hfile. unfold read_token. rewrite Hfile. cbn [negb]. split.
- rewrite <- group_other_bits.
  destruct (Z.eqb_spec (Z.land (st_mode tf) (Z.lor S_IRWXG S_IRWXO)) 0)
    as [E|E]; destruct (content tf); cbn [fst]; split; intros H;
    congruence.
- intros text Htext. rewrite Htext. cbn [snd].
  destruct (strip_spec text) as (ws1 & ws2 & H).
  exists ws1, ws2. split; [reflexivity | exact H].
Qed.

(** ** [update_defect] and [_run_decide] *)

Lemma issue_type_locators (key locator : str) :
  lookup key ISSUE_TYPE_MAP = Some locator ->
  In locator [lit "PB001"; lit "AB001"; lit "SI001"].
Proof.
unfold ISSUE_TYPE_MAP. cbn [lookup].
destruct (str_eqb key (lit "product_bug")); [intros [= <-]; now left|].
destruct (str_eqb key (lit "automation_bug"));
  [intros [= <-]; right; now left|].
destruct (str_eqb key (lit "system_issue"));
  [intros [= <-]; right; right; now left | discriminate].
Qed.

(** The loop over a run of flags with their values. *)
Lemma decide_flags_options (opts : list decide_option) :
  forall (comment link_url link_id : str) (rest : list str),
    decide_flags comment link_url link_id (flat_map decide_argv opts ++ rest) =
    decide_flags (last (comments opts) comment) (last (link_urls opts) link_url)
      (last (link_ids opts) link_id) rest.
Proof.
assert (E1 : str_eqb (lit "--link-url") (lit "--comment") = false)
  by reflexivity.
assert (E2 : str_eqb (lit "--link-id") (lit "--comment") = false)
  by reflexivity.
assert (E3 : str_eqb (lit "--link-id") (lit "--link-url") = false)
  by reflexivity.
induction opts as [|[v|v|v] opts IH]; intros comment link_url link_id rest;
  [reflexivity | | |];
  cbn [flat_map decide_argv app decide_flags comments link_urls link_ids];
  rewrite ?E1, ?E2, ?E3, str_eqb_refl, IH, last_cons_default; reflexivity.
Qed.

(** X13. Each flag of [decide] may be given any number of times and in any
    order; the last value of each flag wins and a flag that is not given
    leaves the empty string.  The word after a flag is its value, even
    when it looks like a flag. *)
Theorem decide_flags_last_wins (opts : list decide_option) :
  decide_flags (lit "") (lit "") (lit "") (flat_map decide_argv opts) =
  inr (last (comments opts) (lit ""), last (link_urls opts) (lit ""),
       last (link_ids opts) (lit "")).
Proof.
rewrite <- (app_nil_r (flat_map decide_argv opts)).
now rewrite decide_flags_options.
Qed.

Section RunDecideFacts.

Variable int : str -> option Z.
Variable RP_PROJECT : str.
Variable reply : Type.
Variable put_json : str -> str -> json -> exn + reply.
Variable dumps : reply -> str.

(** X14. [_run_decide] sends at most one request, and sends it only when
    everything checks: three arguments at least, an issue type of the
    table, well-formed flags, a token file that exists and can be read,
    and an item id that [int] accepts.  The request then goes to the item
    endpoint of the project under the base URL, with the stripped token,
    the item id as a number and one of the three locators. *)
Theorem run_decide_guard (tf : token_file) (args : list str) (req : request) :
  In req (calls (_run_decide int RP_PROJECT reply put_json dumps tf args)) ->
  exists base_url item_id key flags locator comment link_url link_id n text,
    args = base_url :: item_id :: key :: flags /\
    lookup key ISSUE_TYPE_MAP = Some locator /\
    In locator [lit "PB001"; lit "AB001"; lit "SI001"] /\
    decide_flags (lit "") (lit "") (lit "") flags =
    inr (comment, link_url, link_id) /\
    is_file tf = true /\ content tf = inr text /\ int item_id = Some n /\
    req = (base_url ++ lit "/api/v1/" ++ RP_PROJECT ++ lit "/item",
           strip text,
           defect_payload n (defect_issue locator comment link_url link_id)) /\
    calls (_run_decide int RP_PROJECT reply put_json dumps tf args) = [req].
Proof.
unfold _run_decide.
destruct args as [|base_url [|item_id [|key flags]]]; try (intros []).
destruct (lookup key ISSUE_TYPE_MAP) as [locator|] eqn:Hkey; [|intros []].
destruct (decide_flags (lit "") (lit "") (lit "") flags)
  as [flag|[[comment link_url] link_id]] eqn:Hflags; [intros []|].
unfold read_token. destruct (is_file tf) eqn:Hfile; cbn [negb]; [|intros []].
destruct (content tf) as [e|text] eqn:Htext; [intros []|].
unfold update_defect. destruct (int item_id) as [n|] eqn:Hint; [|intros []].
destruct (put_json _ _ _); cbn [calls]; (intros [<-|[]]);
  exists base_url, item_id, key, flags, locator, comment, link_url, link_id,
    n, text;
  repeat (split; [first [reflexivity | assumption
                        | exact (issue_type_locators _ _ Hkey)]|]);
  reflexivity.
Qed.

(** X15. What [_run_decide] leaves on the streams tells what it did: an
    exit with status 1 means that no request was sent and nothing was
    printed on the output stream; a text on the output stream means that
    the one request was sent, that the server replied, and that the text
    is the reply. *)
Theorem run_decide_outcomes (tf : token_file) (args : list str)
  (p : process request) :
  _run_decide int RP_PROJECT reply put_json dumps tf args = p ->
  (ends p = Exit 1 -> calls p = [] /\ stdout p = []) /\
  (stdout p <> [] ->
   ends p = Done /\
   exists url api_key payload result,
     calls p = [(url, api_key, payload)] /\
     put_json url api_key payload = inr result /\
     stdout p = [dumps result]).
Proof.
intros <-. unfold _run_decide.
destruct args as [|base_url [|item_id [|key flags]]];
  try (cbn; split; [now split | congruence]).
destruct (lookup key ISSUE_TYPE_MAP) as [locator|];
  [|cbn; split; [now split | congruence]].
destruct (decide_flags (lit "") (lit "") (lit "") flags)
  as [flag|[[comment link_url] link_id]];
  [cbn; split; [now split | congruence]|].
unfold read_token. destruct (is_file tf); cbn [negb];
  [|cbn; split; [now split | congruence]].
destruct (content tf) as [e|text]; [cbn; split; [discriminate | congruence]|].
unfold update_defect. destruct (int item_id) as [n|];
  [|cbn; split; [discriminate | congruence]].
destruct (put_json _ _ _) as [e|result] eqn:Hput;
  cbn [ends calls stdout]; (split; [discriminate|]); [congruence|].
intros _. split; [reflexivity|]. now eexists _, _, _, result.
Qed.

(** X16. An argument that is none of the three flags, or a flag that is
    the last word, stops [_run_decide] with the error that names it and
    status 1, before the token file is looked at. *)
Theorem run_decide_unknown_flag (tf : token_file)
  (base_url item_id key locator flag : str) (opts : list decide_option)
  (rest : list str) :
  lookup key ISSUE_TYPE_MAP = Some locator ->
  rest = [] \/
  (flag <> lit "--comment" /\ flag <> lit "--link-url" /\
   flag <> lit "--link-id") ->
  _run_decide int RP_PROJECT reply put_json dumps tf
    (base_url :: item_id :: key :: flat_map decide_argv opts ++ flag :: rest) =
  mkProcess [] [unknown_flag flag] (Exit 1) [].
Proof.
intros Hkey Hflag. unfold _run_decide. rewrite Hkey, decide_flags_options.
destruct Hflag as [-> | (H1 & H2 & H3)]; [reflexivity|].
apply str_eqb_neq in H1, H2, H3.
destruct rest as [|v rest]; cbn [decide_flags]; [reflexivity|].
now rewrite H1, H2, H3.
Qed.

Lemma filter_link_id (opts : list decide_option) :
  comments (filter (fun o => negb (is_link_id o)) opts) = comments opts /\
  link_urls (filter (fun o => negb (is_link_id o)) opts) = link_urls opts /\
  link_ids (filter (fun o => negb (is_link_id o)) opts) = [].
Proof.
induction opts as [|[v|v|v] opts (IH1 & IH2 & IH3)];
  cbn [filter is_link_id negb comments link_urls link_ids flat_map app];
  unfold comments, link_urls, link_ids in *;
  rewrite ?IH1, ?IH2, ?IH3; now repeat split.
Qed.

(** X17. A ticket id without a link URL is dropped without a word: when
    the last link URL is empty or none is given, [_run_decide] does
    exactly what it does with every [--link-id] removed. *)
Theorem run_decide_link_id_alone (tf : token_file)
  (base_url item_id key : str) (opts : list decide_option) :
  last (link_urls opts) (lit "") = lit "" ->
  _run_decide int RP_PROJECT reply put_json dumps tf
    (base_url :: item_id :: key :: flat_map decide_argv opts) =
  _run_decide int RP_PROJECT reply put_json dumps tf
    (base_url :: item_id :: key ::
     flat_map decide_argv (filter (fun o => negb (is_link_id o)) opts)).
Proof.
intros Hurl. unfold _run_decide.
destruct (lookup key ISSUE_TYPE_MAP) as [locator|]; [|reflexivity].
assert (Hall : forall o,
  decide_flags (lit "") (lit "") (lit "") (flat_map decide_argv o) =
  inr (last (comments o) (lit ""), last (link_urls o) (lit ""),
       last (link_ids o) (lit ""))).
{ intros o. rewrite <- (app_nil_r (flat_map decide_argv o)).
  now rewrite decide_flags_options. }
rewrite !Hall.
destruct (filter_link_id opts) as (-> & -> & ->).
rewrite Hurl. reflexivity.
Qed.

End RunDecideFacts.

(** ** [splitlines] and the choice of the lines *)

Lemma is_boundary_isspace (c : ascii) : is_boundary c = true -> isspace c = true.
Proof.
unfold is_boundary, isspace.
destruct (N_of_ascii c) as [|p] eqn:E; [discriminate|].
intros H. apply orb_true_iff in H as [H|H];
  [apply orb_true_iff in H as [H|H]|].
- apply andb_true_iff in H as [H1 H2]. apply N.leb_le in H1, H2.
  assert (H9 : (9 <=? N.pos p)%N = true) by (apply N.leb_le; lia).
  assert (H13 : (N.pos p <=? 13)%N = true) by (apply N.leb_le; lia).
  now rewrite H9, H13.
- apply andb_true_iff in H as [H1 H2]. apply N.leb_le in H1, H2.
  assert (H28 : (28 <=? N.pos p)%N = true) by (apply N.leb_le; lia).
  assert (H32 : (N.pos p <=? 32)%N = true) by (apply N.leb_le; lia).
  rewrite H28, H32. cbn [andb]. now rewrite orb_true_r.
- rewrite H. cbn [orb]. now rewrite orb_true_r.
Qed.

Lemma splitlines_from_char (cur s : str) (c : ascii) :
  is_boundary c = false ->
  splitlines_from cur (c :: s) = splitlines_from (cur ++ [c]) s.
Proof. intros H. cbn [splitlines_from]. now rewrite H. Qed.

Lemma splitlines_from_crlf (cur s : str) :
  splitlines_from cur (carriage_return :: line_feed :: s) =
  cur :: splitlines_from [] s.
Proof. reflexivity. Qed.

Lemma splitlines_from_break (cur s : str) (c : ascii) :
  is_boundary c = true ->
  (c = carriage_return -> forall s', s <> line_feed :: s') ->
  splitlines_from cur (c :: s) = cur :: splitlines_from [] s.
Proof.
intros Hc Hs. cbn [splitlines_from]. rewrite Hc. f_equal.
destruct s as [|c' s']; [reflexivity|].
destruct (Ascii.eqb_spec c carriage_return) as [-> | _]; [|reflexivity].
destruct (Ascii.eqb_spec c' line_feed) as [-> | _]; [|reflexivity].
now destruct (Hs eq_refl s').
Qed.

(** The three ways a text that is not empty starts: a character of a line,
    CR and LF together, any other boundary. *)
Lemma splitlines_from_cases (cur s : str) (c : ascii) :
  (is_boundary c = false /\
   splitlines_from cur (c :: s) = splitlines_from (cur ++ [c]) s) \/
  (is_boundary c = true /\ exists s',
     s = line_feed :: s' /\
     splitlines_from cur (c :: s) = cur :: splitlines_from [] s') \/
  (is_boundary c = true /\
   splitlines_from cur (c :: s) = cur :: splitlines_from [] s).
Proof.
destruct (is_boundary c) eqn:Hc.
- right. destruct (ascii_dec c carriage_return) as [-> | Hcr].
  + destruct s as [|c' s'].
    * right. split; [reflexivity|]. now apply splitlines_from_break.
    * destruct (ascii_dec c' line_feed) as [-> | Hlf].
      -- left. split; [reflexivity|]. exists s'. split; [reflexivity|].
         apply splitlines_from_crlf.
      -- right. split; [reflexivity|]. apply splitlines_from_break;
           [reflexivity|]. intros _ s'' [= E _]. now apply Hlf.
  + right. split; [reflexivity|]. apply splitlines_from_break;
      [exact Hc | intros E; now destruct (Hcr E)].
- left. split; [reflexivity|]. now apply splitlines_from_char.
Qed.

(** Characters that are no boundary go to the line being read. *)
Lemma splitlines_from_plain (x : str) :
  forall cur rest,
    forallb (fun c => negb (is_boundary c)) x = true ->
    splitlines_from cur (x ++ rest) = splitlines_from (cur ++ x) rest.
Proof.
induction x as [|c x IH]; intros cur rest Hx.
- now rewrite app_nil_r.
- cbn [forallb] in Hx. apply andb_true_iff in Hx as [Hc Hx].
  apply negb_true_iff in Hc. cbn [app].
  rewrite splitlines_from_char by exact Hc.
  rewrite IH by exact Hx. now rewrite <- app_assoc.
Qed.

(** The lines of a text that ends with a line feed do not depend on what
    follows, and the lines of what follows do not depend on the text. *)
Lemma splitlines_from_prefix (n : nat) :
  forall a cur,
    (List.length a <= n)%nat ->
    exists L, forall b,
      splitlines_from cur (a ++ line_feed :: b) = L ++ splitlines_from [] b.
Proof.
induction n as [|n IH]; intros a cur Hlen.
- destruct a; [|cbn in Hlen; lia]. exists [cur]. intros b.
  now apply splitlines_from_break.
- destruct a as [|c a].
  { exists [cur]. intros b. now apply splitlines_from_break. }
  cbn [List.length] in Hlen.
  destruct (is_boundary c) eqn:Hc.
  + destruct (ascii_dec c carriage_return) as [-> | Hcr].
    * destruct a as [|c' a'].
      { exists [cur]. intros b. apply splitlines_from_crlf. }
      destruct (ascii_dec c' line_feed) as [-> | Hlf].
      -- cbn [List.length] in Hlen.
         destruct (IH a' [] ltac:(lia)) as (L & HL).
         exists (cur :: L). intros b. cbn [app].
         now rewrite splitlines_from_crlf, HL.
      -- destruct (IH (c' :: a') [] ltac:(lia)) as (L & HL).
         exists (cur :: L). intros b. cbn [app].
         rewrite splitlines_from_break;
           [|reflexivity | intros _ s' [= E _]; now apply Hlf].
         f_equal. apply (HL b).
    * destruct (IH a [] ltac:(lia)) as (L & HL).
      exists (cur :: L). intros b. cbn [app].
      rewrite splitlines_from_break;
        [|exact Hc | intros E; now destruct (Hcr E)].
      f_equal. apply (HL b).
  + destruct (IH a (cur ++ [c]) ltac:(lia)) as (L & HL).
    exists L. intros b. cbn [app].
    rewrite splitlines_from_char by exact Hc. apply (HL b).
Qed.

(** Every character of a line comes from the text, and every character of
    the text that is no boundary is in a line. *)
Lemma splitlines_from_sound (n : nat) :
  forall s cur line c,
    (List.length s <= n)%nat ->
    In line (splitlines_from cur s) -> In c line -> In c cur \/ In c s.
Proof.
induction n as [|n IH]; intros s cur line c Hlen Hline Hc.
- destruct s; [|cbn in Hlen; lia]. cbn [splitlines_from] in Hline.
  destruct cur; [destruct Hline|]. destruct Hline as [<- | []]. now left.
- destruct s as [|x s].
  { cbn [splitlines_from] in Hline. destruct cur; [destruct Hline|].
    destruct Hline as [<- | []]. now left. }
  cbn [List.length] in Hlen.
  destruct (splitlines_from_cases cur s x)
    as [(_ & E) | [(_ & s' & -> & E) | (_ & E)]]; rewrite E in Hline.
  + destruct (IH s (cur ++ [x]) line c ltac:(lia) Hline Hc) as [H|H].
    * apply in_app_or in H as [H | [<- | []]]; [now left | right; now left].
    * right. now right.
  + destruct Hline as [<- | Hline]; [now left|].
    cbn [List.length] in Hlen.
    destruct (IH s' [] line c ltac:(lia) Hline Hc) as [[]|H].
    right. right. now right.
  + destruct Hline as [<- | Hline]; [now left|].
    destruct (IH s [] line c ltac:(lia) Hline Hc) as [[]|H].
    right. now right.
Qed.

Lemma splitlines_from_complete (n : nat) :
  forall s cur c,
    (List.length s <= n)%nat ->
    In c cur \/ In c s -> is_boundary c = false ->
    exists line, In line (splitlines_from cur s) /\ In c line.
Proof.
assert (Hend : forall cur c, In c cur ->
  exists line, In line (splitlines_from cur []) /\ In c line).
{ intros cur c Hc. exists cur. split; [|exact Hc].
  cbn [splitlines_from]. destruct cur; [destruct Hc | now left]. }
induction n as [|n IH]; intros s cur c Hlen Hin Hc.
- destruct s; [|cbn in Hlen; lia]. destruct Hin as [Hin | []]. now apply Hend.
- destruct s as [|x s].
  { destruct Hin as [Hin | []]. now apply Hend. }
  cbn [List.length] in Hlen.
  destruct (splitlines_from_cases cur s x)
    as [(Hx & E) | [(Hx & s' & -> & E) | (Hx & E)]]; rewrite E.
  + apply IH; [lia | | exact Hc].
    destruct Hin as [Hin | [<- | Hin]].
    * left. apply in_or_app. now left.
    * left. apply in_or_app. right. now left.
    * now right.
  + destruct Hin as [Hin | [<- | [<- | Hin]]].
    * exists cur. split; [now left | exact Hin].
    * congruence.
    * discriminate Hc.
    * cbn [List.length] in Hlen.
      destruct (IH s' [] c ltac:(lia) (or_intror Hin) Hc) as (line & H1 & H2).
      exists line. split; [now right | exact H2].
  + destruct Hin as [Hin | [<- | Hin]].
    * exists cur. split; [now left | exact Hin].
    * congruence.
    * destruct (IH s [] c ltac:(lia) (or_intror Hin) Hc) as (line & H1 & H2).
      exists line. split; [now right | exact H2].
Qed.

(** A text is blank for [strip] exactly when it holds whitespace only. *)
Lemma strip_empty (s : str) : strip s = [] <-> forallb isspace s = true.
Proof.
destruct (strip_spec s) as (ws1 & ws2 & E & H1 & H2 & Hlead & _). split.
- intros H. rewrite H in E. cbn [app] in E.
  rewrite E, forallb_app. now rewrite H1, H2.
- intros H. destruct (strip s) as [|c r] eqn:Es; [reflexivity|].
  assert (Hc : isspace c = true).
  { rewrite forallb_forall in H. apply H. rewrite E.
    apply in_or_app. right. now left. }
  rewrite (Hlead c r eq_refl) in Hc. discriminate.
Qed.

Lemma nonblank_spec (line : str) :
  nonblank line = true <-> exists c, In c line /\ isspace c = false.
Proof.
unfold nonblank. split.
- intros H. destruct (forallb isspace line) eqn:E.
  + apply strip_empty in E. now rewrite E in H.
  + clear H. induction line as [|c line IH]; [discriminate|].
    cbn [forallb] in E. destruct (isspace c) eqn:Hc.
    * destruct (IH E) as (x & Hx & Hsp). exists x. split; [now right | exact Hsp].
    * exists c. split; [now left | exact Hc].
- intros (c & Hin & Hc). destruct (strip line) eqn:E; [|reflexivity].
  apply strip_empty in E. rewrite forallb_forall in E.
  rewrite (E c Hin) in Hc. discriminate.
Qed.

Lemma last_n_app {A : Type} (n : nat) (l1 l2 : list A) :
  (n <= List.length l2)%nat -> last_n n (l1 ++ l2) = last_n n l2.
Proof.
intros Hn. unfold last_n. rewrite length_app, skipn_app.
replace (List.length l1 + List.length l2 - n)%nat
  with (List.length l1 + (List.length l2 - n))%nat by lia.
rewrite skipn_all2 by lia. cbn [app]. f_equal. lia.
Qed.

Lemma last_n_map {A B : Type} (f : A -> B) (n : nat) (l : list A) :
  map f (last_n n l) = last_n n (map f l).
Proof. unfold last_n. now rewrite skipn_map, length_map. Qed.

Lemma last_n_length {A : Type} (n : nat) (l : list A) :
  List.length (last_n n l) = Nat.min n (List.length l).
Proof. unfold last_n. rewrite length_skipn. lia. Qed.

Section HashFacts.

Variable sha256_hex : str -> str.

(** X18. Only the last five lines that are not blank count: a text that
    holds five such lines or more gives the same hash with anything put
    before it on lines of its own. *)
Theorem hash_last_five (a b : str) :
  (5 <= List.length (filter nonblank (splitlines b)))%nat ->
  compute_traceback_hash sha256_hex (a ++ line_feed :: b) =
  compute_traceback_hash sha256_hex b.
Proof.
intros Hfive. unfold compute_traceback_hash, splitlines.
destruct (splitlines_from_prefix (List.length a) a [] (le_n _)) as (L & HL).
rewrite HL, filter_app, last_n_app by exact Hfive. reflexivity.
Qed.

(** X19. [_run_hash] refuses its input exactly when the input is blank,
    and that is exactly when no line would be hashed: otherwise it prints
    one hash, computed from one to five lines. *)
Theorem run_hash_guard (stdin : str) :
  (forallb isspace stdin = true /\
   _run_hash sha256_hex stdin = mkProcess [] [hash_usage] (Exit 1) [] /\
   filter nonblank (splitlines stdin) = [])
  \/
  (forallb isspace stdin = false /\
   _run_hash sha256_hex stdin =
   mkProcess [compute_traceback_hash sha256_hex stdin] [] Done [] /\
   (1 <= List.length (last_n 5 (filter nonblank (splitlines stdin))) <= 5)%nat).
Proof.
unfold _run_hash. destruct (forallb isspace stdin) eqn:Hsp.
- left. split; [reflexivity|]. pose proof Hsp as Hstrip.
  apply strip_empty in Hstrip. rewrite Hstrip. split; [reflexivity|].
  destruct (filter nonblank (splitlines stdin)) as [|line rest] eqn:E;
    [reflexivity|].
  assert (Hin : In line (filter nonblank (splitlines stdin)))
    by (rewrite E; now left).
  apply filter_In in Hin as (Hline & Hnb).
  apply nonblank_spec in Hnb as (c & Hc & Hcsp).
  destruct (splitlines_from_sound _ stdin [] line c (le_n _) Hline Hc)
    as [[]|Hin].
  rewrite forallb_forall in Hsp. rewrite (Hsp c Hin) in Hcsp. discriminate.
- right. split; [reflexivity|].
  destruct (strip stdin) as [|x r] eqn:Hstrip.
  { apply strip_empty in Hstrip. congruence. }
  split; [reflexivity|]. rewrite last_n_length.
  assert (Hc : exists c, In c stdin /\ isspace c = false).
  { apply nonblank_spec. unfold nonblank. now rewrite Hstrip. }
  destruct Hc as (c & Hin & Hcsp).
  assert (Hb : is_boundary c = false).
  { destruct (is_boundary c) eqn:Hb; [|reflexivity].
    apply is_boundary_isspace in Hb. congruence. }
  destruct (splitlines_from_complete _ stdin [] c (le_n _) (or_intror Hin) Hb)
    as (line & Hline & Hcl).
  assert (Hf : In line (filter nonblank (splitlines stdin))).
  { apply filter_In. split; [exact Hline|]. apply nonblank_spec. now exists c. }
  destruct (filter nonblank (splitlines stdin)); [destruct Hf|].
  cbn [List.length]. lia.
Qed.

End HashFacts.

(** ** The substitutions of [compute_traceback_hash] *)

Lemma sub_from_fuel (p : Rx.pattern) (fuel1 : nat) :
  forall fuel2 s,
    (List.length s <= fuel1)%nat -> (List.length s <= fuel2)%nat ->
    Rx.sub_from fuel1 p s = Rx.sub_from fuel2 p s.
Proof.
induction fuel1 as [|f1 IH]; intros fuel2 s H1 H2.
- destruct s; [|cbn in H1; lia]. now destruct fuel2.
- destruct fuel2 as [|f2]; [destruct s; [reflexivity | cbn in H2; lia]|].
  destruct s as [|c s]; [reflexivity|].
  cbn [Rx.sub_from]. cbn [List.length] in *.
  destruct (Rx.rmatch p (c :: s)) as [rest|]; [|f_equal; apply IH; lia].
  destruct (Nat.ltb_spec (List.length rest) (S (List.length s))).
  + apply IH; lia.
  + f_equal. apply IH; lia.
Qed.

Lemma sub_cons_none (p : Rx.pattern) (c : ascii) (s : str) :
  Rx.rmatch p (c :: s) = None -> Rx.sub p (c :: s) = c :: Rx.sub p s.
Proof.
intros H. unfold Rx.sub. cbn [List.length Rx.sub_from]. now rewrite H.
Qed.

Lemma sub_cons_some (p : Rx.pattern) (c : ascii) (s rest : str) :
  Rx.rmatch p (c :: s) = Some rest ->
  (List.length rest <= List.length s)%nat ->
  Rx.sub p (c :: s) = Rx.sub p rest.
Proof.
intros H Hlen. unfold Rx.sub. cbn [Rx.sub_from List.length]. rewrite H.
destruct (Nat.ltb_spec (List.length rest) (S (List.length s))); [|lia].
apply sub_from_fuel; lia.
Qed.

(** Where no match starts, the text is kept. *)
Lemma sub_pass (p : Rx.pattern) (pre r : str) :
  (forall p1 p2, pre = p1 ++ p2 -> p2 <> [] -> Rx.rmatch p (p2 ++ r) = None) ->
  Rx.sub p (pre ++ r) = pre ++ Rx.sub p r.
Proof.
induction pre as [|c pre IH]; intros Hnone; [reflexivity|].
cbn [app]. rewrite sub_cons_none.
- f_equal. apply IH. intros p1 p2 E Hp2.
  apply (Hnone (c :: p1) p2); [now rewrite E | exact Hp2].
- apply (Hnone [] (c :: pre)); [reflexivity | discriminate].
Qed.

(** A match that is not empty is left out. *)
Lemma sub_hit (p : Rx.pattern) (m r : str) :
  m <> [] -> Rx.rmatch p (m ++ r) = Some r ->
  Rx.sub p (m ++ r) = Rx.sub p r.
Proof.
destruct m as [|c m]; [congruence|]. intros _ H. cbn [app] in *.
apply (sub_cons_some _ _ _ _ H). rewrite length_app. lia.
Qed.

Lemma rmatch_chr (p : Rx.pattern) (c : ascii) (s : str) :
  Rx.rmatch (Rx.Chr c :: p) (c :: s) = Rx.rmatch p s.
Proof. cbn [Rx.rmatch]. now rewrite Ascii.eqb_refl. Qed.

Lemma rmatch_cls (p : Rx.pattern) (cls : ascii -> bool) (c : ascii) (s : str) :
  cls c = true -> Rx.rmatch (Rx.Cls cls :: p) (c :: s) = Rx.rmatch p s.
Proof. intros H. cbn [Rx.rmatch]. now rewrite H. Qed.

(** A repetition with a fixed count takes that many characters. *)
Lemma rep_exact {R : Type} (cls : ascii -> bool) (k : str -> option R)
  (x : str) :
  forall r,
    forallb cls x = true ->
    Rx.rep cls k (List.length x) (Some (List.length x)) (x ++ r) = k r.
Proof.
induction x as [|c x IH]; intros r Hx.
- cbn [List.length app]. destruct r as [|c r]; [reflexivity|].
  cbn [Rx.rep]. now rewrite andb_false_r.
- cbn [forallb] in Hx. apply andb_true_iff in Hx as [Hc Hx].
  cbn [List.length app Rx.rep Nat.pred option_map]. rewrite Hc. cbn [andb negb].
  rewrite IH by exact Hx. now destruct (k r).
Qed.

Lemma rmatch_rep_exact (p : Rx.pattern) (cls : ascii -> bool) (n : nat)
  (x s : str) :
  List.length x = n -> forallb cls x = true ->
  Rx.rmatch (Rx.Rep cls n (Some n) :: p) (x ++ s) = Rx.rmatch p s.
Proof. intros <- Hx. cbn [Rx.rmatch]. now apply rep_exact. Qed.

(** A last star takes the whole run of its class. *)
Lemma rmatch_star_last (cls : ascii -> bool) (x r : str) :
  forallb cls x = true -> not_continued cls r ->
  Rx.rmatch [Rx.Rep cls 0 None] (x ++ r) = Some r.
Proof.
intros Hx Hr. cbn [Rx.rmatch]. induction x as [|c x IH].
- cbn [app]. destruct r as [|c r]; [reflexivity|].
  cbn [not_continued] in Hr. cbn [Rx.rep Rx.rmatch]. now rewrite Hr.
- cbn [forallb] in Hx. apply andb_true_iff in Hx as [Hc Hx].
  cbn [app Rx.rep Nat.pred option_map]. rewrite Hc. cbn [andb negb].
  now rewrite IH.
Qed.

(** *** Timestamps *)

Lemma is_digit_range (c : ascii) :
  is_digit c = true <-> (48 <= N_of_ascii c <= 57)%N.
Proof.
unfold is_digit. rewrite andb_true_iff, !N.leb_le. reflexivity.
Qed.

Lemma is_digit_plain (c : ascii) :
  is_digit c = true -> isspace c = false /\ is_boundary c = false.
Proof.
rewrite is_digit_range. intros H. unfold isspace, is_boundary.
repeat match goal with
| |- context [(?a <=? ?b)%N] =>
    let E := fresh in
    destruct (N.leb_spec a b) as [E|E]; try lia
| |- context [(?a =? ?b)%N] =>
    let E := fresh in
    destruct (N.eqb_spec a b) as [E|E]; try lia
end; now split.
Qed.

Lemma is_dot_or_digit_plain (c : ascii) :
  is_dot_or_digit c = true -> isspace c = false /\ is_boundary c = false.
Proof.
unfold is_dot_or_digit. intros H. apply orb_true_iff in H as [H|H].
- apply Ascii.eqb_eq in H. subst c. now split.
- now apply is_digit_plain.
Qed.

Lemma is_T_or_blank_boundary (c : ascii) :
  is_T_or_blank c = true -> is_boundary c = false.
Proof.
unfold is_T_or_blank. intros H. apply orb_true_iff in H as [H|H];
  apply Ascii.eqb_eq in H; now subst c.
Qed.

Lemma forallb_weaken (p q : ascii -> bool) (x : str) :
  (forall c, p c = true -> q c = true) ->
  forallb p x = true -> forallb q x = true.
Proof.
intros Hpq. rewrite !forallb_forall. intros H c Hc. apply Hpq, H, Hc.
Qed.

(** The pattern matches a timestamp, and all of it, in front of a text
    that does not go on with a dot or a digit. *)
Lemma timestamp_match (ts post : str) :
  timestamp ts -> not_continued is_dot_or_digit post ->
  Rx.rmatch TIMESTAMP_RE (ts ++ post) = Some post.
Proof.
intros (y & mo & d & sep & h & mi & s & frac & -> &
        (Ly & Hy) & (Lmo & Hmo) & (Ld & Hd) & Hsep &
        (Lh & Hh) & (Lmi & Hmi) & (Ls & Hs) & Hfrac) Hpost.
unfold TIMESTAMP_RE.
change (lit "-") with ["-"%char]. change (lit ":") with [":"%char].
rewrite <- !app_assoc. cbn [app].
rewrite (rmatch_rep_exact _ _ _ _ _ Ly Hy), rmatch_chr.
rewrite (rmatch_rep_exact _ _ _ _ _ Lmo Hmo), rmatch_chr.
rewrite (rmatch_rep_exact _ _ _ _ _ Ld Hd), (rmatch_cls _ _ _ _ Hsep).
rewrite (rmatch_rep_exact _ _ _ _ _ Lh Hh), rmatch_chr.
rewrite (rmatch_rep_exact _ _ _ _ _ Lmi Hmi), rmatch_chr.
rewrite (rmatch_rep_exact _ _ _ _ _ Ls Hs).
now apply rmatch_star_last.
Qed.

(** No match starts at a character that is not a digit. *)
Lemma timestamp_needs_digit (c : ascii) (s : str) :
  is_digit c = false -> Rx.rmatch TIMESTAMP_RE (c :: s) = None.
Proof.
intros H. unfold TIMESTAMP_RE. cbn [Rx.rmatch Rx.rep]. now rewrite H.
Qed.

(** A timestamp starts and ends with a character that is not whitespace,
    and holds no line boundary. *)
Lemma timestamp_shape (ts : str) :
  timestamp ts ->
  (exists c r, ts = c :: r /\ isspace c = false) /\
  (exists r c, ts = r ++ [c] /\ isspace c = false) /\
  forallb (fun c => negb (is_boundary c)) ts = true.
Proof.
intros (y & mo & d & sep & h & mi & s & frac & -> &
        (Ly & Hy) & (Lmo & Hmo) & (Ld & Hd) & Hsep &
        (Lh & Hh) & (Lmi & Hmi) & (Ls & Hs) & Hfrac).
assert (Hdig : forall x, forallb is_digit x = true ->
  forallb (fun c => negb (is_boundary c)) x = true).
{ intros x. apply forallb_weaken. intros c Hc.
  now rewrite (proj2 (is_digit_plain c Hc)). }
split; [|split].
- destruct y as [|c y]; [discriminate|]. cbn [forallb] in Hy.
  apply andb_true_iff in Hy as [Hc _]. eexists c, _.
  split; [reflexivity | apply (is_digit_plain c Hc)].
- destruct frac as [|f frac _] using rev_ind.
  + destruct s as [|s1 [|s2 [|? ?]]]; try discriminate.
    cbn [forallb] in Hs. apply andb_true_iff in Hs as [_ Hs].
    apply andb_true_iff in Hs as [H2 _].
    exists (y ++ lit "-" ++ mo ++ lit "-" ++ d ++ [sep] ++
            h ++ lit ":" ++ mi ++ lit ":" ++ [s1]), s2.
    split; [|apply (is_digit_plain s2 H2)].
    rewrite app_nil_r, <- !app_assoc. reflexivity.
  + rewrite forallb_app in Hfrac. apply andb_true_iff in Hfrac as [_ Hf].
    cbn [forallb] in Hf. rewrite andb_true_r in Hf.
    exists (y ++ lit "-" ++ mo ++ lit "-" ++ d ++ [sep] ++
            h ++ lit ":" ++ mi ++ lit ":" ++ s ++ frac), f.
    split; [|apply (is_dot_or_digit_plain f Hf)].
    now rewrite <- !app_assoc.
- assert (Hfb : forallb (fun c => negb (is_boundary c)) frac = true).
  { revert Hfrac. apply forallb_weaken. intros c Hc.
    now rewrite (proj2 (is_dot_or_digit_plain c Hc)). }
  rewrite !forallb_app.
  rewrite (Hdig y Hy), (Hdig mo Hmo), (Hdig d Hd), (Hdig h Hh),
    (Hdig mi Hmi), (Hdig s Hs), Hfb.
  cbn [forallb]. rewrite (is_T_or_blank_boundary sep Hsep). reflexivity.
Qed.

(** *** [strip] around a text that starts and ends with visible
    characters *)

Lemma dropwhile_app_stop (p : ascii -> bool) (pre x : str) :
  (exists c r, x = c :: r /\ p c = false) ->
  dropwhile p (pre ++ x) = dropwhile p pre ++ x.
Proof.
intros (c & r & -> & Hc). induction pre as [|a pre IH]; cbn [app dropwhile].
- now rewrite Hc.
- now destruct (p a).
Qed.

Lemma dropwhile_suffix (p : ascii -> bool) (s : str) :
  exists dropped, s = dropped ++ dropwhile p s.
Proof.
induction s as [|c s (dropped & IH)]; [now exists []|].
cbn [dropwhile]. destruct (p c).
- exists (c :: dropped). cbn [app]. now f_equal.
- now exists [].
Qed.

Lemma strip_core (pre core post : str) :
  (exists c r, core = c :: r /\ isspace c = false) ->
  (exists r c, core = r ++ [c] /\ isspace c = false) ->
  strip (pre ++ core ++ post) = lstrip pre ++ core ++ rstrip post.
Proof.
intros Hfirst (r2 & c2 & E2 & Hc2). unfold strip, lstrip, rstrip.
rewrite dropwhile_app_stop.
- rewrite !rev_app_distr, <- app_assoc. rewrite dropwhile_app_stop.
  + now rewrite !rev_app_distr, !rev_involutive, <- app_assoc.
  + exists c2, (rev r2 ++ rev (dropwhile isspace pre)). split; [|exact Hc2].
    rewrite E2, rev_app_distr. reflexivity.
- destruct Hfirst as (c & r & -> & Hc). now exists c, (r ++ post).
Qed.

Section TimestampFacts.

Variable sha256_hex : str -> str.

(** The lines around a line that stands between line feeds do not depend
    on it. *)
Lemma splitlines_middle (before after : str) :
  before = [] \/ (exists a, before = a ++ [line_feed]) ->
  after = [] \/ (exists b, after = line_feed :: b) ->
  exists L M, forall line,
    line <> [] -> forallb (fun c => negb (is_boundary c)) line = true ->
    splitlines (before ++ line ++ after) = L ++ line :: M.
Proof.
intros Hbefore Hafter.
assert (Hline : exists M, forall line,
  line <> [] -> forallb (fun c => negb (is_boundary c)) line = true ->
  splitlines_from [] (line ++ after) = line :: M).
{ destruct Hafter as [-> | (b & ->)].
  - exists []. intros line Hne Hplain.
    rewrite splitlines_from_plain by exact Hplain. cbn [app splitlines_from].
    now destruct line.
  - exists (splitlines_from [] b). intros line Hne Hplain.
    rewrite splitlines_from_plain by exact Hplain. cbn [app].
    now apply splitlines_from_break. }
destruct Hline as (M & HM).
destruct Hbefore as [-> | (a & ->)].
- exists [], M. intros line Hne Hplain. apply (HM line Hne Hplain).
- destruct (splitlines_from_prefix (List.length a) a [] (le_n _)) as (L & HL).
  exists L, M. intros line Hne Hplain. unfold splitlines.
  rewrite <- app_assoc. cbn [app]. now rewrite HL, HM.
Qed.

(** The loop body gives the same text for two timestamps at the same
    place of a line, when no digit stands before them and neither a dot
    nor a digit follows. *)
Lemma normalize_line_timestamp (pre ts1 ts2 post : str) :
  forallb (fun c => negb (is_digit c)) pre = true ->
  timestamp ts1 -> timestamp ts2 ->
  not_continued is_dot_or_digit post ->
  normalize_line (pre ++ ts1 ++ post) = normalize_line (pre ++ ts2 ++ post).
Proof.
intros Hpre H1 H2 Hpost. unfold normalize_line. do 2 f_equal.
assert (Hsub : forall ts, timestamp ts ->
  Rx.sub TIMESTAMP_RE (strip (pre ++ ts ++ post)) =
  lstrip pre ++ Rx.sub TIMESTAMP_RE (rstrip post)).
{ intros ts Hts. destruct (timestamp_shape ts Hts) as (Hf & Hl & _).
  rewrite (strip_core _ _ _ Hf Hl).
  assert (Hpost' : not_continued is_dot_or_digit (rstrip post)).
  { unfold rstrip.
    destruct (dropwhile_suffix isspace (rev post)) as (dropped & E).
    apply (f_equal (@rev ascii)) in E.
    rewrite rev_involutive, rev_app_distr in E.
    destruct (rev (dropwhile isspace (rev post))) as [|c r]; [exact I|].
    rewrite E in Hpost. exact Hpost. }
  rewrite sub_pass.
  - f_equal. apply sub_hit.
    + destruct Hf as (c & r & -> & _). discriminate.
    + now apply timestamp_match.
  - intros p1 p2 E Hp2. destruct p2 as [|c p2]; [congruence|].
    cbn [app]. apply timestamp_needs_digit.
    unfold lstrip in E.
    destruct (dropwhile_suffix isspace pre) as (dropped & Epre).
    rewrite E in Epre. rewrite Epre in Hpre.
    rewrite !forallb_app in Hpre. cbn [forallb] in Hpre.
    apply andb_true_iff in Hpre as [_ Hpre].
    apply andb_true_iff in Hpre as [_ Hpre].
    apply andb_true_iff in Hpre as [Hc _]. now apply negb_true_iff in Hc. }
now rewrite (Hsub ts1 H1), (Hsub ts2 H2).
Qed.

(** X20. Two texts that differ in one timestamp only have the same hash,
    when the line of the timestamp stands between line feeds, holds no
    digit before the timestamp and goes on with neither a dot nor a
    digit. *)
Theorem hash_timestamp_blind (before pre ts1 ts2 post after : str) :
  before = [] \/ (exists a, before = a ++ [line_feed]) ->
  after = [] \/ (exists b, after = line_feed :: b) ->
  forallb (fun c => negb (is_boundary c)) pre = true ->
  forallb (fun c => negb (is_boundary c)) post = true ->
  forallb (fun c => negb (is_digit c)) pre = true ->
  timestamp ts1 -> timestamp ts2 ->
  not_continued is_dot_or_digit post ->
  compute_traceback_hash sha256_hex (before ++ (pre ++ ts1 ++ post) ++ after) =
  compute_traceback_hash sha256_hex (before ++ (pre ++ ts2 ++ post) ++ after).
Proof.
intros Hbefore Hafter Hpre Hpost Hdig H1 H2 Hcont.
destruct (splitlines_middle before after Hbefore Hafter) as (L & M & Hmid).
assert (Hline : forall ts, timestamp ts ->
  splitlines (before ++ (pre ++ ts ++ post) ++ after) =
  L ++ (pre ++ ts ++ post) :: M /\ nonblank (pre ++ ts ++ post) = true).
{ intros ts Hts.
  destruct (timestamp_shape ts Hts) as ((c & r & -> & Hc) & _ & Hplain).
  split.
  - apply Hmid.
    + destruct pre; discriminate.
    + now rewrite !forallb_app, Hpre, Hplain, Hpost.
  - apply nonblank_spec. exists c. split; [|exact Hc].
    apply in_or_app. right. now left. }
destruct (Hline ts1 H1) as (E1 & N1). destruct (Hline ts2 H2) as (E2 & N2).
unfold compute_traceback_hash. rewrite E1, E2, !filter_app.
cbn [filter]. rewrite N1, N2. do 2 f_equal.
rewrite !last_n_map, !map_app. cbn [map].
now rewrite (normalize_line_timestamp pre ts1 ts2 post Hdig H1 H2 Hcont).
Qed.

End TimestampFacts.

(** *** Pod suffixes *)

Lemma rmatch_end (s : str) :
  Rx.rmatch [Rx.End] s = if Rx.at_end s then Some s else None.
Proof. reflexivity. Qed.

(** What a repetition followed by the end of the text has matched. *)
Lemma rep_end_inv (cls : ascii -> bool) (x : str) :
  forall lo hi r,
    Rx.rep cls (Rx.rmatch [Rx.End]) lo hi x = Some r ->
    exists run,
      x = run ++ r /\ forallb cls run = true /\
      (lo <= List.length run)%nat /\
      (forall h, hi = Some h -> (List.length run <= h)%nat) /\
      Rx.at_end r = true.
Proof.
assert (Hstop : forall (lo : nat) (hi : option nat) (s r : str),
  match lo with O => Rx.rmatch [Rx.End] s | S _ => None end = Some r ->
  exists run,
    s = run ++ r /\ forallb cls run = true /\
    (lo <= List.length run)%nat /\
    (forall h, hi = Some h -> (List.length run <= h)%nat) /\
    Rx.at_end r = true).
{ intros lo hi s r H. destruct lo; [|discriminate].
  rewrite rmatch_end in H. destruct (Rx.at_end s) eqn:E; [|discriminate].
  injection H as <-. exists []. repeat split; try assumption.
  - cbn. lia.
  - intros h _. cbn. lia. }
induction x as [|c x IH]; intros lo hi r H.
- cbn [Rx.rep] in H. now apply Hstop.
- cbn [Rx.rep] in H.
  destruct (cls c && negb match hi with Some O => true | _ => false end)
    eqn:Hgo; [|now apply Hstop].
  destruct (Rx.rep cls (Rx.rmatch [Rx.End]) (Nat.pred lo)
              (option_map Nat.pred hi) x) as [r'|] eqn:Hrec;
    [|now apply Hstop].
  injection H as <-. apply andb_true_iff in Hgo as [Hc Hhi].
  destruct (IH _ _ _ Hrec) as (run & -> & Hrun & Hlo & Hup & Hend).
  exists (c :: run). cbn [app forallb List.length]. rewrite Hc, Hrun.
  repeat split; try assumption; [lia|].
  intros h ->. destruct h as [|h]; [discriminate|].
  specialize (Hup h eq_refl). lia.
Qed.

(** A run of the class within the bounds, up to the end of the text, is
    matched whole. *)
Lemma rep_end_run (cls : ascii -> bool) (run : str) :
  forall lo hi,
    forallb cls run = true ->
    (lo <= List.length run <= hi)%nat ->
    Rx.rep cls (Rx.rmatch [Rx.End]) lo (Some hi) run = Some [].
Proof.
induction run as [|c run IH]; intros lo hi Hrun Hlen.
- cbn [List.length] in Hlen. destruct lo; [reflexivity | lia].
- cbn [forallb] in Hrun. apply andb_true_iff in Hrun as [Hc Hrun].
  cbn [List.length] in Hlen. destruct hi as [|hi]; [lia|].
  cbn [Rx.rep option_map Nat.pred]. rewrite Hc. cbn [andb negb].
  rewrite IH; [reflexivity | exact Hrun | lia].
Qed.

Lemma pod_match_inv (c : ascii) (s r : str) :
  Rx.rmatch POD_RE (c :: s) = Some r ->
  c = "-"%char /\
  exists run,
    s = run ++ r /\ forallb is_lower_alnum run = true /\
    (5 <= List.length run <= 10)%nat /\ Rx.at_end r = true.
Proof.
unfold POD_RE. cbn [Rx.rmatch].
destruct (Ascii.eqb_spec c "-"%char) as [-> | _]; [|discriminate].
intros H. split; [reflexivity|].
destruct (rep_end_inv _ _ _ _ _ H) as (run & E & Hrun & Hlo & Hup & Hend).
exists run. repeat split; try assumption. apply (Hup 10%nat eq_refl).
Qed.

(** X21. The third substitution removes a hyphen followed by five to ten
    lower-case letters or digits that end the line, whatever stands
    before; and in any line it removes at most one such ending, the text
    from a hyphen on (a line feed that ends the text is kept). *)
Theorem sub_pod_suffix (s : str) :
  (forall run,
     forallb is_lower_alnum run = true ->
     (5 <= List.length run <= 10)%nat ->
     Rx.sub POD_RE (s ++ "-"%char :: run) = s)
  /\ (Rx.sub POD_RE s = s \/
      exists kept run tail,
        s = kept ++ "-"%char :: run ++ tail /\
        forallb is_lower_alnum run = true /\
        (5 <= List.length run <= 10)%nat /\
        (tail = [] \/ tail = [line_feed]) /\
        Rx.sub POD_RE s = kept ++ tail).
Proof.
split.
- intros run Hrun Hlen.
  rewrite sub_pass.
  + rewrite <- (app_nil_r ("-"%char :: run)).
    rewrite sub_hit; [now rewrite app_nil_r | discriminate|].
    rewrite app_nil_r. unfold POD_RE. rewrite rmatch_chr.
    cbn [Rx.rmatch]. now apply rep_end_run.
  + intros p1 p2 _ Hp2. destruct p2 as [|c p2]; [congruence|]. cbn [app].
    destruct (Rx.rmatch POD_RE (c :: p2 ++ "-"%char :: run)) as [r|] eqn:E;
      [|reflexivity].
    exfalso. apply pod_match_inv in E as (_ & found & E & Hfound & _ & Hend).
    assert (Hin : In "-"%char (found ++ r))
      by (rewrite <- E; apply in_or_app; right; now left).
    apply in_app_or in Hin as [Hin|Hin].
    * rewrite forallb_forall in Hfound. now apply Hfound in Hin.
    * destruct r as [|x [|? ?]]; try discriminate Hend; [destruct Hin|].
      cbn [Rx.at_end] in Hend. apply Ascii.eqb_eq in Hend. subst x.
      destruct Hin as [Hin | []]. discriminate Hin.
- induction s as [|c s IH]; [now left|].
  destruct (Rx.rmatch POD_RE (c :: s)) as [r|] eqn:E.
  + right. pose proof E as E'.
    apply pod_match_inv in E' as (-> & run & -> & Hrun & Hlen & Hend).
    rewrite (sub_cons_some _ _ _ _ E) by (rewrite length_app; lia).
    exists [], run, r. cbn [app]. repeat split; try assumption; try lia.
    * destruct r as [|x [|? ?]]; try discriminate Hend; [now left|].
      cbn [Rx.at_end] in Hend. apply Ascii.eqb_eq in Hend. subst x. now right.
    * destruct r as [|x [|? ?]]; try discriminate Hend; [reflexivity|].
      cbn [Rx.at_end] in Hend. apply Ascii.eqb_eq in Hend. subst x.
      reflexivity.
  + rewrite (sub_cons_none _ _ _ E).
    destruct IH as [IH | (kept & run & tail & -> & Hrun & Hlen & Htail & IH)].
    * left. now rewrite IH.
    * right. exists (c :: kept), run, tail. rewrite IH.
      now repeat split.
Qed.

(** ** [fetch_launch_info] *)

Lemma contains_false_suffix (sub x y : str) :
  contains sub (x ++ y) = false -> contains sub y = false.
Proof.
intros H. destruct (contains sub y) eqn:E; [|reflexivity].
now rewrite (contains_app_r sub x y E) in H.
Qed.

Lemma contains_false_startswith (sub s : str) :
  contains sub s = false -> startswith sub s = false.
Proof.
intros H. destruct (startswith sub s) eqn:E; [|reflexivity].
now rewrite (contains_startswith _ _ E) in H.
Qed.

Lemma starts_none_absent (sep p : str) :
  contains sep p = false -> starts_none sep p [].
Proof.
intros H p1 p2 -> Hp2. rewrite app_nil_r.
apply contains_false_startswith. now apply contains_false_suffix in H.
Qed.

(** A text that holds the separator is cut at its first occurrence. *)
Lemma contains_first (sep : str) :
  forall s,
    contains sep s = true ->
    exists pre rest, s = pre ++ sep ++ rest /\ starts_none sep pre (sep ++ rest).
Proof.
induction s as [|c s IH]; intros H.
- cbn [contains] in H. rewrite orb_false_r in H.
  apply startswith_prefix in H as (r & E). exists [], r. split; [exact E|].
  intros p1 p2 E2 Hp2. symmetry in E2. apply app_eq_nil in E2 as [_ ->].
  congruence.
- cbn [contains] in H. destruct (startswith sep (c :: s)) eqn:Hst.
  + apply startswith_prefix in Hst as (r & E). exists [], r.
    split; [exact E|].
    intros p1 p2 E2 Hp2. symmetry in E2. apply app_eq_nil in E2 as [_ ->].
    congruence.
  + cbn [orb] in H. destruct (IH H) as (pre & rest & -> & Hnone).
    exists (c :: pre), rest. split; [reflexivity|].
    intros p1 p2 E2 Hp2. destruct p1 as [|x p1]; cbn [app] in E2.
    * subst p2. exact Hst.
    * injection E2 as -> ->. apply (Hnone p1 p2 eq_refl Hp2).
Qed.

(** So the split has a second piece: the index 1 never fails after the
    test for the separator. *)
Lemma split_second (sep s : str) :
  sep <> [] -> contains sep s = true ->
  exists pre piece rest more,
    str_split sep s = pre :: piece :: more /\ s = pre ++ sep ++ piece ++ rest.
Proof.
intros Hsep H. destruct (contains_first sep s H) as (pre & r & -> & Hnone).
unfold str_split. rewrite split_from_pass by exact Hnone.
rewrite split_from_sep by exact Hsep. cbn [app].
destruct (split_from_head sep r []) as (w & z & more & E & ->).
rewrite E. now exists pre, w, z, more.
Qed.

Lemma split_first (sep : str) (c : ascii) (pre rest : str) :
  contains (sep ++ [c]) (pre ++ sep) = false ->
  str_split (sep ++ [c]) (pre ++ (sep ++ [c]) ++ rest) =
  pre :: split_from (sep ++ [c]) 0 [] rest.
Proof.
intros Hfirst. unfold str_split.
rewrite split_from_pass by exact (starts_none_first sep pre rest c Hfirst).
apply split_from_sep. now destruct sep.
Qed.

Lemma split_marker_segment (w s cur rest : str) :
  w <> [] -> slash_free w -> slash_free s -> endswith w s = false ->
  split_from (w ++ lit "/") 0 cur (s ++ lit "/" ++ rest) =
  split_from (w ++ lit "/") 0 (cur ++ s ++ lit "/") rest.
Proof.
intros Hw Fw Fs Hend. rewrite (app_assoc s). apply split_from_pass.
now apply (starts_none_segment w s rest).
Qed.

Lemma cluster_name_of_total (root : str) :
  exists c, cluster_name_of root = inr c /\ slash_free c.
Proof.
unfold cluster_name_of.
destruct (contains (lit "openshift-clusters/") root) eqn:H.
- assert (Hsep : lit "openshift-clusters/" <> []) by discriminate.
  destruct (split_second _ _ Hsep H) as (pre & piece & rest & more & E & _).
  rewrite E. cbn [nth_error].
  pose proof (split_slash_free piece [] (fun H => H)) as Hfree.
  unfold str_split.
  destruct (split_from (lit "/") 0 [] piece) as [|c l] eqn:Es.
  + destruct (split_from_head (lit "/") piece []) as (w & z & r & Ew & _).
    congruence.
  + cbn [nth_error]. exists c. split; [reflexivity|]. now inversion Hfree.
- exists (lit ""). split; [reflexivity|]. intros [].
Qed.

(** The cluster name is the path segment that follows the first
    [openshift-clusters/]. *)
Lemma cluster_name_found (base name rest : str) :
  contains (lit "openshift-clusters/") (base ++ lit "openshift-clusters") = false ->
  slash_free name -> endswith (lit "openshift-clusters") name = false ->
  cluster_name_of
    (base ++ lit "openshift-clusters/" ++ name ++ lit "/" ++ rest) = inr name.
Proof.
intros Hfirst Fname Hend. unfold cluster_name_of.
assert (Hin : contains (lit "openshift-clusters/")
                (base ++ lit "openshift-clusters/" ++ name ++ lit "/" ++ rest)
              = true).
{ apply contains_app_r, contains_startswith, startswith_prefix.
  now exists (name ++ lit "/" ++ rest). }
rewrite Hin.
change (lit "openshift-clusters/") with (lit "openshift-clusters" ++ ["/"%char]).
rewrite (split_first (lit "openshift-clusters") "/"%char base _ Hfirst).
cbn [nth_error].
change ["/"%char] with (lit "/").
rewrite split_marker_segment; [|discriminate | | exact Fname | exact Hend].
- destruct (split_from_head (lit "openshift-clusters" ++ lit "/") rest
              ([] ++ name ++ lit "/")) as (w & z & more & E & _).
  rewrite E. cbn [app]. unfold str_split. rewrite <- app_assoc.
  now rewrite split_slash_segment.
- vm_compute. intuition discriminate.
Qed.

Lemma lstrip_blank (ws : str) : forallb isspace ws = true -> lstrip ws = [].
Proof.
unfold lstrip. induction ws as [|c ws IH]; [reflexivity|].
cbn [forallb dropwhile]. intros H. apply andb_true_iff in H as [Hc H].
rewrite Hc. now apply IH.
Qed.

Lemma rstrip_blank (ws : str) : forallb isspace ws = true -> rstrip ws = [].
Proof.
intros H. unfold rstrip.
assert (Hrev : forallb isspace (rev ws) = true).
{ rewrite forallb_forall in *. intros c Hc. apply H. now apply in_rev. }
fold (lstrip (rev ws)). now rewrite lstrip_blank.
Qed.

(** X22. A description that holds, after its first [Logs URL:], a URL
    between blanks, gives that URL as the root of the logs, and as the
    cluster name the path segment that follows the first
    [openshift-clusters/] of the URL. *)
Theorem launch_urls_found (before ws1 base name rest ws2 : str) :
  contains (lit "Logs URL:") (before ++ lit "Logs URL") = false ->
  contains (lit "Logs URL:")
    (ws1 ++ (base ++ lit "openshift-clusters/" ++ name ++ lit "/" ++ rest) ++
     ws2) = false ->
  forallb isspace ws1 = true -> forallb isspace ws2 = true ->
  no_leading isspace
    (base ++ lit "openshift-clusters/" ++ name ++ lit "/" ++ rest) ->
  no_trailing isspace
    (base ++ lit "openshift-clusters/" ++ name ++ lit "/" ++ rest) ->
  contains (lit "openshift-clusters/") (base ++ lit "openshift-clusters") = false ->
  slash_free name -> endswith (lit "openshift-clusters") name = false ->
  launch_urls
    (before ++ lit "Logs URL:" ++
     ws1 ++ (base ++ lit "openshift-clusters/" ++ name ++ lit "/" ++ rest) ++
     ws2) =
  inr (base ++ lit "openshift-clusters/" ++ name ++ lit "/" ++ rest, name).
Proof.
intros Hfirst Hnone Hws1 Hws2 Hlead Htrail Hoc Fname Hend.
remember (base ++ lit "openshift-clusters/" ++ name ++ lit "/" ++ rest)
  as url eqn:Eurl.
unfold launch_urls.
assert (Hin : contains (lit "Logs URL:")
                (before ++ lit "Logs URL:" ++ ws1 ++ url ++ ws2) = true).
{ apply contains_app_r, contains_startswith, startswith_prefix.
  now exists (ws1 ++ url ++ ws2). }
rewrite Hin.
change (lit "Logs URL:") with (lit "Logs URL" ++ [":"%char]) in *.
rewrite (split_first (lit "Logs URL") ":"%char before _ Hfirst).
cbn [nth_error].
rewrite <- (app_nil_r (ws1 ++ url ++ ws2)).
rewrite split_from_pass by now apply starts_none_absent.
cbn [app split_from nth_error].
assert (Hne : url <> []).
{ rewrite Eurl. destruct base; discriminate. }
assert (Hstrip : strip (ws1 ++ url ++ ws2) = url).
{ rewrite strip_core.
  - now rewrite lstrip_blank, rstrip_blank, app_nil_r by assumption.
  - destruct url as [|c r]; [congruence|]. exists c, r.
    split; [reflexivity | now apply (Hlead c r)].
  - destruct (exists_last Hne) as (r & c & E). exists r, c.
    split; [exact E | now apply (Htrail r c)]. }
rewrite Hstrip, Eurl.
now rewrite (cluster_name_found base name rest Hoc Fname Hend).
Qed.

(** *** The attributes *)

Lemma lookup_set_item (k key value : str) (d : list (str * str)) :
  lookup k (set_item key value d) =
  if str_eqb k key then Some value else lookup k d.
Proof.
induction d as [|[a b] d IH]; cbn [set_item lookup]; [reflexivity|].
destruct (str_eqb key a) eqn:Eka; cbn [lookup].
- apply str_eqb_eq in Eka. subst a. now destruct (str_eqb k key).
- rewrite IH. destruct (str_eqb k a) eqn:Ea; [|reflexivity].
  destruct (str_eqb k key) eqn:Ek; [|reflexivity].
  apply str_eqb_eq in Ea, Ek. subst. now rewrite str_eqb_refl in Eka.
Qed.

Lemma keys_set_item (key value : str) (d : list (str * str)) :
  map fst (set_item key value d) =
  if mem key (map fst d) then map fst d else map fst d ++ [key].
Proof.
induction d as [|[a b] d IH]; cbn [set_item map fst mem existsb app];
  [reflexivity|].
destruct (str_eqb key a) eqn:E; cbn [map fst orb]; [reflexivity|].
rewrite IH. unfold mem. now destruct (existsb (str_eqb key) (map fst d)).
Qed.

Lemma attributes_step_keys (d : list (str * str)) (attr : str * str) :
  NoDup (map fst d) -> ~ In [] (map fst d) ->
  NoDup (map fst (attributes_step d attr)) /\
  ~ In [] (map fst (attributes_step d attr)).
Proof.
intros Hnd Hne. unfold attributes_step. destruct attr as [k v]. cbn [fst snd].
destruct k as [|c k]; [now split|].
rewrite keys_set_item. destruct (mem (c :: k) (map fst d)) eqn:E; [now split|].
split.
- apply NoDup_app; [exact Hnd | repeat constructor; intros [] |].
  intros x Hx [<- | []].
  assert (Hm : mem (c :: k) (map fst d) = true) by now apply mem_In.
  congruence.
- intros Hin. apply in_app_or in Hin as [Hin | [Hin | []]];
    [now apply Hne | discriminate].
Qed.

Lemma attributes_fold_other (k : str) (attrs : list (str * str)) :
  ~ In k (map fst attrs) ->
  forall d, lookup k (fold_left attributes_step attrs d) = lookup k d.
Proof.
induction attrs as [|[a b] attrs IH]; intros Hk d; [reflexivity|].
cbn [fold_left]. rewrite IH by (intros H; apply Hk; now right).
unfold attributes_step. cbn [fst snd]. destruct a as [|c a]; [reflexivity|].
rewrite lookup_set_item.
destruct (str_eqb k (c :: a)) eqn:E; [|reflexivity].
apply str_eqb_eq in E. exfalso. apply Hk. now left.
Qed.

(** X23. The attributes returned form a dictionary: no key twice and no
    empty key.  A key that is not empty has the value of its last
    occurrence in the list of the server; any other key is absent. *)
Theorem launch_attributes_lookup (attrs : list (str * str)) :
  NoDup (map fst (launch_attributes attrs)) /\
  lookup [] (launch_attributes attrs) = None /\
  (forall k, ~ In k (map fst attrs) -> lookup k (launch_attributes attrs) = None) /\
  (forall k v l1 l2,
     attrs = l1 ++ (k, v) :: l2 -> k <> [] -> ~ In k (map fst l2) ->
     lookup k (launch_attributes attrs) = Some v).
Proof.
unfold launch_attributes.
assert (Hkeys : forall l d,
  NoDup (map fst d) -> ~ In [] (map fst d) ->
  NoDup (map fst (fold_left attributes_step l d)) /\
  ~ In [] (map fst (fold_left attributes_step l d))).
{ induction l as [|attr l IH]; intros d Hnd Hne; [now split|].
  cbn [fold_left].
  destruct (attributes_step_keys d attr Hnd Hne) as (H1 & H2).
  now apply IH. }
assert (Habsent : forall d : list (str * str),
  ~ In [] (map fst d) -> lookup [] d = None).
{ induction d as [|[a b] d IH]; intros Hne; [reflexivity|].
  cbn [lookup]. destruct (str_eqb [] a) eqn:E.
  - apply str_eqb_eq in E. subst a. exfalso. apply Hne. now left.
  - apply IH. intros H. apply Hne. now right. }
destruct (Hkeys attrs [] (NoDup_nil _) (fun H => H)) as (Hnd & Hne).
split; [exact Hnd|]. split; [now apply Habsent|]. split.
- intros k Hk. now rewrite attributes_fold_other.
- intros k v l1 l2 -> Hk Hl2.
  rewrite fold_left_app. cbn [fold_left].
  rewrite attributes_fold_other by exact Hl2.
  unfold attributes_step at 1. cbn [fst snd].
  destruct k as [|c k]; [congruence|].
  now rewrite lookup_set_item, str_eqb_refl.
Qed.

(** ** [fetch_test_info] *)

Lemma log_fold_lines (ms : list str) :
  forall lines err,
    fst (fold_left log_step ms (lines, err)) = lines ++ ms.
Proof.
induction ms as [|m ms IH]; intros lines err; [now rewrite app_nil_r|].
cbn [fold_left log_step]. rewrite IH. now rewrite <- app_assoc.
Qed.

Lemma log_fold_keep (ms : list str) :
  forall lines err,
    err <> [] -> snd (fold_left log_step ms (lines, err)) = err.
Proof.
induction ms as [|m ms IH]; intros lines err Herr; [reflexivity|].
cbn [fold_left log_step]. destruct err as [|c err]; [congruence|].
now apply IH.
Qed.

Lemma log_fold_blank (ms : list str) :
  forall lines,
    (forall m, In m ms -> last_line m = []) ->
    snd (fold_left log_step ms (lines, [])) = [].
Proof.
induction ms as [|m ms IH]; intros lines Hblank; [reflexivity|].
cbn [fold_left log_step].
assert (Hrest : forall x, In x ms -> last_line x = [])
  by (intros x Hx; apply Hblank; now right).
destruct m as [|c m]; [now apply IH|].
rewrite (Hblank (c :: m) (or_introl eq_refl)). now apply IH.
Qed.

(** What the loop over the messages leaves. *)
Lemma log_fold_error (ms : list str) :
  exists err,
    fold_left log_step ms ([], []) = (ms, err) /\
    ((forall m, In m ms -> last_line m = []) -> err = []) /\
    (forall ms1 m ms2,
       ms = ms1 ++ m :: ms2 ->
       (forall x, In x ms1 -> last_line x = []) ->
       last_line m <> [] -> err = last_line m).
Proof.
exists (snd (fold_left log_step ms ([], []))). split; [|split].
- rewrite (surjective_pairing (fold_left log_step ms ([], []))) at 1.
  now rewrite log_fold_lines.
- apply log_fold_blank.
- intros ms1 m ms2 -> Hblank Hm. rewrite fold_left_app. cbn [fold_left].
  rewrite (surjective_pairing (fold_left log_step ms1 ([], []))).
  rewrite log_fold_lines, log_fold_blank by exact Hblank.
  cbn [log_step]. destruct m as [|c m]; [now destruct Hm|].
  now apply log_fold_keep.
Qed.

Section QueryFacts.

Variable RP_PROJECT : str.
Variable fetch_json : str -> str -> exn + reply_dict.
Variable urlparse : str -> exn + (str * str).
Variable dumps : query_result -> str.

(** X24. [fetch_launch_info] sends one request, to the launch filter of
    the project.  When the server replies, the only exception is
    [LookupError], for an empty content: the two indexings that follow the
    tests for the markers never fail.  The cluster name returned holds no
    slash, and the description is returned as it came. *)
Theorem fetch_launch_info_outcomes (base_url launch_id api_key : str)
  (data : reply_dict) :
  fetch_json
    (base_url ++ lit "/api/v1/" ++ RP_PROJECT ++ lit "/launch?filter.eq.id=" ++
     launch_id) api_key = inr data ->
  fst (fetch_launch_info RP_PROJECT fetch_json base_url launch_id api_key) =
  [(base_url ++ lit "/api/v1/" ++ RP_PROJECT ++ lit "/launch?filter.eq.id=" ++
    launch_id, api_key)] /\
  match get_content data with
  | [] =>
      snd (fetch_launch_info RP_PROJECT fetch_json base_url launch_id api_key)
      = inl E_LookupError
  | launch :: _ =>
      exists info,
        snd (fetch_launch_info RP_PROJECT fetch_json base_url launch_id api_key)
        = inr info /\
        launch_description info = get_description launch /\
        info_attributes info = launch_attributes (get_attributes launch) /\
        launch_urls (get_description launch) =
        inr (logs_url_root info, cluster_name info) /\
        slash_free (cluster_name info)
  end.
Proof.
intros Hdata. unfold fetch_launch_info, fetch_json_call, bind, lift, ret, raise.
rewrite Hdata. destruct (get_content data) as [|launch others].
- now split.
- assert (Hurls : exists root cluster,
    launch_urls (get_description launch) = inr (root, cluster) /\
    slash_free cluster).
  { unfold launch_urls.
    destruct (contains (lit "Logs URL:") (get_description launch)) eqn:H.
    - assert (Hsep : lit "Logs URL:" <> []) by discriminate.
      destruct (split_second _ _ Hsep H) as (pre & piece & r & more & E & _).
      rewrite E. cbn [nth_error].
      destruct (cluster_name_of_total (strip piece)) as (c & -> & Hc).
      now exists (strip piece), c.
    - exists (lit ""), (lit ""). split; [reflexivity | intros []]. }
  destruct Hurls as (root & cluster & E & Hfree).
  rewrite E. cbn. split; [reflexivity|].
  eexists. split; [reflexivity|]. cbn. now repeat split.
Qed.

(** X25. [fetch_test_info] asks for the item and then for its error logs.
    When the server replies to both, the traceback is the messages joined
    by line feeds, and the error message is the trimmed last line of the
    first message whose last line is not blank; it is empty when there is
    no such message. *)
Theorem fetch_test_info_result (base_url item_id api_key : str)
  (item_data log_data : reply_dict) :
  fetch_json
    (base_url ++ lit "/api/v1/" ++ RP_PROJECT ++ lit "/item/" ++ item_id)
    api_key = inr item_data ->
  fetch_json
    (base_url ++ lit "/api/v1/" ++ RP_PROJECT ++ lit "/log" ++
     lit "?filter.eq.item=" ++ item_id ++ lit "&filter.in.level=ERROR")
    api_key = inr log_data ->
  exists err,
    fetch_test_info RP_PROJECT fetch_json base_url item_id api_key =
    ([(base_url ++ lit "/api/v1/" ++ RP_PROJECT ++ lit "/item/" ++ item_id,
       api_key);
      (base_url ++ lit "/api/v1/" ++ RP_PROJECT ++ lit "/log" ++
       lit "?filter.eq.item=" ++ item_id ++ lit "&filter.in.level=ERROR",
       api_key)],
     inr (mkTestInfo (get_name item_data) (get_status item_data)
            (str_join [line_feed] (map get_message (get_content log_data)))
            err)) /\
    ((forall m, In m (map get_message (get_content log_data)) ->
                last_line m = []) -> err = []) /\
    (forall ms1 m ms2,
       map get_message (get_content log_data) = ms1 ++ m :: ms2 ->
       (forall x, In x ms1 -> last_line x = []) ->
       last_line m <> [] -> err = last_line m).
Proof.
intros Hitem Hlog. unfold fetch_test_info, fetch_json_call, bind, ret.
rewrite Hitem, Hlog.
destruct (log_fold_error (map get_message (get_content log_data)))
  as (err & Efold & Hblank & Hfirst).
change (fold_left log_step (map get_message (get_content log_data))
          ([], lit ""))
  with (fold_left log_step (map get_message (get_content log_data)) ([], [])).
rewrite Efold. exists err. split; [reflexivity|]. now split.
Qed.

(** X26. [_run_query] exits with status 1 exactly when the token file
    does not exist.  It sends no request unless the token can be read,
    [urlparse] accepts the URL and [extract_ids] finds the two
    identifiers; its requests are then the first ones of three, all with
    the stripped token: the launch filter, the item, the error logs of
    the item.  It prints the result only after the three of them. *)
Theorem run_query_requests (tf : token_file) (rp_url : str)
  (p : process query) :
  _run_query RP_PROJECT fetch_json urlparse dumps tf rp_url = p ->
  (ends p = Exit 1 <-> is_file tf = false) /\
  (calls p <> [] ->
   exists text base_url launch_id test_item_id n,
     is_file tf = true /\ content tf = inr text /\
     extract_base_url urlparse rp_url = inr base_url /\
     extract_ids rp_url = inr (launch_id, test_item_id) /\
     calls p =
     firstn n
       [(base_url ++ lit "/api/v1/" ++ RP_PROJECT ++
         lit "/launch?filter.eq.id=" ++ launch_id, strip text);
        (base_url ++ lit "/api/v1/" ++ RP_PROJECT ++ lit "/item/" ++
         test_item_id, strip text);
        (base_url ++ lit "/api/v1/" ++ RP_PROJECT ++ lit "/log" ++
         lit "?filter.eq.item=" ++ test_item_id ++
         lit "&filter.in.level=ERROR", strip text)]) /\
  (stdout p <> [] -> ends p = Done /\ List.length (calls p) = 3%nat).
Proof.
intros <-. unfold _run_query, read_token.
destruct (is_file tf) eqn:Hfile; cbn [negb];
  [|cbn; repeat split; congruence].
destruct (content tf) as [e|text] eqn:Htext;
  [cbn; repeat split; congruence|].
destruct (extract_base_url urlparse rp_url) as [e|base_url] eqn:Hbase;
  [cbn; repeat split; congruence|].
destruct (extract_ids rp_url) as [e|[launch_id test_item_id]] eqn:Hids;
  [cbn; repeat split; congruence|].
unfold fetch_launch_info, fetch_test_info, fetch_json_call, bind, lift, ret,
  raise.
cbn [fst snd app].
assert (Hfound : forall n : nat,
  exists text' base' launch' test' n',
    true = true /\ inr text = @inr exn str text' /\
    @inr py_error str base_url = inr base' /\
    @inr py_error (str * str) (launch_id, test_item_id) = inr (launch', test') /\
    firstn n
      [(base_url ++ lit "/api/v1/" ++ RP_PROJECT ++
        lit "/launch?filter.eq.id=" ++ launch_id, strip text);
       (base_url ++ lit "/api/v1/" ++ RP_PROJECT ++ lit "/item/" ++
        test_item_id, strip text);
       (base_url ++ lit "/api/v1/" ++ RP_PROJECT ++ lit "/log" ++
        lit "?filter.eq.item=" ++ test_item_id ++
        lit "&filter.in.level=ERROR", strip text)] =
    firstn n'
      [(base' ++ lit "/api/v1/" ++ RP_PROJECT ++
        lit "/launch?filter.eq.id=" ++ launch', strip text');
       (base' ++ lit "/api/v1/" ++ RP_PROJECT ++ lit "/item/" ++
        test', strip text');
       (base' ++ lit "/api/v1/" ++ RP_PROJECT ++ lit "/log" ++
        lit "?filter.eq.item=" ++ test' ++
        lit "&filter.in.level=ERROR", strip text')]).
{ intros n. now exists text, base_url, launch_id, test_item_id, n. }
destruct (fetch_json _ (strip text)) as [e|data];
  [cbn; repeat split; try congruence; intros _; apply (Hfound 1%nat)|].
destruct (get_content data) as [|launch others];
  [cbn; repeat split; try congruence; intros _; apply (Hfound 1%nat)|].
destruct (launch_urls (get_description launch)) as [e|urls];
  [cbn; repeat split; try congruence; intros _; apply (Hfound 1%nat)|].
cbn [fst snd app].
destruct (fetch_json _ (strip text)) as [e|item_data];
  [cbn; repeat split; try congruence; intros _; apply (Hfound 2%nat)|].
destruct (fetch_json _ (strip text)) as [e|log_data];
  [cbn; repeat split; try congruence; intros _; apply (Hfound 3%nat)|].
destruct (fold_left log_step _ _) as [lines err].
cbn; repeat split; try congruence; intros _; apply (Hfound 3%nat).
Qed.

End QueryFacts.

(** ** The examples *)

Lemma entry_and_frontier_construction_witness :
  site_small (lit "http://h/") =
    Page (anchor "a/" "a/" ++ anchor "b.txt" "b.txt") /\
  collect urljoin_plain site_small [(lit "http://h/", 0%Z, lit "")] ([], []) =
    inr ([(lit "d", lit "a/", lit "http://h/a/");
          (lit "f", lit "b.txt", lit "http://h/b.txt")],
         [(lit "http://h/a/", 1%Z, lit "a/")]).
Proof.
split; [reflexivity|].
exact (proj1 (entry_and_frontier_construction urljoin_plain site_small
                (lit "http://h/") 0%Z (lit "") _ [] [] eq_refl)).
Defined.

Lemma crawl_nonpositive_depth_witness :
  (1 <= 20)%Z /\ (-3 <= 0)%Z /\
  crawl_directory urljoin_plain site_small reversed (lit "http://h") (-3) 20
  = Some (mkRun (Returned []) []).
Proof.
split; [lia|]. split; [lia|].
apply (crawl_nonpositive_depth urljoin_plain site_small reversed); lia.
Defined.

Lemma in_order_perm (k : nat) (futures : list item) :
  Permutation (in_order k futures) futures.
Proof. apply Permutation_refl. Defined.

Lemma reversed_perm (k : nat) (futures : list item) :
  Permutation (reversed k futures) futures.
Proof. apply Permutation_sym, Permutation_rev. Defined.

Lemma depth_bound_witness :
  (1 <= 20)%Z /\
  (forall k futures, Permutation (in_order k futures) futures) /\
  crawl_directory urljoin_plain site_small in_order (lit "http://h") 0 20
  = Some (mkRun (Returned []) []).
Proof.
split; [lia|]. split; [exact in_order_perm|].
apply (depth_bound urljoin_plain site_small in_order in_order_perm
         (lit "http://h") 5 20).
lia.
Defined.




(** The claim of C6 fails for a depth of zero: the call returns the empty
    list and raises nothing. *)
Lemma config_validation_counterexample :
  exists r,
    crawl_directory urljoin_plain site_small in_order (lit "http://h/") 0 20
    = Some r /\
    outcome r = Returned [] /\ submitted r = [] /\
    forall e, outcome r <> Raised e.
Proof.
exists (mkRun (Returned []) []). repeat split. discriminate.
Qed.

Lemma config_handling_witness :
  (forall k futures, Permutation (in_order k futures) futures) /\
  (1 <= 20)%Z /\ (1 <= 5)%Z /\
  no_scheme site_small (lit "/") = Raise ValueError /\
  crawl_directory urljoin_plain (no_scheme site_small) in_order (lit "") 5 20
  = Some (mkRun (Raised ValueError) [(lit "/", 0%Z, lit "")]).
Proof.
split; [exact in_order_perm|]. split; [lia|]. split; [lia|].
split; [reflexivity|].
apply (config_handling urljoin_plain (no_scheme site_small) in_order
         in_order_perm (lit "") 5 20); [lia | lia | reflexivity].
Defined.



(** Case analysis on which page of an example site a URL names. *)
Ltac which_page u :=
  repeat match goal with
  | |- context [str_eqb u ?p] =>
      let E := fresh "E" in
      destruct (str_eqb u p) eqn:E;
      [apply str_eqb_eq in E; subst u | apply str_eqb_neq in E]
  | H : context [str_eqb u ?p] |- _ =>
      let E := fresh "E" in
      destruct (str_eqb u p) eqn:E;
      [apply str_eqb_eq in E; subst u | apply str_eqb_neq in E]
  end.

Lemma site_diamond_dirs (u : str) :
  page_dirs urljoin_plain site_diamond u =
  if str_eqb u (lit "http://h/") then [lit "http://h/a/"; lit "http://h/a/b/"]
  else if str_eqb u (lit "http://h/a/") then [lit "http://h/a/b/"]
  else [].
Proof.
unfold page_dirs, site_diamond. cbn [site].
which_page u; reflexivity.
Qed.

(** The claim of C8 fails on a site without cycle in which a directory is
    listed by two pages: its URL is submitted once for each. *)
Lemma single_fetch_counterexample :
  listing_dag urljoin_plain site_diamond /\
  exists r,
    crawl_directory urljoin_plain site_diamond in_order (lit "http://h/") 5 20
    = Some r /\
    map item_url (submitted r) =
      [lit "http://h/"; lit "http://h/a/"; lit "http://h/a/b/";
       lit "http://h/a/b/"] /\
    ~ NoDup (map item_url (submitted r)).
Proof.
split.
- exists rank_diamond. intros u v. rewrite site_diamond_dirs.
  unfold rank_diamond. which_page u; cbn [In].
  + intros [<- | [<- | []]]; vm_compute; lia.
  + intros [<- | []]; vm_compute; lia.
  + intros [].
- eexists. split; [vm_compute; reflexivity|]. split; [reflexivity|].
  cbn [submitted map]. intros H.
  inversion H as [|? ? _ H1]; subst. inversion H1 as [|? ? _ H2]; subst.
  inversion H2 as [|? ? H3 _]; subst. apply H3. now left.
Qed.

Lemma site_aside_dirs (u : str) :
  page_dirs urljoin_plain site_aside u =
  if str_eqb u (lit "http://h/") then [lit "http://h/a/b/"; lit "http://h/d/"]
  else if str_eqb u (lit "http://h/a/") then [lit "http://h/a/b/"]
  else [].
Proof.
unfold page_dirs, site_aside. cbn [site].
which_page u; reflexivity.
Qed.

(** The page [a/] is not below the root. *)
Lemma site_aside_below (u : str) :
  below urljoin_plain site_aside (lit "http://h/") u ->
  u = lit "http://h/" \/ u = lit "http://h/a/b/" \/ u = lit "http://h/d/".
Proof.
intros (n & Hn). induction Hn as [|n u v _ IH Hv]; [now left|].
rewrite site_aside_dirs in Hv.
destruct IH as [-> | [-> | ->]]; vm_compute in Hv;
  [|destruct Hv | destruct Hv].
destruct Hv as [<- | [<- | []]]; [right; left | right; right]; reflexivity.
Qed.

Lemma site_aside_tree : listing_tree urljoin_plain site_aside (lit "http://h/").
Proof.
repeat split.
- intros u _. rewrite site_aside_dirs. which_page u; repeat constructor;
    cbn [In]; intuition discriminate.
- intros u v x Hu Hv.
  apply site_aside_below in Hu. apply site_aside_below in Hv.
  destruct Hu as [-> | [-> | ->]], Hv as [-> | [-> | ->]];
    try reflexivity; rewrite !site_aside_dirs; vm_compute; tauto.
- intros u _. rewrite site_aside_dirs. which_page u; cbn [In];
    intuition discriminate.
Defined.

Lemma single_fetch_in_tree_witness :
  (forall k futures, Permutation (reversed k futures) futures) /\
  listing_tree urljoin_plain site_aside (root_of (lit "http://h/")) /\
  In (lit "http://h/a/b/")
    (page_dirs urljoin_plain site_aside (lit "http://h/a/")) /\
  exists r,
    crawl_directory urljoin_plain site_aside reversed (lit "http://h/") 5 20
    = Some r /\
    List.length (submitted r) = 3%nat /\
    NoDup (map item_url (submitted r)).
Proof.
split; [exact reversed_perm|]. split; [exact site_aside_tree|].
split; [vm_compute; tauto|].
destruct (single_fetch_in_tree urljoin_plain site_aside reversed reversed_perm
            (lit "http://h/") 5 20 site_aside_tree) as (r & Hr & Hnd).
exists r. split; [exact Hr|]. split; [|exact Hnd].
vm_compute in Hr. injection Hr as <-. reflexivity.
Defined.

(** The claim of C7 fails on the site whose two directories show the same
    text: both are recorded under the one path made of that text. *)
Lemma paths_unique_counterexample :
  exists l s,
    crawl_directory urljoin_plain site_same_text in_order (lit "http://h/") 5 20
    = Some (mkRun (Returned l) s) /\
    nth_error l 0 = Some (lit "d", lit "X/", lit "http://h/x/") /\
    nth_error l 1 = Some (lit "d", lit "X/", lit "http://h/y/") /\
    ~ NoDup (map entry_path l).
Proof.
do 2 eexists. split; [vm_compute; reflexivity|].
split; [reflexivity|]. split; [reflexivity|].
cbn [map]. intros H. inversion H as [|? ? H1 _]; subst. apply H1. now left.
Qed.

Lemma paths_unique_witness :
  (forall k futures, Permutation (reversed k futures) futures) /\
  exists r l,
    crawl_directory urljoin_plain site_deep reversed (lit "http://h/") 2 20
    = Some r /\
    outcome r = Returned l /\
    (forall it, In it (submitted r) ->
                page_names_ok urljoin_plain site_deep it) /\
    ~ page_names_ok urljoin_plain site_deep
        (lit "http://h/a/s/", 2%Z, lit "a/s/") /\
    List.length l = 4%nat /\
    NoDup (map entry_path l).
Proof.
split; [exact reversed_perm|].
destruct (paths_unique urljoin_plain site_deep reversed reversed_perm
            (lit "http://h/") 2 20) as (r & Hr & Hunique).
pose proof Hr as Hc. vm_compute in Hc. injection Hc as Hc. subst r.
cbn [outcome submitted] in Hunique |- *.
match type of Hunique with
| (?G -> _) => assert (Hgood : G)
end.
{ cbn [In]. intros it [<- | [<- | [<- | []]]];
    intros html Hf; vm_compute in Hf; injection Hf as <-;
    (split;
     [intros lk Hlk; vm_compute in Hlk;
      repeat (destruct Hlk as [<- | Hlk]; [split; [|discriminate];
              vm_compute; intuition discriminate|]); destruct Hlk
     | vm_compute; repeat constructor; cbn [In]; intuition discriminate]). }
eexists _, _. split; [exact Hr|]. cbn [outcome submitted].
split; [reflexivity|].
split; [exact Hgood|]. split; [|split].
- intros H. destruct (H _ eq_refl) as (_ & Hnd). vm_compute in Hnd.
  inversion Hnd as [|? ? Hx _]. apply Hx. now left.
- reflexivity.
- now apply (Hunique Hgood).
Defined.

Lemma fetching_root_reachable :
  reachable urljoin_plain site_small 5 2 (lit "http://h/") fetching_root.
Proof.
apply (reach_step _ _ _ _ _
         (mkState (Submitting [])
            [(0%nat, (lit "http://h/", 0%Z, lit ""))] [] []
            [(0%nat, (lit "http://h/", 0%Z, lit ""))] [] 1 0 [] 1 [])).
- apply (reach_step _ _ _ _ _ (init 2 (lit "http://h/"))).
  + apply reach_init.
  + exact (step_submit urljoin_plain site_small 5 2
             (lit "http://h/", 0%Z, lit "") [] [] [] [] [] [] 0 0 [] 0 []
             eq_refl).
- exact (step_take urljoin_plain site_small 5 2 (Submitting [])
           [(0%nat, (lit "http://h/", 0%Z, lit ""))] [] []
           (0%nat, (lit "http://h/", 0%Z, lit "")) [] [] 1 0 [] 1 []
           (le_n 1)).
Defined.

Lemma pool_bound_and_barrier_witness :
  (1 <= 2)%Z /\
  reachable urljoin_plain site_small 5 2 (lit "http://h/") fetching_root /\
  in_flight fetching_root = 1%nat /\
  (Z.of_nat (in_flight fetching_root) <= 2)%Z /\
  barrier (trace fetching_root).
Proof.
split; [lia|]. split; [exact fetching_root_reachable|]. split; [reflexivity|].
apply (pool_bound_and_barrier urljoin_plain site_small 5 2 (lit "http://h/"));
  [lia | exact fetching_root_reachable].
Defined.

Lemma pool_refines_crawl_witness :
  exists s l,
    perform_all urljoin_plain site_wide 2 2 (init 2 (lit "http://h/"))
      two_levels = Some s /\
    reachable urljoin_plain site_wide 2 2 (lit "http://h/") s /\
    main s = Left (Returned l) /\
    List.length l = 7%nat /\
    trace s =
      [Start (0%nat, (lit "http://h/", 0%Z, lit ""));
       Finish (0%nat, (lit "http://h/", 0%Z, lit ""));
       Start (1%nat, (lit "http://h/a/", 1%Z, lit "a/"));
       Start (2%nat, (lit "http://h/b/", 1%Z, lit "b/"));
       Finish (2%nat, (lit "http://h/b/", 1%Z, lit "b/"));
       Finish (1%nat, (lit "http://h/a/", 1%Z, lit "a/"))] /\
    exists as_completed log,
      (forall k futures, Permutation (as_completed k futures) futures) /\
      crawl_directory urljoin_plain site_wide as_completed (lit "http://h/") 2 2
      = Some (mkRun (Returned l) log).
Proof.
destruct (perform_all urljoin_plain site_wide 2 2 (init 2 (lit "http://h/"))
            two_levels) as [s|] eqn:E; [|vm_compute in E; discriminate E].
assert (Hreach : reachable urljoin_plain site_wide 2 2 (lit "http://h/") s).
{ apply (perform_all_reachable _ _ _ _ _ two_levels (init 2 (lit "http://h/")));
    [apply reach_init | exact E]. }
vm_compute in E. injection E as E. subst s.
eexists _, _. split; [reflexivity|]. split; [exact Hreach|].
split; [reflexivity|]. split; [reflexivity|]. split; [reflexivity|].
exact (pool_refines_crawl urljoin_plain site_wide 2 2 (lit "http://h/")
         _ _ Hreach eq_refl).
Defined.

(** The scenario of the root that lists [a/] and [b.txt], where [a/]
    lists [c.txt]: with a depth of five the crawl fetches the two listings
    and returns the directory, the file below it and the file beside it,
    sorted by path, whatever the order of completion. *)
Theorem crawl_small_site :
  crawl_directory urljoin_plain site_small in_order (lit "http://h/") 5 20 =
  Some (mkRun
          (Returned [(lit "d", lit "a/", lit "http://h/a/");
                     (lit "f", lit "a/c.txt", lit "http://h/a/c.txt");
                     (lit "f", lit "b.txt", lit "http://h/b.txt")])
          [(lit "http://h/", 0%Z, lit ""); (lit "http://h/a/", 1%Z, lit "a/")])
  /\ crawl_directory urljoin_plain site_small reversed (lit "http://h") 5 1 =
     crawl_directory urljoin_plain site_small in_order (lit "http://h/") 5 20.
Proof.
split; vm_compute; reflexivity.
Qed.

(** The address of a test item's log page: the launch is 123 and the test
    item 789. *)
Lemma extract_ids_returns_witness :
  extract_ids (lit "https://rp/ui/#ocs/launches/all/123/456/789/log") =
  inr (lit "123", lit "789").
Proof.
apply (extract_ids_returns (lit "https://rp/ui/#ocs/") (lit "all") (lit "123")
         (lit "456") (lit "789") (lit "log"));
  try reflexivity; vm_compute; intuition discriminate.
Defined.

Lemma extract_ids_sound_witness :
  slash_free (lit "123") /\ slash_free (lit "789") /\
  exists pre a b rest,
    slash_free a /\ slash_free b /\
    lit "https://rp/ui/#ocs/launches/all/123/456/789/log" =
    pre ++ lit "launches/" ++ a ++ lit "/" ++ lit "123" ++ lit "/" ++ b ++
    lit "/" ++ lit "789" ++ rest.
Proof.
apply (extract_ids_sound (lit "https://rp/ui/#ocs/launches/all/123/456/789/log")
         (lit "123") (lit "789")).
reflexivity.
Defined.

(** The address of a launch's log page, without the filter and the test
    item. *)
Lemma extract_ids_index_error_witness :
  extract_ids (lit "https://rp/ui/#ocs/launches/123/log") = inl E_IndexError.
Proof.
apply (extract_ids_index_error (lit "https://rp/ui/#ocs/") (lit "123/log"));
  [reflexivity | reflexivity | vm_compute; lia].
Defined.

(** Two depths around the target: the second depth is the one used. *)
Lemma crawl_args_last_wins_witness :
  crawl_args int_plain 5 (lit "")
    [lit "-d"; lit "3"; lit "http://h/"; lit "-d"; lit "2"] =
  inr (2%Z, lit "http://h/").
Proof.
apply (crawl_args_last_wins int_plain
         [Depth (lit "3"); Target (lit "http://h/"); Depth (lit "2")]
         [3%Z; 2%Z] []).
- intros u [H|[H|[H|[]]]]; try discriminate H.
  injection H as <-. vm_compute. discriminate.
- reflexivity.
- now left.
Defined.

(** A depth and no target. *)
Lemma run_crawl_usage_witness :
  _run_crawl int_plain urljoin_plain site_small in_order [lit "-d"; lit "3"] =
  Some (mkProcess [] [crawl_usage] (Exit 1) []).
Proof.
apply (run_crawl_usage int_plain urljoin_plain site_small in_order
         [Depth (lit "3")] [3%Z]).
- intros u [H|[]]. discriminate H.
- reflexivity.
- reflexivity.
Defined.

(** A depth that is a word. *)
Lemma run_crawl_bad_depth_witness :
  _run_crawl int_plain urljoin_plain site_small in_order
    [lit "-d"; lit "deep"; lit "http://h/"] =
  Some (mkProcess [] [] (Uncaught (E_exn ValueError)) []).
Proof.
apply (run_crawl_bad_depth int_plain urljoin_plain site_small in_order
         [] [] (lit "deep") [lit "http://h/"]).
- intros u [].
- reflexivity.
- reflexivity.
Defined.

Lemma run_crawl_nonpositive_depth_witness :
  _run_crawl int_plain urljoin_plain site_small in_order
    [lit "-d"; lit "0"; lit "http://h/"] =
  Some (mkProcess [] [] Done []).
Proof.
apply (run_crawl_nonpositive_depth int_plain urljoin_plain site_small in_order
         [lit "-d"; lit "0"; lit "http://h/"] 0%Z (lit "http://h/")).
- reflexivity.
- discriminate.
- lia.
Defined.



Lemma read_token_warning_witness :
  (fst (read_token token_600) = [] <->
   forall i, (0 <= i < 6)%Z -> Z.testbit (st_mode token_600) i = false)
  /\ (forall text,
        content token_600 = inr text ->
        exists ws1 ws2,
          snd (read_token token_600) = inr (strip text) /\
          text = ws1 ++ strip text ++ ws2 /\
          forallb isspace ws1 = true /\ forallb isspace ws2 = true /\
          no_leading isspace (strip text) /\ no_trailing isspace (strip text)).
Proof. apply (read_token_warning token_600). reflexivity. Defined.

(** A product bug with a comment, set on item 789 of the project ocs. *)
Lemma run_decide_guard_witness :
  exists base_url item_id key flags locator comment link_url link_id n text,
    [lit "https://rp"; lit "789"; lit "product_bug"; lit "--comment";
     lit "flaky"] = base_url :: item_id :: key :: flags /\
    lookup key ISSUE_TYPE_MAP = Some locator /\
    In locator [lit "PB001"; lit "AB001"; lit "SI001"] /\
    decide_flags (lit "") (lit "") (lit "") flags =
    inr (comment, link_url, link_id) /\
    is_file token_600 = true /\ content token_600 = inr text /\
    int_plain item_id = Some n /\
    (lit "https://rp/api/v1/ocs/item", lit "secret",
     defect_payload 789
       (defect_issue (lit "PB001") (lit "flaky") (lit "") (lit ""))) =
    (base_url ++ lit "/api/v1/" ++ lit "ocs" ++ lit "/item", strip text,
     defect_payload n (defect_issue locator comment link_url link_id)) /\
    calls (_run_decide int_plain (lit "ocs") str put_ok (fun r => r) token_600
             [lit "https://rp"; lit "789"; lit "product_bug"; lit "--comment";
              lit "flaky"]) =
    [(lit "https://rp/api/v1/ocs/item", lit "secret",
      defect_payload 789
        (defect_issue (lit "PB001") (lit "flaky") (lit "") (lit "")))].
Proof.
apply (run_decide_guard int_plain (lit "ocs") str put_ok (fun r => r)
         token_600
         [lit "https://rp"; lit "789"; lit "product_bug"; lit "--comment";
          lit "flaky"]
         (lit "https://rp/api/v1/ocs/item", lit "secret",
          defect_payload 789
            (defect_issue (lit "PB001") (lit "flaky") (lit "") (lit "")))).
vm_compute. left. reflexivity.
Defined.

Lemma run_decide_outcomes_witness :
  (ends (_run_decide int_plain (lit "ocs") str put_ok (fun r => r) token_600
           [lit "https://rp"; lit "789"; lit "product_bug"]) = Exit 1 ->
   calls (_run_decide int_plain (lit "ocs") str put_ok (fun r => r) token_600
            [lit "https://rp"; lit "789"; lit "product_bug"]) = [] /\
   stdout (_run_decide int_plain (lit "ocs") str put_ok (fun r => r) token_600
             [lit "https://rp"; lit "789"; lit "product_bug"]) = []) /\
  (stdout (_run_decide int_plain (lit "ocs") str put_ok (fun r => r) token_600
             [lit "https://rp"; lit "789"; lit "product_bug"]) <> [] ->
   ends (_run_decide int_plain (lit "ocs") str put_ok (fun r => r) token_600
           [lit "https://rp"; lit "789"; lit "product_bug"]) = Done /\
   exists url api_key payload result,
     calls (_run_decide int_plain (lit "ocs") str put_ok (fun r => r) token_600
              [lit "https://rp"; lit "789"; lit "product_bug"]) =
     [(url, api_key, payload)] /\
     put_ok url api_key payload = inr result /\
     stdout (_run_decide int_plain (lit "ocs") str put_ok (fun r => r)
               token_600 [lit "https://rp"; lit "789"; lit "product_bug"]) =
     [result]).
Proof.
apply (run_decide_outcomes int_plain (lit "ocs") str put_ok (fun r => r)
         token_600 [lit "https://rp"; lit "789"; lit "product_bug"]).
reflexivity.
Defined.

(** The flag for the comment without its value. *)
Lemma run_decide_unknown_flag_witness :
  _run_decide int_plain (lit "ocs") str put_ok (fun r => r) token_600
    [lit "https://rp"; lit "789"; lit "product_bug"; lit "--comment"] =
  mkProcess [] [unknown_flag (lit "--comment")] (Exit 1) [].
Proof.
apply (run_decide_unknown_flag int_plain (lit "ocs") str put_ok (fun r => r)
         token_600 (lit "https://rp") (lit "789") (lit "product_bug")
         (lit "PB001") (lit "--comment") [] []).
- reflexivity.
- now left.
Defined.

(** A ticket id and a comment, no link URL. *)
Lemma run_decide_link_id_alone_witness :
  _run_decide int_plain (lit "ocs") str put_ok (fun r => r) token_600
    [lit "https://rp"; lit "789"; lit "product_bug"; lit "--link-id";
     lit "JIRA-1"; lit "--comment"; lit "flaky"] =
  _run_decide int_plain (lit "ocs") str put_ok (fun r => r) token_600
    [lit "https://rp"; lit "789"; lit "product_bug"; lit "--comment";
     lit "flaky"].
Proof.
apply (run_decide_link_id_alone int_plain (lit "ocs") str put_ok (fun r => r)
         token_600 (lit "https://rp") (lit "789") (lit "product_bug")
         [LinkId (lit "JIRA-1"); Comment (lit "flaky")]).
reflexivity.
Defined.

(** Five lines, and the same five after a line of noise; the digest is
    left out, so that the hashed text itself is compared. *)
Lemma hash_last_five_witness :
  compute_traceback_hash (fun text => text)
    (lit "noise" ++ line_feed ::
     lit "l1" ++ [line_feed] ++ lit "l2" ++ [line_feed] ++ lit "l3" ++
     [line_feed] ++ lit "l4" ++ [line_feed] ++ lit "l5") =
  compute_traceback_hash (fun text => text)
    (lit "l1" ++ [line_feed] ++ lit "l2" ++ [line_feed] ++ lit "l3" ++
     [line_feed] ++ lit "l4" ++ [line_feed] ++ lit "l5").
Proof.
apply (hash_last_five (fun text => text) (lit "noise")
         (lit "l1" ++ [line_feed] ++ lit "l2" ++ [line_feed] ++ lit "l3" ++
          [line_feed] ++ lit "l4" ++ [line_feed] ++ lit "l5")).
vm_compute. lia.
Defined.

(** The same error logged at two moments, in the two spellings of a
    timestamp. *)
Lemma hash_timestamp_blind_witness :
  compute_traceback_hash (fun text => text)
    ((lit "Traceback:" ++ [line_feed]) ++
     (lit "at " ++ lit "2024-01-02 03:04:05" ++ lit " ERROR boom") ++ []) =
  compute_traceback_hash (fun text => text)
    ((lit "Traceback:" ++ [line_feed]) ++
     (lit "at " ++ lit "2025-11-12T13:14:15.678" ++ lit " ERROR boom") ++ []).
Proof.
apply (hash_timestamp_blind (fun text => text)
         (lit "Traceback:" ++ [line_feed]) (lit "at ")
         (lit "2024-01-02 03:04:05") (lit "2025-11-12T13:14:15.678")
         (lit " ERROR boom") []).
- right. now exists (lit "Traceback:").
- now left.
- reflexivity.
- reflexivity.
- reflexivity.
- exists (lit "2024"), (lit "01"), (lit "02"), " "%char,
    (lit "03"), (lit "04"), (lit "05"), [].
  unfold digit_run. repeat split.
- exists (lit "2025"), (lit "11"), (lit "12"), "T"%char,
    (lit "13"), (lit "14"), (lit "15"), (lit ".678").
  unfold digit_run. repeat split.
- reflexivity.
Defined.

Lemma launch_urls_found_witness :
  launch_urls
    ((lit "Run 7" ++ [line_feed]) ++ lit "Logs URL:" ++
     lit " " ++
     (lit "http://logs/" ++ lit "openshift-clusters/" ++ lit "c1" ++ lit "/" ++
      lit "run7/") ++ []) =
  inr (lit "http://logs/" ++ lit "openshift-clusters/" ++ lit "c1" ++ lit "/" ++
       lit "run7/", lit "c1").
Proof.
apply (launch_urls_found (lit "Run 7" ++ [line_feed]) (lit " ")
         (lit "http://logs/") (lit "c1") (lit "run7/") []).
- reflexivity.
- reflexivity.
- reflexivity.
- reflexivity.
- intros c r E. vm_compute in E. injection E as Hc _. subst c. reflexivity.
- intros r c E.
  change (lit "http://logs/" ++ lit "openshift-clusters/" ++ lit "c1" ++
          lit "/" ++ lit "run7/")
    with (lit "http://logs/openshift-clusters/c1/run7" ++ ["/"%char]) in E.
  apply app_inj_tail in E as [_ Hc]. subst c. reflexivity.
- reflexivity.
- vm_compute. intuition discriminate.
- reflexivity.
Defined.

Lemma fetch_launch_info_outcomes_witness :
  fst (fetch_launch_info (lit "ocs") server_small (lit "https://rp")
         (lit "123") (lit "secret")) =
  [(lit "https://rp" ++ lit "/api/v1/" ++ lit "ocs" ++
    lit "/launch?filter.eq.id=" ++ lit "123", lit "secret")] /\
  match get_content launch_reply with
  | [] =>
      snd (fetch_launch_info (lit "ocs") server_small (lit "https://rp")
             (lit "123") (lit "secret")) = inl E_LookupError
  | launch :: _ =>
      exists info,
        snd (fetch_launch_info (lit "ocs") server_small (lit "https://rp")
               (lit "123") (lit "secret")) = inr info /\
        launch_description info = get_description launch /\
        info_attributes info = launch_attributes (get_attributes launch) /\
        launch_urls (get_description launch) =
        inr (logs_url_root info, cluster_name info) /\
        slash_free (cluster_name info)
  end.
Proof.
apply (fetch_launch_info_outcomes (lit "ocs") server_small (lit "https://rp")
         (lit "123") (lit "secret") launch_reply).
reflexivity.
Defined.

Lemma fetch_test_info_result_witness :
  exists err,
    fetch_test_info (lit "ocs") server_small (lit "https://rp") (lit "789")
      (lit "secret") =
    ([(lit "https://rp" ++ lit "/api/v1/" ++ lit "ocs" ++ lit "/item/" ++
       lit "789", lit "secret");
      (lit "https://rp" ++ lit "/api/v1/" ++ lit "ocs" ++ lit "/log" ++
       lit "?filter.eq.item=" ++ lit "789" ++ lit "&filter.in.level=ERROR",
       lit "secret")],
     inr (mkTestInfo (get_name item_reply) (get_status item_reply)
            (str_join [line_feed] (map get_message (get_content log_reply)))
            err)) /\
    ((forall m, In m (map get_message (get_content log_reply)) ->
                last_line m = []) -> err = []) /\
    (forall ms1 m ms2,
       map get_message (get_content log_reply) = ms1 ++ m :: ms2 ->
       (forall x, In x ms1 -> last_line x = []) ->
       last_line m <> [] -> err = last_line m).
Proof.
apply (fetch_test_info_result (lit "ocs") server_small (lit "https://rp")
         (lit "789") (lit "secret") item_reply log_reply).
- reflexivity.
- reflexivity.
Defined.

Lemma run_query_requests_witness :
  (ends query_example = Exit 1 <-> is_file token_600 = false) /\
  (calls query_example <> [] ->
   exists text base_url launch_id test_item_id n,
     is_file token_600 = true /\ content token_600 = inr text /\
     extract_base_url urlparse_rp
       (lit "https://rp/ui/#ocs/launches/all/123/456/789/log") = inr base_url /\
     extract_ids (lit "https://rp/ui/#ocs/launches/all/123/456/789/log") =
     inr (launch_id, test_item_id) /\
     calls query_example =
     firstn n
       [(base_url ++ lit "/api/v1/" ++ lit "ocs" ++
         lit "/launch?filter.eq.id=" ++ launch_id, strip text);
        (base_url ++ lit "/api/v1/" ++ lit "ocs" ++ lit "/item/" ++
         test_item_id, strip text);
        (base_url ++ lit "/api/v1/" ++ lit "ocs" ++ lit "/log" ++
         lit "?filter.eq.item=" ++ test_item_id ++
         lit "&filter.in.level=ERROR", strip text)]) /\
  (stdout query_example <> [] ->
   ends query_example = Done /\ List.length (calls query_example) = 3%nat).
Proof.
apply (run_query_requests (lit "ocs") server_small urlparse_rp
         (fun result => cluster_name (result_launch result)) token_600
         (lit "https://rp/ui/#ocs/launches/all/123/456/789/log")
         query_example).
reflexivity.
Defined.

(** The name of a pod of a deployment. *)
Lemma sub_pod_suffix_witness :
  Rx.sub POD_RE (lit "web-7d9f8b6c5d" ++ "-"%char :: lit "x2k4p") =
  lit "web-7d9f8b6c5d".
Proof.
apply (proj1 (sub_pod_suffix (lit "web-7d9f8b6c5d")) (lit "x2k4p")).
- reflexivity.
- vm_compute. lia.
Defined.

(** A key given twice, with an empty key between. *)
Lemma launch_attributes_lookup_witness :
  lookup (lit "platform")
    (launch_attributes
       ([(lit "platform", lit "aws"); (lit "", lit "x")] ++
        (lit "platform", lit "gcp") :: [])) = Some (lit "gcp").
Proof.
apply (proj2 (proj2 (proj2 (launch_attributes_lookup
         ([(lit "platform", lit "aws"); (lit "", lit "x")] ++
          (lit "platform", lit "gcp") :: []))))
         (lit "platform") (lit "gcp")
         [(lit "platform", lit "aws"); (lit "", lit "x")] []).
- reflexivity.
- discriminate.
- intros [].
Defined.
